(** * HW-to-BTOR2 emission and LTL-to-Core lowering

    A shallow embedding of
    - [lib/Dialect/HW/Transforms/LowerHWtoBTOR2.cpp] (module [BTOR2]) and
    - [lib/Conversion/LTLToCore/LTLToCore.cpp] (module [LTLToCore]),
    with the properties of the specification proved about it. *)

From Stdlib Require Import ZArith List Lia Sorted.
From stdpp Require Import base numbers option list gmap strings pretty.

Local Open Scope Z_scope.

(** ** Machine integers *)

(** [size_t] is 64 bits wide; values are kept as their mathematical [Z] value
    and arithmetic is reduced modulo [2^64] where the code can overflow. *)
Definition size_t_mod : Z := 2 ^ 64.
Definition to_size_t (z : Z) : Z := z mod size_t_mod.
(** Conversion of a [size_t] to [int64_t] (two's complement). *)
Definition to_int64 (z : Z) : Z :=
  let u := z mod size_t_mod in
  if u <? 2 ^ 63 then u else u - size_t_mod.

Module BTOR2.

(** ** The IR view used by the pass *)

(** A pointer to an operation: an address; [nullptr] is [0]. *)
Abbreviation OpPtr := N (only parsing).
Definition nullptr : OpPtr := 0%N.

(** A [Value] is an operation result or a block argument (module port). *)
Inductive Value :=
| OpResult (def : OpPtr)
| BlockArgument (argNumber : Z).

Definition getDefiningOp (v : Value) : OpPtr :=
  match v with
  | OpResult p => p
  | BlockArgument _ => nullptr
  end.

Inductive Type_ :=
| IntegerType (width : Z)
| ClockType
| OtherType.

Definition noWidth : Z := -1.

(** Modelled from the spec: [hw::getBitWidth] is declared outside these
    sources; "bit_width(T) is defined for integer ... cases", and the pass
    compares its result against [noWidth] for the rest. *)
Definition getBitWidth (t : Type_) : Z :=
  match t with
  | IntegerType w => w
  | _ => noWidth
  end.

Definition isClockType (t : Type_) : bool :=
  match t with ClockType => true | _ => false end.

Record PortInfo := {
  port_name : string;
  port_isInput : bool;
  port_type : Type_;
  port_argNum : Z
}.

Inductive BinKind :=
| AddOp | SubOp | MulOp | DivUOp | DivSOp | ModSOp | ShlOp | ShrUOp | ShrSOp
| AndOp | OrOp | XorOp | ConcatOp.

Inductive ICmpPredicate :=
| p_eq | p_ne | p_slt | p_sle | p_sgt | p_sge | p_ult | p_ule | p_ugt | p_uge
| p_ceq | p_cne | p_weq | p_wne.

(** The operation kinds the walk dispatches on; every other kind is
    [OtherOp]. An assertion records its parent when that is an [sv.if]
    (the parent's address and its condition operand). *)
Inductive OpKind :=
| OutputOp
| ConstantOp (ty : Type_) (value : Z)
| WireOp (operand : Value)
| BinOp (k : BinKind) (ty : Type_) (op1 op2 : Value)
| ExtractOp (ty : Type_) (operand : Value) (lowBit : Z)
| ICmpOp (pred : ICmpPredicate) (lhs rhs : Value)
| MuxOp (ty : Type_) (c t f : Value)
| AssertOp (expression : Value) (parentIf : option (OpPtr * Value))
| AssumeOp (expression : Value)
| FirRegOp (ty : Type_) (name : string) (next : Value)
| OtherOp.

Record Operation := {
  addr : OpPtr;
  kind : OpKind
}.

(** A module: its port list and its operations in walk order. *)
Record HWModuleOp := {
  getPortList : list PortInfo;
  walk : list Operation
}.

(** ** The output stream *)

(** One fragment per [<<]: a printed integer or a printed string. *)
Inductive Frag :=
| FNum (n : Z)
| FStr (s : string).

(** One [Line] per output statement of the pass. *)
Definition Line := list Frag.

Definition render_frag (f : Frag) : string :=
  match f with
  | FNum n => pretty n
  | FStr s => s
  end.

Definition render_line (l : Line) : string :=
  foldr (fun f acc => render_frag f +:+ acc) EmptyString l.

Definition render (ls : list Line) : string :=
  foldr (fun l acc => render_line l +:+ acc) EmptyString ls.

(** ** String constants of the pass *)

Definition nl : string := String (Ascii.ascii_of_nat 10) EmptyString.

Definition sortStr : string := "sort".
Definition bitvecStr : string := "bitvecStr".
Definition inputStr : string := "input".
Definition resetStr : string := "reset".
Definition zeroStr : string := "zero".
Definition constdStr : string := "constd".
Definition sliceStr : string := "slice".
Definition addStr : string := "add".
Definition subStr : string := "sub".
Definition mulStr : string := "mul".
Definition andStr : string := "and".
Definition orStr : string := "or".
Definition xorStr : string := "xor".
Definition sllStr : string := "sll".
Definition srlStr : string := "srl".
Definition sraStr : string := "sra".
Definition sdivStr : string := "sdiv".
Definition udivStr : string := "udiv".
Definition smodStr : string := "smod".
Definition concatStr : string := "concat".
Definition notStr : string := "not".
Definition neqStr : string := "neq".
Definition hwNeqStr : string := "ne".
Definition iteStr : string := "ite".
Definition impliesStr : string := "implies".
Definition stateStr : string := "state".
Definition nextStr : string := "next".
Definition badStr : string := "bad".
Definition constraintStr : string := "constraint".
Definition wsStr : string := " ".
Definition nlStr : string := nl.
Definition bannerStr : string :=
  nl +:+ "===============================" +:+ nl +:+ nl.

Definition noLID : Z := size_t_mod - 1.

(** ** The state of the pass object *)

Record PassState := {
  lid : Z;
  resetLID : Z;
  sortToLIDMap : gmap Z Z;
  constToLIDMap : gmap (Z * Z) Z;
  opLIDMap : gmap N Z;
  opAliasMap : gmap N N;
  inputLIDs : gmap Z Z;
  regOps : list Operation;
  outs : list Line
}.

Definition initState : PassState := {|
  lid := 1;
  resetLID := noLID;
  sortToLIDMap := ∅;
  constToLIDMap := ∅;
  opLIDMap := ∅;
  opAliasMap := ∅;
  inputLIDs := ∅;
  regOps := [];
  outs := []
|}.

Definition set_lid (v : Z) (s : PassState) : PassState :=
  {| lid := v; resetLID := resetLID s; sortToLIDMap := sortToLIDMap s;
     constToLIDMap := constToLIDMap s; opLIDMap := opLIDMap s;
     opAliasMap := opAliasMap s; inputLIDs := inputLIDs s;
     regOps := regOps s; outs := outs s |}.
Definition set_resetLID (v : Z) (s : PassState) : PassState :=
  {| lid := lid s; resetLID := v; sortToLIDMap := sortToLIDMap s;
     constToLIDMap := constToLIDMap s; opLIDMap := opLIDMap s;
     opAliasMap := opAliasMap s; inputLIDs := inputLIDs s;
     regOps := regOps s; outs := outs s |}.
Definition set_sortToLIDMap (v : gmap Z Z) (s : PassState) : PassState :=
  {| lid := lid s; resetLID := resetLID s; sortToLIDMap := v;
     constToLIDMap := constToLIDMap s; opLIDMap := opLIDMap s;
     opAliasMap := opAliasMap s; inputLIDs := inputLIDs s;
     regOps := regOps s; outs := outs s |}.
Definition set_constToLIDMap (v : gmap (Z * Z) Z) (s : PassState) : PassState :=
  {| lid := lid s; resetLID := resetLID s; sortToLIDMap := sortToLIDMap s;
     constToLIDMap := v; opLIDMap := opLIDMap s;
     opAliasMap := opAliasMap s; inputLIDs := inputLIDs s;
     regOps := regOps s; outs := outs s |}.
Definition set_opLIDMap (v : gmap N Z) (s : PassState) : PassState :=
  {| lid := lid s; resetLID := resetLID s; sortToLIDMap := sortToLIDMap s;
     constToLIDMap := constToLIDMap s; opLIDMap := v;
     opAliasMap := opAliasMap s; inputLIDs := inputLIDs s;
     regOps := regOps s; outs := outs s |}.
Definition set_opAliasMap (v : gmap N N) (s : PassState) : PassState :=
  {| lid := lid s; resetLID := resetLID s; sortToLIDMap := sortToLIDMap s;
     constToLIDMap := constToLIDMap s; opLIDMap := opLIDMap s;
     opAliasMap := v; inputLIDs := inputLIDs s;
     regOps := regOps s; outs := outs s |}.
Definition set_inputLIDs (v : gmap Z Z) (s : PassState) : PassState :=
  {| lid := lid s; resetLID := resetLID s; sortToLIDMap := sortToLIDMap s;
     constToLIDMap := constToLIDMap s; opLIDMap := opLIDMap s;
     opAliasMap := opAliasMap s; inputLIDs := v;
     regOps := regOps s; outs := outs s |}.
Definition set_regOps (v : list Operation) (s : PassState) : PassState :=
  {| lid := lid s; resetLID := resetLID s; sortToLIDMap := sortToLIDMap s;
     constToLIDMap := constToLIDMap s; opLIDMap := opLIDMap s;
     opAliasMap := opAliasMap s; inputLIDs := inputLIDs s;
     regOps := v; outs := outs s |}.
Definition set_outs (v : list Line) (s : PassState) : PassState :=
  {| lid := lid s; resetLID := resetLID s; sortToLIDMap := sortToLIDMap s;
     constToLIDMap := constToLIDMap s; opLIDMap := opLIDMap s;
     opAliasMap := opAliasMap s; inputLIDs := inputLIDs s;
     regOps := regOps s; outs := v |}.

(** ** The monad of the pass: state, and abort on a failed [assert] *)

Inductive outcome (A : Type) :=
| Done (a : A)
| Aborted.
Arguments Done {A} a.
Arguments Aborted {A}.

(** The state is returned in both cases: what was printed before an abort
    stays printed. *)
Definition M (A : Type) : Type := PassState -> outcome A * PassState.

Definition ret {A} (a : A) : M A := fun s => (Done a, s).
Definition bind {A B} (m : M A) (k : A -> M B) : M B :=
  fun s => match m s with
           | (Done a, s') => k a s'
           | (Aborted, s') => (Aborted, s')
           end.
Definition abort {A} : M A := fun s => (Aborted, s).
Definition gets {A} (f : PassState -> A) : M A := fun s => (Done (f s), s).
Definition modify (f : PassState -> PassState) : M unit :=
  fun s => (Done tt, f s).
Definition assert_ (b : bool) : M unit := if b then ret tt else abort.

Notation "x <- m ;; k" := (bind m (fun x => k))
  (at level 100, m at next level, right associativity).
Notation "m ;;; k" := (bind m (fun _ => k))
  (at level 100, right associativity).

Fixpoint forM_ {A} (l : list A) (f : A -> M unit) : M unit :=
  match l with
  | [] => ret tt
  | x :: l' => f x ;;; forM_ l' f
  end.

(** [llvm::outs() << lid++ << ...]: the line starts with the current [lid],
    which is then incremented (modulo [2^64]). *)
Definition emit (rest : list Frag) : M unit :=
  fun s =>
    (Done tt,
     set_lid (to_size_t (lid s + 1))
       (set_outs (outs s ++ [FNum (lid s) :: rest]) s)).

(** A statement that prints without consuming a line identifier. *)
Definition print (l : Line) : M unit :=
  modify (fun s => set_outs (outs s ++ [l]) s).

(** ** The pass *)

Section Pass.

(** [DenseMap::at] belongs to LLVM's ADT library, not to these sources. On
    a key of the map it returns the entry. On a key that is not in the map
    the library asserts ("DenseMap::at failed due to a missing key");
    [at_missing] is what the call yields then: [None] when the assertion
    aborts the pass, [Some v] when a value [v] is read instead (the callers
    compare the result with [noLID]). Every property below is proved for
    every choice. *)
Variable at_missing : option Z.

Definition at_ `{Countable K} (m : gmap K Z) (k : K) : M Z :=
  match m !! k with
  | Some v => ret v
  | None => match at_missing with
            | Some v => ret v
            | None => abort
            end
  end.

(** *** Field helper functions *)

Definition getOpAlias (op : OpPtr) : M OpPtr :=
  s <- gets opAliasMap ;;
  match s !! op with
  | Some orig => ret orig
  | None => ret op
  end.

(** [getOpLID] on an operation pointer. *)
Definition getOpLID (op : OpPtr) : M Z :=
  defOp <- getOpAlias op ;;
  m <- gets opLIDMap ;;
  match m !! defOp with
  | Some l => ret l
  | None => ret noLID
  end.

(** [getOpLID] on a [Value]. *)
Definition getOpLID_Value (op : Value) : M Z :=
  defOp <- getOpAlias (getDefiningOp op) ;;
  m <- gets opLIDMap ;;
  match m !! defOp with
  | Some l => ret l
  | None =>
      match op with
      | BlockArgument argIdx =>
          i <- gets inputLIDs ;;
          match i !! argIdx with
          | Some l => ret l
          | None => ret noLID
          end
      | OpResult _ => ret noLID
      end
  end.

Definition setOpLID (op : OpPtr) : M unit :=
  if decide (op <> nullptr)
  then modify (fun s => set_opLIDMap (<[op := lid s]> (opLIDMap s)) s)
  else ret tt.

Definition setOpAlias (alias op : OpPtr) : M unit :=
  modify (fun s => set_opAliasMap (<[alias := op]> (opAliasMap s)) s).

(** *** String generation helper functions *)

Definition genSort (type : string) (width : Z) : M unit :=
  m <- gets sortToLIDMap ;;
  sid <- at_ m width ;;
  if decide (sid <> noLID) then ret tt
  else
    modify (fun s => set_sortToLIDMap (<[width := lid s]> (sortToLIDMap s)) s) ;;;
    emit [FStr wsStr; FStr sortStr; FStr wsStr; FStr type; FStr wsStr;
          FNum width; FStr nlStr].

(** The sort lookup and sanity check shared by the emitters:
    [size_t sid = sortToLIDMap.at(width); assert(sid != noLID);] *)
Definition sortLID (width : Z) : M Z :=
  m <- gets sortToLIDMap ;;
  sid <- at_ m width ;;
  assert_ (bool_decide (sid <> noLID)) ;;;
  ret sid.

Definition genInput (width : Z) (name : string) : M unit :=
  sid <- sortLID width ;;
  emit [FStr wsStr; FStr inputStr; FStr wsStr; FNum sid; FStr wsStr;
        FStr name; FStr nlStr].

Definition genConst (value : Z) (width : Z) (op : OpPtr) : M unit :=
  setOpLID op ;;;
  sid <- sortLID width ;;
  emit [FStr wsStr; FStr constdStr; FStr wsStr; FNum sid; FStr wsStr;
        FNum value; FStr nlStr].

Definition genZero (width : Z) : M unit :=
  c <- gets constToLIDMap ;;
  z <- at_ c (0, width) ;;
  if decide (z <> noLID) then ret tt
  else
    sid <- sortLID width ;;
    modify (fun s =>
      set_constToLIDMap (<[(0, width) := lid s]> (constToLIDMap s)) s) ;;;
    emit [FStr wsStr; FStr zeroStr; FStr wsStr; FNum sid; FStr nlStr].

Definition genBinOp (inst : string) (binop : OpPtr) (op1 op2 : Value)
    (width : Z) : M unit :=
  setOpLID binop ;;;
  sid <- sortLID width ;;
  op1LID <- getOpLID_Value op1 ;;
  op2LID <- getOpLID_Value op2 ;;
  emit [FStr wsStr; FStr inst; FStr wsStr; FNum sid; FStr wsStr;
        FNum op1LID; FStr wsStr; FNum op2LID; FStr nlStr].

(** [width] is an [int64_t] here; it indexes the sort table as a [size_t]. *)
Definition genSlice (srcop : OpPtr) (op0 : Value) (lowbit : Z) (width : Z)
    : M unit :=
  setOpLID srcop ;;;
  sid <- sortLID (to_size_t width) ;;
  op0LID <- getOpLID_Value op0 ;;
  emit [FStr wsStr; FStr sliceStr; FStr wsStr; FNum sid; FStr wsStr;
        FNum op0LID; FStr wsStr; FNum (to_int64 (width - 1)); FStr wsStr;
        FNum lowbit; FStr nlStr].

(** [genUnaryOp] with the operand given as an operation pointer. *)
Definition genUnaryOp (srcop op0 : OpPtr) (inst : string) (width : Z)
    : M unit :=
  setOpLID srcop ;;;
  sid <- sortLID width ;;
  op0LID <- getOpLID op0 ;;
  emit [FStr wsStr; FStr inst; FStr wsStr; FNum sid; FStr wsStr;
        FNum op0LID; FStr nlStr].

(** [genUnaryOp] with the operand given as a [Value]. *)
Definition genUnaryOp_Value (srcop : OpPtr) (op0 : Value) (inst : string)
    (width : Z) : M unit :=
  genUnaryOp srcop (getDefiningOp op0) inst width.

Definition genBad (assertop : OpPtr) : M unit :=
  assertLID <- getOpLID assertop ;;
  emit [FStr wsStr; FStr badStr; FStr wsStr; FNum assertLID; FStr nlStr].

Definition genConstraint (expr : Value) : M unit :=
  exprLID <- getOpLID_Value expr ;;
  emit [FStr wsStr; FStr constraintStr; FStr wsStr; FNum exprLID;
        FStr nlStr].

(** [genIte] with operands given as [Value]s. *)
Definition genIte_Value (srcop : OpPtr) (cond t f : Value) (width : Z)
    : M unit :=
  setOpLID srcop ;;;
  sid <- sortLID (to_size_t width) ;;
  condLID <- getOpLID_Value cond ;;
  tLID <- getOpLID_Value t ;;
  fLID <- getOpLID_Value f ;;
  emit [FStr wsStr; FStr iteStr; FStr wsStr; FNum sid; FStr wsStr;
        FNum condLID; FStr wsStr; FNum tLID; FStr wsStr; FNum fLID;
        FStr nlStr].

(** [genIte] with operands given as line identifiers. *)
Definition genIte (srcop : OpPtr) (condLID tLID fLID : Z) (width : Z)
    : M unit :=
  setOpLID srcop ;;;
  sid <- sortLID (to_size_t width) ;;
  emit [FStr wsStr; FStr iteStr; FStr wsStr; FNum sid; FStr wsStr;
        FNum condLID; FStr wsStr; FNum tLID; FStr wsStr; FNum fLID;
        FStr nlStr].

(** [genImplies] with operands given as [Value]s. *)
Definition genImplies (srcop : OpPtr) (lhs rhs : Value) : M unit :=
  setOpLID srcop ;;;
  sid <- sortLID 1 ;;
  lhsLID <- getOpLID_Value lhs ;;
  rhsLID <- getOpLID_Value rhs ;;
  emit [FStr wsStr; FStr impliesStr; FStr wsStr; FNum sid; FStr wsStr;
        FNum lhsLID; FStr wsStr; FNum rhsLID; FStr nlStr].

Definition genState (srcop : OpPtr) (width : Z) (name : string) : M unit :=
  setOpLID srcop ;;;
  sid <- sortLID (to_size_t width) ;;
  emit [FStr wsStr; FStr stateStr; FStr wsStr; FNum sid; FStr wsStr;
        FStr name; FStr nlStr].

Definition genNext (next reg : OpPtr) (width : Z) : M unit :=
  sid <- sortLID (to_size_t width) ;;
  regLID <- getOpLID reg ;;
  nextLID <- getOpLID next ;;
  emit [FStr wsStr; FStr nextStr; FStr wsStr; FNum sid; FStr wsStr;
        FNum regLID; FStr wsStr; FNum nextLID; FStr nlStr].

Definition requireSort (type : Type_) : M Z :=
  let width := getBitWidth type in
  assert_ (bool_decide (width <> noWidth)) ;;;
  genSort bitvecStr (to_size_t width) ;;;
  ret width.

(** *** Visitor methods *)

(** [visit(hw::PortInfo &)] *)
Definition visit_port (port : PortInfo) : M unit :=
  if port_isInput port && negb (isClockType (port_type port)) then
    let iName := port_name port in
    w <- requireSort (port_type port) ;;
    modify (fun s =>
      set_inputLIDs (<[port_argNum port := lid s]> (inputLIDs s)) s) ;;;
    (if decide (iName = resetStr)
     then modify (fun s => set_resetLID (lid s) s)
     else ret tt) ;;;
    genInput (to_size_t w) iName
  else ret tt.

Definition binInst (k : BinKind) : string :=
  match k with
  | AddOp => addStr | SubOp => subStr | MulOp => mulStr
  | DivSOp => sdivStr | DivUOp => udivStr | ModSOp => smodStr
  | ShlOp => sllStr | ShrUOp => srlStr | ShrSOp => sraStr
  | AndOp => andStr | OrOp => orStr | XorOp => xorStr
  | ConcatOp => concatStr
  end.

(** Modelled from the spec: [stringifyICmpPredicate] is generated from the
    dialect definition and is not among these sources; the predicate
    prints under its own name ("[<pred>] ... remap [ne] to [neq]"). *)
Definition stringifyICmpPredicate (p : ICmpPredicate) : string :=
  match p with
  | p_eq => "eq" | p_ne => "ne" | p_slt => "slt" | p_sle => "sle"
  | p_sgt => "sgt" | p_sge => "sge" | p_ult => "ult" | p_ule => "ule"
  | p_ugt => "ugt" | p_uge => "uge" | p_ceq => "ceq" | p_cne => "cne"
  | p_weq => "weq" | p_wne => "wne"
  end.

(** The type switch of the module walk together with the [visit] overload
    it selects. *)
Definition visit (o : Operation) : M unit :=
  let op := addr o in
  match kind o with
  | OutputOp => ret tt
  | ConstantOp ty value =>
      w <- requireSort ty ;;
      genConst value (to_size_t w) op
  | WireOp operand =>
      let defOp := getDefiningOp operand in
      setOpAlias op defOp
  | BinOp k ty op1 op2 =>
      w <- requireSort ty ;;
      genBinOp (binInst k) op op1 op2 (to_size_t w)
  | ExtractOp ty op0 lb =>
      w <- requireSort ty ;;
      genSlice op op0 lb w
  | ICmpOp p lhs rhs =>
      let pred := stringifyICmpPredicate p in
      let pred := if decide (pred = hwNeqStr) then neqStr else pred in
      genSort bitvecStr 1 ;;;
      genBinOp pred op lhs rhs 1
  | MuxOp ty pred tval fval =>
      w <- requireSort ty ;;
      genIte_Value op pred tval fval w
  | AssertOp expr parentIf =>
      genSort bitvecStr 1 ;;;
      match parentIf with
      | Some (ifop, en) =>
          genImplies ifop en expr ;;;
          genUnaryOp op ifop notStr 1
      | None =>
          genUnaryOp_Value op expr notStr 1
      end ;;;
      genBad op
  | AssumeOp expr => genConstraint expr
  | FirRegOp ty regName _ =>
      w <- requireSort ty ;;
      genState op w regName ;;;
      modify (fun s => set_regOps (regOps s ++ [o]) s)
  | OtherOp => ret tt
  end.

(** *** The phases of [runOnOperation] *)

Definition portsPhase (module : HWModuleOp) : M unit :=
  forM_ (getPortList module) visit_port.

Definition bodyPhase (module : HWModuleOp) : M unit :=
  forM_ (walk module) visit.

(** The body of the loop over [regOps]. *)
Definition genRegTransition (r : Operation) : M unit :=
  match kind r with
  | FirRegOp ty _ nextV =>
      let reg := addr r in
      let next := getDefiningOp nextV in
      let width := to_size_t (getBitWidth ty) in
      genSort bitvecStr width ;;;
      genZero width ;;;
      nextLID <- getOpLID next ;;
      rst <- gets resetLID ;;
      c <- gets constToLIDMap ;;
      zeroLID <- at_ c (0, width) ;;
      genIte next rst zeroLID nextLID (to_int64 width) ;;;
      genNext next reg (to_int64 width)
  | _ => ret tt
  end.

Definition registerTransitionPhase : M unit :=
  regs <- gets regOps ;;
  forM_ regs genRegTransition.

Definition runOnModule (module : HWModuleOp) : M unit :=
  portsPhase module ;;;
  bodyPhase module ;;;
  registerTransitionPhase ;;;
  print [FStr bannerStr].

Definition runOnOperation (modules : list HWModuleOp) : M unit :=
  forM_ modules runOnModule.

End Pass.

(** ** Sample modules *)

(** Inputs [a], [b] (1 bit), [and a b], [assert(and)]. *)
Definition singleAnd : HWModuleOp := {|
  getPortList :=
    [ {| port_name := "a"; port_isInput := true;
         port_type := IntegerType 1; port_argNum := 0 |};
      {| port_name := "b"; port_isInput := true;
         port_type := IntegerType 1; port_argNum := 1 |} ];
  walk :=
    [ {| addr := 1%N;
         kind := BinOp AndOp (IntegerType 1) (BlockArgument 0)
                   (BlockArgument 1) |};
      {| addr := 2%N; kind := AssertOp (OpResult 1%N) None |} ]
|}.

(** Clock, [reset] and an 8-bit register [r] with next value [add r 1]. *)
Definition counter8 : HWModuleOp := {|
  getPortList :=
    [ {| port_name := "clk"; port_isInput := true;
         port_type := ClockType; port_argNum := 0 |};
      {| port_name := "reset"; port_isInput := true;
         port_type := IntegerType 1; port_argNum := 1 |} ];
  walk :=
    [ {| addr := 1%N;
         kind := FirRegOp (IntegerType 8) "r" (OpResult 3%N) |};
      {| addr := 2%N; kind := ConstantOp (IntegerType 8) 1 |};
      {| addr := 3%N;
         kind := BinOp AddOp (IntegerType 8) (OpResult 1%N) (OpResult 2%N) |} ]
|}.

(** Inputs [a], [b], [w1 = wire(and a b)], [w2 = wire(w1)], [assert(w2)]. *)
Definition wireChain : HWModuleOp := {|
  getPortList :=
    [ {| port_name := "a"; port_isInput := true;
         port_type := IntegerType 1; port_argNum := 0 |};
      {| port_name := "b"; port_isInput := true;
         port_type := IntegerType 1; port_argNum := 1 |} ];
  walk :=
    [ {| addr := 1%N;
         kind := BinOp AndOp (IntegerType 1) (BlockArgument 0)
                   (BlockArgument 1) |};
      {| addr := 2%N; kind := WireOp (OpResult 1%N) |};
      {| addr := 3%N; kind := WireOp (OpResult 2%N) |};
      {| addr := 4%N; kind := AssertOp (OpResult 3%N) None |} ]
|}.

(** Clock, [reset], an 8-bit input [in] and a register [r] whose next value
    is the port [in] itself. *)
Definition regOfPort : HWModuleOp := {|
  getPortList :=
    [ {| port_name := "clk"; port_isInput := true;
         port_type := ClockType; port_argNum := 0 |};
      {| port_name := "reset"; port_isInput := true;
         port_type := IntegerType 1; port_argNum := 1 |};
      {| port_name := "in"; port_isInput := true;
         port_type := IntegerType 8; port_argNum := 2 |} ];
  walk :=
    [ {| addr := 1%N;
         kind := FirRegOp (IntegerType 8) "r" (BlockArgument 2) |} ]
|}.

(** As [counter8], without a [reset] port. *)
Definition counter8NoReset : HWModuleOp := {|
  getPortList :=
    [ {| port_name := "clk"; port_isInput := true;
         port_type := ClockType; port_argNum := 0 |};
      {| port_name := "en"; port_isInput := true;
         port_type := IntegerType 1; port_argNum := 1 |} ];
  walk := walk counter8
|}.

(** A second module with its own 8-bit register, at other addresses. *)
Definition counter8' : HWModuleOp := {|
  getPortList := getPortList counter8;
  walk :=
    [ {| addr := 11%N;
         kind := FirRegOp (IntegerType 8) "q" (OpResult 13%N) |};
      {| addr := 12%N; kind := ConstantOp (IntegerType 8) 1 |};
      {| addr := 13%N;
         kind := BinOp AddOp (IntegerType 8) (OpResult 11%N)
                   (OpResult 12%N) |} ]
|}.

(** ** Reading the stream back *)

(** The integer a line starts with; the banner has none. *)
Definition leading (l : Line) : option Z :=
  match l with
  | FNum n :: _ => Some n
  | _ => None
  end.

Definition leading_lids (ls : list Line) : list Z := omap leading ls.

(** The line [<lid> sort <type> <width>]. *)
Definition sortLine (l : Z) (type : string) (width : Z) : Line :=
  [FNum l; FStr wsStr; FStr sortStr; FStr wsStr; FStr type; FStr wsStr;
   FNum width; FStr nlStr].

(** The line [<lid> ite <sid> <cond> <then> <else>]. *)
Definition iteLine (l sid c t f : Z) : Line :=
  [FNum l; FStr wsStr; FStr iteStr; FStr wsStr; FNum sid; FStr wsStr;
   FNum c; FStr wsStr; FNum t; FStr wsStr; FNum f; FStr nlStr].

(** The line [<lid> next <sid> <state> <value>]. *)
Definition nextLine (l sid reg next : Z) : Line :=
  [FNum l; FStr wsStr; FStr nextStr; FStr wsStr; FNum sid; FStr wsStr;
   FNum reg; FStr wsStr; FNum next; FStr nlStr].

(** The line [<lid> zero <sid>]. *)
Definition zeroLine (l sid : Z) : Line :=
  [FNum l; FStr wsStr; FStr zeroStr; FStr wsStr; FNum sid; FStr nlStr].

Definition lid_ok (s : PassState) : Prop := 0 <= lid s < size_t_mod.

(** The [n] identifiers handed out from counter value [l0] on. *)
Definition lids_from (l0 : Z) (n : nat) : list Z :=
  map (fun i => to_size_t (l0 + Z.of_nat i)) (seq 0 n).

(** From [s] to [s'] lines were only appended, and the numbered ones carry
    the consecutive identifiers the counter advanced by. *)
Definition numbered (s s' : PassState) : Prop :=
  lid_ok s ->
  lid_ok s' /\
  exists new,
    outs s' = outs s ++ new /\
    leading_lids new = lids_from (lid s) (length (leading_lids new)) /\
    lid s' = to_size_t (lid s + Z.of_nat (length (leading_lids new))).

(** The lookup as the specification words it: "follow [alias] to a
    fixpoint, then look up [op_lid]; if not found and the value is a block
    argument, look up [input_lid[arg_index]]; otherwise undefined
    (implementation must assert)". [resolve] follows the alias map for as
    many steps as it has entries, which reaches the fixpoint of an acyclic
    map. *)
Fixpoint resolve (fuel : nat) (alias : gmap N N) (op : OpPtr) : OpPtr :=
  match fuel with
  | O => op
  | S fuel' =>
      match alias !! op with
      | Some orig => resolve fuel' alias orig
      | None => op
      end
  end.

Definition lookup_lid_spec (v : Value) : M Z :=
  fun s =>
    let defOp :=
      resolve (size (opAliasMap s)) (opAliasMap s) (getDefiningOp v) in
    match opLIDMap s !! defOp with
    | Some l => (Done l, s)
    | None =>
        match v with
        | BlockArgument argIdx =>
            match inputLIDs s !! argIdx with
            | Some l => (Done l, s)
            | None => (Aborted, s)
            end
        | OpResult _ => (Aborted, s)
        end
    end.

(** The state with the aliases [3 -> 2 -> 1] of two chained wires and the
    line [4] recorded for operation [1]. *)
Definition chainState : PassState :=
  set_opAliasMap (<[3%N := 2%N]> (<[2%N := 1%N]> ∅))
    (set_opLIDMap (<[1%N := 4]> ∅) (set_lid 5 initState)).

(** A width (resp. the zero of a width) is recorded with a real line. *)
Definition sortRecorded (s : PassState) (w : Z) : Prop :=
  exists sid, sortToLIDMap s !! w = Some sid /\ sid <> noLID.
Definition zeroRecorded (s : PassState) (w : Z) : Prop :=
  exists z, constToLIDMap s !! (0, w) = Some z /\ z <> noLID.


(** From [s] to [s']: recorded sorts and zeros keep their line, the list
    of registers is only extended, lines are only appended, and no sort
    line is printed for a width that was recorded in [s]. *)
Definition persists (s s' : PassState) : Prop :=
  (forall w, sortRecorded s w -> sortToLIDMap s' !! w = sortToLIDMap s !! w) /\
  (forall w, zeroRecorded s w ->
             constToLIDMap s' !! (0, w) = constToLIDMap s !! (0, w)) /\
  (exists later, regOps s' = regOps s ++ later) /\
  (exists new,
     outs s' = outs s ++ new /\
     forall n ty w, sortLine n ty w ∈ new -> ~ sortRecorded s w).

(** From [s] to [s'] the reset line is unchanged and every [ite] line
    appended has it as its condition. *)
Definition resetEncoded (s s' : PassState) : Prop :=
  resetLID s' = resetLID s /\
  exists new,
    outs s' = outs s ++ new /\
    forall n sid c t f, iteLine n sid c t f ∈ new -> c = resetLID s.

(** No non-clock input port is named [reset]. *)
Definition noResetPort (m : HWModuleOp) : Prop :=
  forall p, p ∈ getPortList m ->
            port_isInput p = true -> port_name p <> resetStr.

(** ** Relations and states used to state what the pass keeps *)

(** A relation [R] between the state before and the state after holds of
    every run of [m], whatever its outcome. *)
Definition respects (R : PassState -> PassState -> Prop) {A} (m : M A)
    : Prop :=
  forall s, R s (snd (m s)).

(** The state after [genSort] has emitted a new sort, and after [genZero]
    has emitted a new zero. *)
Definition afterSort (ty : string) (w : Z) (s : PassState) : PassState :=
  set_lid (to_size_t (lid s + 1))
    (set_outs (outs s ++ [sortLine (lid s) ty w])
       (set_sortToLIDMap (<[w := lid s]> (sortToLIDMap s)) s)).

Definition afterZero (sid w : Z) (s : PassState) : PassState :=
  set_lid (to_size_t (lid s + 1))
    (set_outs (outs s ++ [zeroLine (lid s) sid])
       (set_constToLIDMap (<[(0, w) := lid s]> (constToLIDMap s)) s)).

(** The lines that are not sort lines. *)
Definition notSort (rest : list Frag) : Prop :=
  forall n n' ty w, FNum n :: rest <> sortLine n' ty w.

(** The reset line is only set by an input port named [reset]. *)
Definition sameReset (s s' : PassState) : Prop := resetLID s' = resetLID s.

(** ** Predicates on the stream and on the state *)

(** The numbers among the fragments of a line. *)
Definition numbersOf (fs : list Frag) : list Z :=
  omap (fun f => match f with FNum n => Some n | FStr _ => None end) fs.

(** The line identifiers a line refers to: the numbers after its keyword,
    but for the width of a [sort] line, the value of a [constd] line and the
    two bit positions of a [slice] line. *)
Definition lineOperands (l : Line) : list Z :=
  match l with
  | FNum _ :: FStr _ :: FStr kw :: rest =>
      if decide (kw = sortStr) then []
      else if decide (kw = constdStr) then take 1 (numbersOf rest)
      else if decide (kw = sliceStr) then take 2 (numbersOf rest)
      else numbersOf rest
  | _ => []
  end.

(** An identifier that may be printed in state [s]: the sentinel, the
    identifier of the next line, or that of a line already printed. *)
Definition known (s : PassState) (v : Z) : Prop :=
  v = noLID \/ v = lid s \/ v ∈ leading_lids (outs s).

(** Every identifier a line refers to is the sentinel or the identifier of
    that line or of a line before it. *)
Definition refsClosed (ls : list Line) : Prop :=
  forall i l v,
    ls !! i = Some l -> v ∈ lineOperands l ->
    v = noLID \/ v ∈ leading_lids (take (S i) ls).

(** The tables of the pass only hold identifiers that may be printed. *)
Definition tablesKnown (s : PassState) : Prop :=
  (forall w v, sortToLIDMap s !! w = Some v -> known s v) /\
  (forall c v, constToLIDMap s !! c = Some v -> known s v) /\
  (forall o v, opLIDMap s !! o = Some v -> known s v) /\
  (forall i v, inputLIDs s !! i = Some v -> known s v) /\
  known s (resetLID s).

Definition refsInv (s : PassState) : Prop :=
  tablesKnown s /\ refsClosed (outs s).

(** [m], run with the identifiers [vs] at hand, keeps [refsInv], forgets no
    identifier, and the identifiers [Q a] of its result may be printed. *)
Definition keeps (vs : list Z) {A} (m : M A) (Q : A -> list Z) : Prop :=
  forall s,
    refsInv s -> Forall (known s) vs ->
    refsInv (snd (m s)) /\
    (forall v, known s v -> known (snd (m s)) v) /\
    (forall a, fst (m s) = Done a -> Forall (known (snd (m s))) (Q a)).

(** The width a sort line declares. *)
Definition sortWidth (l : Line) : option Z :=
  match l with
  | [FNum _; FStr _; FStr kw; FStr _; FStr _; FStr _; FNum w; FStr _] =>
      if decide (kw = sortStr) then Some w else None
  | _ => None
  end.

Definition sortWidths (ls : list Line) : list Z := omap sortWidth ls.

(** From [s] to [s']: lines were appended; the widths recorded in [s] keep
    their sort; and, when no appended line carries the sentinel as its
    identifier, the appended sort lines declare pairwise different widths,
    none of them recorded in [s], all of them recorded in [s']. *)
Definition sortsOnce (s s' : PassState) : Prop :=
  exists new,
    outs s' = outs s ++ new /\
    (forall w, sortRecorded s w ->
               sortToLIDMap s' !! w = sortToLIDMap s !! w) /\
    ((forall l, l ∈ new -> leading l <> Some noLID) ->
     NoDup (sortWidths new) /\
     forall w, w ∈ sortWidths new ->
               ~ sortRecorded s w /\ sortRecorded s' w).

(** The lines that declare no sort. *)
Definition noSort (rest : list Frag) : Prop :=
  forall n, sortWidth (FNum n :: rest) = None.

(** A property of the state that a piece of the pass keeps, whatever its
    outcome. *)
Definition invariant (Inv : PassState -> Prop) {A} (m : M A) : Prop :=
  forall s, Inv s -> Inv (snd (m s)).

(** The null operation has no line and no alias. *)
Definition nullFree (s : PassState) : Prop :=
  opLIDMap s !! nullptr = None /\ opAliasMap s !! nullptr = None.

(** The operations of a module are real operations: none sits at the null
    address. *)
Definition wellAddressed (m : HWModuleOp) : Prop :=
  forall o, o ∈ walk m -> addr o <> nullptr.

(** A piece of the pass that prints exactly one numbered line, or aborts
    before it has changed anything. *)
Definition emitsOne (m : M unit) : Prop :=
  forall s, m s = (Aborted, s) \/ exists rest, m s = emit rest s.

(** A piece of the pass that only reads the state. *)
Definition readsOnly {A} (m : M A) : Prop :=
  forall s, exists r, m s = (r, s).

(** The operations whose visitor records a line for their result. *)
Definition definesLine (k : OpKind) : bool :=
  match k with
  | ConstantOp _ _ | BinOp _ _ _ _ | ExtractOp _ _ _ | ICmpOp _ _ _
  | MuxOp _ _ _ _ | FirRegOp _ _ _ => true
  | _ => false
  end.

(** The line [<lid> <inst> <sid> <operand>] of a unary instruction and the
    line [<lid> bad <operand>]. *)
Definition unaryLine (l : Z) (inst : string) (sid e : Z) : Line :=
  [FNum l; FStr wsStr; FStr inst; FStr wsStr; FNum sid; FStr wsStr; FNum e;
   FStr nlStr].
Definition badLine (l e : Z) : Line :=
  [FNum l; FStr wsStr; FStr badStr; FStr wsStr; FNum e; FStr nlStr].
Definition impliesLine (l sid lhs rhs : Z) : Line :=
  [FNum l; FStr wsStr; FStr impliesStr; FStr wsStr; FNum sid; FStr wsStr;
   FNum lhs; FStr wsStr; FNum rhs; FStr nlStr].

(** The line [<lid> input <sid> <name>]. *)
Definition inputLine (l sid : Z) (name : string) : Line :=
  [FNum l; FStr wsStr; FStr inputStr; FStr wsStr; FNum sid; FStr wsStr;
   FStr name; FStr nlStr].

(** The type a visitor requires a sort for. *)
Definition requiredType (k : OpKind) : option Type_ :=
  match k with
  | ConstantOp ty _ | BinOp _ ty _ _ | ExtractOp ty _ _ | MuxOp ty _ _ _
  | FirRegOp ty _ _ => Some ty
  | _ => None
  end.

Definition isFirRegOp (o : Operation) : bool :=
  match kind o with FirRegOp _ _ _ => true | _ => false end.

(** An input port that is not a clock. *)
Definition isDataInput (p : PortInfo) : bool :=
  port_isInput p && negb (isClockType (port_type p)).

(** The sort a line names: the first number after the keyword, for every
    instruction but [sort], [bad] and [constraint], which name none. *)
Definition sortOperand (l : Line) : option Z :=
  match l with
  | FNum _ :: FStr _ :: FStr kw :: rest =>
      if decide (kw = sortStr) then None
      else if decide (kw = badStr) then None
      else if decide (kw = constraintStr) then None
      else head (numbersOf rest)
  | _ => None
  end.

(** [v] is the identifier of a sort line among [ls]. *)
Definition sortDeclared (ls : list Line) (v : Z) : Prop :=
  exists ty w, sortLine v ty w ∈ ls.

(** Every sort a line names is declared by a sort line before it. *)
Definition sortsDeclared (ls : list Line) : Prop :=
  forall i l sid,
    ls !! i = Some l -> sortOperand l = Some sid ->
    sortDeclared (take i ls) sid.

(** The sort table only holds the sentinel and declared sorts. *)
Definition sortTableDeclared (s : PassState) : Prop :=
  forall w v, sortToLIDMap s !! w = Some v -> v <> noLID ->
              sortDeclared (outs s) v.

Definition sortsInv (s : PassState) : Prop :=
  sortTableDeclared s /\ sortsDeclared (outs s).

Definition keepsSorts (vs : list Z) {A} (m : M A) (Q : A -> list Z) : Prop :=
  forall s,
    sortsInv s -> Forall (sortDeclared (outs s)) vs ->
    sortsInv (snd (m s)) /\
    (exists new, outs (snd (m s)) = outs s ++ new) /\
    (forall a, fst (m s) = Done a ->
               Forall (sortDeclared (outs (snd (m s)))) (Q a)).

(** ** Sample operations and states *)

(** The operations of [singleAnd], an assertion under an [sv.if] on port
    [a], an assertion on port [a] itself, the register of [counter8]. *)
Definition andOp : Operation :=
  {| addr := 1%N;
     kind := BinOp AndOp (IntegerType 1) (BlockArgument 0)
               (BlockArgument 1) |}.
Definition assertOp : Operation :=
  {| addr := 2%N; kind := AssertOp (OpResult 1%N) None |}.
Definition assertUnderIf : Operation :=
  {| addr := 2%N;
     kind := AssertOp (OpResult 1%N) (Some (5%N, BlockArgument 0)) |}.
Definition assertPort : Operation :=
  {| addr := 2%N; kind := AssertOp (BlockArgument 0) None |}.
Definition counterReg : Operation :=
  {| addr := 1%N; kind := FirRegOp (IntegerType 8) "r" (OpResult 3%N) |}.

(** A module whose only operation is a constant of a type without a bit
    width. *)
Definition widthlessConst : Operation :=
  {| addr := 1%N; kind := ConstantOp OtherType 0 |}.
Definition widthlessModule : HWModuleOp :=
  {| getPortList := []; walk := [widthlessConst] |}.

(** The state after the ports of [singleAnd], and after its [and]. *)
Definition afterPorts : PassState :=
  snd (portsPhase (Some noLID) singleAnd initState).
Definition afterAnd : PassState :=
  snd (visit (Some noLID) andOp afterPorts).

(** The state after the ports and the body of [counter8]. *)
Definition afterCounterBody : PassState :=
  snd ((portsPhase (Some noLID) counter8 ;;; bodyPhase (Some noLID) counter8)
         initState).

(** The line [<lid> constraint <operand>] and the line
    [<lid> slice <sid> <operand> <upper> <lower>]. *)
Definition constraintLine (l e : Z) : Line :=
  [FNum l; FStr wsStr; FStr constraintStr; FStr wsStr; FNum e; FStr nlStr].
Definition sliceLine (l sid e upper lower : Z) : Line :=
  [FNum l; FStr wsStr; FStr sliceStr; FStr wsStr; FNum sid; FStr wsStr;
   FNum e; FStr wsStr; FNum upper; FStr wsStr; FNum lower; FStr nlStr].

(** An assumption on port [a] of [singleAnd], and the extraction of bits
    4 to 7 of an 8-bit port. *)
Definition assumePort : Operation :=
  {| addr := 3%N; kind := AssumeOp (BlockArgument 0) |}.
Definition extractHigh : Operation :=
  {| addr := 1%N; kind := ExtractOp (IntegerType 4) (BlockArgument 2) 4 |}.

(** ** Runs of the pass: what is recorded and what is kept *)

(** The state of a pass that has recorded nothing: its tables are empty,
    no register is recorded, the reset line is the sentinel, and all it
    has printed are banners and [constraint] lines on the sentinel. *)
Definition nothingRecorded (s : PassState) : Prop :=
  sortToLIDMap s = ∅ /\ constToLIDMap s = ∅ /\ opLIDMap s = ∅ /\
  inputLIDs s = ∅ /\ regOps s = [] /\ resetLID s = noLID /\
  forall l, l ∈ outs s ->
    l = [FStr bannerStr] \/ exists n, l = constraintLine n noLID.

(** The reset sentinel of a module [m] walked in the state [s]: the
    reset line is the sentinel before the module, after
    its ports and body ([sb]) and at its end ([s']); every [ite] line
    printed after the body has the sentinel as its condition; and, as
    long as the stream has fewer than [2^64 - 1] lines, no line carries
    the sentinel as its identifier. *)
Definition sentinelReset (at_missing : option Z) (s : PassState)
    (m : HWModuleOp) : Prop :=
  let sb := snd ((portsPhase at_missing m ;;; bodyPhase at_missing m) s) in
  let s' := snd (runOnModule at_missing m s) in
  resetLID s = noLID /\
  resetLID sb = noLID /\
  resetLID s' = noLID /\
  (exists new,
     outs s' = outs sb ++ new /\
     forall n sid c t f, iteLine n sid c t f ∈ new -> c = noLID) /\
  (Z.of_nat (length (outs s')) < noLID ->
   forall l, l ∈ outs s' -> leading l <> Some noLID).

(** From [s] to [s'] no table has lost a key: what had a sort, a constant,
    a line, an alias or an input line still has one. *)
Definition tablesGrow (s s' : PassState) : Prop :=
  (forall w, is_Some (sortToLIDMap s !! w) ->
             is_Some (sortToLIDMap s' !! w)) /\
  (forall c, is_Some (constToLIDMap s !! c) ->
             is_Some (constToLIDMap s' !! c)) /\
  (forall o, is_Some (opLIDMap s !! o) -> is_Some (opLIDMap s' !! o)) /\
  (forall a, is_Some (opAliasMap s !! a) -> is_Some (opAliasMap s' !! a)) /\
  (forall i, is_Some (inputLIDs s !! i) -> is_Some (inputLIDs s' !! i)).

(** The register of [regOfPort]. *)
Definition portReg : Operation :=
  {| addr := 1%N; kind := FirRegOp (IntegerType 8) "r" (BlockArgument 2) |}.

(** The state after the ports and the body of [regOfPort]. *)
Definition afterPortRegBody : PassState :=
  snd ((portsPhase (Some noLID) regOfPort ;;;
        bodyPhase (Some noLID) regOfPort) initState).

End BTOR2.
(** * The LTL-to-Core lowering *)

Module LTLToCore.

(** ** The IR view used by the conversion patterns *)

Inductive Type_ :=
| IntegerType (width : Z)
| ClockType
| PropertyType
| SequenceType
| OtherType.

#[export] Instance Type_eq_dec : EqDecision Type_.
Proof. solve_decision. Defined.

Definition isSignlessInteger (w : Z) (t : Type_) : bool :=
  match t with
  | IntegerType w' => bool_decide (w' = w)
  | _ => false
  end.

Definition isIntegerType (t : Type_) : bool :=
  match t with IntegerType _ => true | _ => false end.

(** Modelled from the spec: [hw::getBitWidth] is declared outside these
    sources ("[bit_width(T)] is defined for integer ... cases"). *)
Definition getBitWidth (t : Type_) : Z :=
  match t with
  | IntegerType w => w
  | _ => -1
  end.

(** A [Value] carries its type; a default-constructed [Value] is null. An
    operation is named by its address. *)
Inductive Value :=
| NullValue
| OpResult (owner : N) (ty : Type_)
| BlockArgument (argNumber : N) (ty : Type_).

#[export] Instance Value_eq_dec : EqDecision Value.
Proof. solve_decision. Defined.

Definition getType (v : Value) : Type_ :=
  match v with
  | NullValue => OtherType
  | OpResult _ ty => ty
  | BlockArgument _ ty => ty
  end.

Definition getDefiningOp (v : Value) : option N :=
  match v with
  | OpResult owner _ => Some owner
  | _ => None
  end.

Inductive ClockEdge := Pos | Neg | Both.
Inductive EventControl := AtPosEdge | AtNegEdge | AtEdge.

Definition ltlToSVEventControl (ce : ClockEdge) : EventControl :=
  match ce with
  | Pos => AtPosEdge
  | Neg => AtNegEdge
  | Both => AtEdge
  end.

(** The operations of the input the patterns look at: [ltl.clock] (operands
    input, clock), [ltl.disable] (input, condition), [ltl.implication]
    (antecedent, consequent), [ltl.concat], [ltl.delay] (operand input;
    attributes delay and optional length), [hw.constant]. *)
Inductive OpKind :=
| ClockOp (edge : ClockEdge)
| DisableOp
| ImplicationOp
| ConcatOp
| DelayOp (delay : Z) (length : option Z)
| HWConstantOp (value : Z)
| OtherOp.

Record Operation := {
  kind : OpKind;
  operands : list Value
}.

Definition getOperand (o : Operation) (i : nat) : Value :=
  nth i (operands o) NullValue.

(** ** The operations the patterns create *)

Inductive ICmpPredicate := ICmp_eq | ICmp_ult.

Inductive CoreOp :=
| Constant (ty : Type_) (value : Z)
| Or (a b : Value)
| Xor (a b : Value)
| And (a b : Value)
| Add (a b : Value)
| ICmp (pred : ICmpPredicate) (a b : Value)
| Mux (c t f : Value)
| ToClock (v : Value)
| CompReg (input clk reset resetValue : Value) (name : string)
    (initialValue : Value)
| Placeholder (ty : Type_)
| Always (event : EventControl) (clock : Value)
| SVAssert (expression : Value) (label : option string) (parent : N).

Definition resultType (op : CoreOp) : Type_ :=
  match op with
  | Constant ty _ => ty
  | Or a _ | Xor a _ | And a _ | Add a _ => getType a
  | ICmp _ _ _ => IntegerType 1
  | Mux _ t _ => getType t
  | ToClock _ => ClockType
  | CompReg input _ _ _ _ _ => getType input
  | Placeholder ty => ty
  | Always _ _ | SVAssert _ _ _ => OtherType
  end.

(** ** The rewriter *)

(** What a pattern can do to the IR: create operations (in this order),
    replace the results of an operation by a value, erase an operation.
    The operations created are named by consecutive addresses from
    [firstId] on, beyond those of the input. *)
Record Rewriter := {
  firstId : N;
  created : list CoreOp;
  replaced : list (N * Value);
  erased : list N
}.

Definition nextId (rw : Rewriter) : N :=
  (firstId rw + N.of_nat (length (created rw)))%N.

Inductive LogicalResult :=
| success
| failure (at_op : option N) (diagnostic : string).

Definition R (A : Type) : Type := Rewriter -> A * Rewriter.

Definition ret {A} (a : A) : R A := fun rw => (a, rw).
Definition bind {A B} (m : R A) (k : A -> R B) : R B :=
  fun rw => let '(a, rw') := m rw in k a rw'.

Notation "x <- m ;; k" := (bind m (fun x => k))
  (at level 100, m at next level, right associativity).
Notation "m ;;; k" := (bind m (fun _ => k))
  (at level 100, right associativity).

Definition create (op : CoreOp) : R Value :=
  fun rw =>
    (OpResult (nextId rw) (resultType op),
     {| firstId := firstId rw;
        created := created rw ++ [op];
        replaced := replaced rw;
        erased := erased rw |}).

Definition replaceOp (op : N) (v : Value) : R unit :=
  fun rw =>
    (tt, {| firstId := firstId rw; created := created rw;
            replaced := replaced rw ++ [(op, v)]; erased := erased rw |}).

Definition replaceOpWithNewOp (op : N) (new : CoreOp) : R Value :=
  v <- create new ;;
  replaceOp op v ;;;
  ret v.

Definition eraseOp (op : N) : R unit :=
  fun rw =>
    (tt, {| firstId := firstId rw; created := created rw;
            replaced := replaced rw; erased := erased rw ++ [op] |}).

Definition eraseOp_if (op : option N) : R unit :=
  match op with
  | Some o => eraseOp o
  | None => ret tt
  end.

Definition notifyMatchFailure (op : option N) (msg : string)
    : R LogicalResult :=
  ret (failure op msg).

(** [createOrFold<seq::ToClockOp>]; the folder of the operation belongs to
    the dialect, the operation is taken to be created. *)
Definition createOrFold_ToClock (v : Value) : R Value := create (ToClock v).

(** *** Back-edges *)

Definition substValue (old new v : Value) : Value :=
  if decide (v = old) then new else v.

Definition substOp (old new : Value) (op : CoreOp) : CoreOp :=
  let s := substValue old new in
  match op with
  | Constant ty z => Constant ty z
  | Or a b => Or (s a) (s b)
  | Xor a b => Xor (s a) (s b)
  | And a b => And (s a) (s b)
  | Add a b => Add (s a) (s b)
  | ICmp p a b => ICmp p (s a) (s b)
  | Mux c t f => Mux (s c) (s t) (s f)
  | ToClock v => ToClock (s v)
  | CompReg i c r rv n iv => CompReg (s i) (s c) (s r) (s rv) n (s iv)
  | Placeholder ty => Placeholder ty
  | Always e c => Always e (s c)
  | SVAssert e l p => SVAssert (s e) l p
  end.

Definition opOperands (op : CoreOp) : list Value :=
  match op with
  | Constant _ _ | Placeholder _ => []
  | Or a b | Xor a b | And a b | Add a b | ICmp _ a b => [a; b]
  | Mux c t f => [c; t; f]
  | ToClock v => [v]
  | CompReg i c r rv _ iv => [i; c; r; rv; iv]
  | Always _ c => [c]
  | SVAssert e _ _ => [e]
  end.

Definition usesOf (v : Value) (op : CoreOp) : bool :=
  bool_decide (v ∈ opOperands op).

(** Modelled from the spec: [BackedgeBuilder] and [Backedge] are declared
    in [circt/Support/BackedgeBuilder.h], which is not among these
    sources. "[new_backedge(ty)]" vends a placeholder value; "when a
    back-edge is later bound to a real value, every use is rewritten", and
    the back-edge stands for that value from then on; at scope exit the
    placeholder is consumed, and one that is still in use is detected. *)
Definition BackedgeBuilder_get (ty : Type_) : R Value :=
  create (Placeholder ty).

Definition Backedge_setValue (edge newValue : Value) : R Value :=
  fun rw =>
    (newValue,
     {| firstId := firstId rw;
        created := map (substOp edge newValue) (created rw);
        replaced := replaced rw; erased := erased rw |}).

Definition BackedgeBuilder_clear (edge : Value) : R unit :=
  fun rw =>
    if existsb (usesOf edge) (created rw)
    then (tt, rw)
    else eraseOp_if (getDefiningOp edge) rw.

(** ** Pattern matchers *)

(** The variables of [matchAndRewrite] the matchers bind. *)
Record Bindings := {
  ltlClock : Value;
  disableCond : Value;
  disableInput : Value;
  antecedent : Value;
  consequent : Value;
  clockOp : option N;
  delayOp : option N;
  disableOp : option N;
  implOp : option N;
  concatOp : option N
}.

Definition noBindings : Bindings := {|
  ltlClock := NullValue; disableCond := NullValue;
  disableInput := NullValue; antecedent := NullValue;
  consequent := NullValue;
  clockOp := None; delayOp := None; disableOp := None; implOp := None;
  concatOp := None
|}.

Definition set_ltlClock (v : Value) (b : Bindings) : Bindings :=
  {| ltlClock := v; disableCond := disableCond b;
     disableInput := disableInput b; antecedent := antecedent b;
     consequent := consequent b; clockOp := clockOp b; delayOp := delayOp b;
     disableOp := disableOp b; implOp := implOp b; concatOp := concatOp b |}.
Definition set_disableCond (v : Value) (b : Bindings) : Bindings :=
  {| ltlClock := ltlClock b; disableCond := v;
     disableInput := disableInput b; antecedent := antecedent b;
     consequent := consequent b; clockOp := clockOp b; delayOp := delayOp b;
     disableOp := disableOp b; implOp := implOp b; concatOp := concatOp b |}.
Definition set_disableInput (v : Value) (b : Bindings) : Bindings :=
  {| ltlClock := ltlClock b; disableCond := disableCond b;
     disableInput := v; antecedent := antecedent b;
     consequent := consequent b; clockOp := clockOp b; delayOp := delayOp b;
     disableOp := disableOp b; implOp := implOp b; concatOp := concatOp b |}.
Definition set_antecedent (v : Value) (b : Bindings) : Bindings :=
  {| ltlClock := ltlClock b; disableCond := disableCond b;
     disableInput := disableInput b; antecedent := v;
     consequent := consequent b; clockOp := clockOp b; delayOp := delayOp b;
     disableOp := disableOp b; implOp := implOp b; concatOp := concatOp b |}.
Definition set_consequent (v : Value) (b : Bindings) : Bindings :=
  {| ltlClock := ltlClock b; disableCond := disableCond b;
     disableInput := disableInput b; antecedent := antecedent b;
     consequent := v; clockOp := clockOp b; delayOp := delayOp b;
     disableOp := disableOp b; implOp := implOp b; concatOp := concatOp b |}.
Definition set_clockOp (o : N) (b : Bindings) : Bindings :=
  {| ltlClock := ltlClock b; disableCond := disableCond b;
     disableInput := disableInput b; antecedent := antecedent b;
     consequent := consequent b; clockOp := Some o; delayOp := delayOp b;
     disableOp := disableOp b; implOp := implOp b; concatOp := concatOp b |}.
Definition set_delayOp (o : N) (b : Bindings) : Bindings :=
  {| ltlClock := ltlClock b; disableCond := disableCond b;
     disableInput := disableInput b; antecedent := antecedent b;
     consequent := consequent b; clockOp := clockOp b; delayOp := Some o;
     disableOp := disableOp b; implOp := implOp b; concatOp := concatOp b |}.
Definition set_disableOp (o : N) (b : Bindings) : Bindings :=
  {| ltlClock := ltlClock b; disableCond := disableCond b;
     disableInput := disableInput b; antecedent := antecedent b;
     consequent := consequent b; clockOp := clockOp b; delayOp := delayOp b;
     disableOp := Some o; implOp := implOp b; concatOp := concatOp b |}.
Definition set_implOp (o : N) (b : Bindings) : Bindings :=
  {| ltlClock := ltlClock b; disableCond := disableCond b;
     disableInput := disableInput b; antecedent := antecedent b;
     consequent := consequent b; clockOp := clockOp b; delayOp := delayOp b;
     disableOp := disableOp b; implOp := Some o; concatOp := concatOp b |}.
Definition set_concatOp (o : N) (b : Bindings) : Bindings :=
  {| ltlClock := ltlClock b; disableCond := disableCond b;
     disableInput := disableInput b; antecedent := antecedent b;
     consequent := consequent b; clockOp := clockOp b; delayOp := delayOp b;
     disableOp := disableOp b; implOp := implOp b; concatOp := Some o |}.

(** The matcher combinators: [m_Bool] binds a value of type [i1];
    [m_One] matches the defining constant 1; [m_OpWithBind] matches an
    operation of one kind whose operands match the sub-matchers, and then
    binds the operation. *)
#[local] Unset Elimination Schemes.
Inductive Matcher :=
| m_Bool (what : Value -> Bindings -> Bindings)
| m_One
| m_OpWithBind (isa : OpKind -> bool) (opBind : N -> Bindings -> Bindings)
    (operandMatchers : list Matcher).
#[local] Set Elimination Schemes.

Section Matching.

Variable ir : gmap N Operation.

Definition isConstantOne (op : N) : bool :=
  match ir !! op with
  | Some {| kind := HWConstantOp v |} => bool_decide (v = 1)
  | _ => false
  end.

(** A matcher applied to a value, as an operand matcher is
    ([matchOperandOrValueAtIndex]): a value matcher sees the value, an
    operation matcher its defining operation, and fails when there is none.
    The operands are all matched, from left to right, failure or not
    ([res &= ...]); the operation is bound after them, on success only. *)
Fixpoint matchValue (m : Matcher) (v : Value) (b : Bindings)
    : bool * Bindings :=
  match m with
  | m_Bool what =>
      if isSignlessInteger 1 (getType v) then (true, what v b) else (false, b)
  | m_One =>
      match getDefiningOp v with
      | Some defOp => (isConstantOne defOp, b)
      | None => (false, b)
      end
  | m_OpWithBind isa opBind operandMatchers =>
      match getDefiningOp v with
      | Some defOp =>
          match ir !! defOp with
          | Some o =>
              if isa (kind o) &&
                 (length (operands o) =? length operandMatchers)%nat
              then
                let '(res, b') :=
                  (fix go (ms : list Matcher) (vs : list Value)
                       (b : Bindings) : bool * Bindings :=
                     match ms, vs with
                     | m' :: ms', v' :: vs' =>
                         let '(r1, b1) := matchValue m' v' b in
                         let '(r2, b2) := go ms' vs' b1 in
                         (r1 && r2, b2)
                     | _, _ => (true, b)
                     end) operandMatchers (operands o) b in
                if res then (true, opBind defOp b') else (false, b')
              else (false, b)
          | None => (false, b)
          end
      | None => (false, b)
      end
  end.

Definition matchPattern (v : Value) (pattern : Matcher) (b : Bindings)
    : bool * Bindings :=
  matchValue pattern v b.

Definition isa_ClockOp (k : OpKind) : bool :=
  match k with ClockOp _ => true | _ => false end.
Definition isa_DisableOp (k : OpKind) : bool :=
  match k with DisableOp => true | _ => false end.
Definition isa_ImplicationOp (k : OpKind) : bool :=
  match k with ImplicationOp => true | _ => false end.
Definition isa_ConcatOp (k : OpKind) : bool :=
  match k with ConcatOp => true | _ => false end.
Definition isa_DelayOp (k : OpKind) : bool :=
  match k with DelayOp _ _ => true | _ => false end.

(** [a ##n true |-> b] *)
Definition patternNOI : Matcher :=
  m_OpWithBind isa_ClockOp set_clockOp
    [ m_OpWithBind isa_DisableOp set_disableOp
        [ m_OpWithBind isa_ImplicationOp set_implOp
            [ m_OpWithBind isa_ConcatOp set_concatOp
                [ m_Bool set_antecedent;
                  m_OpWithBind isa_DelayOp set_delayOp [m_One] ];
              m_Bool set_consequent ];
          m_Bool set_disableCond ];
      m_Bool set_ltlClock ].

(** [a |-> b] *)
Definition patternOI : Matcher :=
  m_OpWithBind isa_ClockOp set_clockOp
    [ m_OpWithBind isa_DisableOp set_disableOp
        [ m_OpWithBind isa_ImplicationOp set_implOp
            [ m_Bool set_antecedent; m_Bool set_consequent ];
          m_Bool set_disableCond ];
      m_Bool set_ltlClock ].

(** The generic clocked and disabled property. *)
Definition patternAssertProperty : Matcher :=
  m_OpWithBind isa_ClockOp set_clockOp
    [ m_OpWithBind isa_DisableOp set_disableOp
        [ m_Bool set_disableInput; m_Bool set_disableCond ];
      m_Bool set_ltlClock ].

(** *** Accessors of the matched operations *)

Definition operandOf (op : option N) (i : nat) : Value :=
  match op with
  | Some o => match ir !! o with
              | Some x => getOperand x i
              | None => NullValue
              end
  | None => NullValue
  end.

Definition getDelay (op : option N) : Z :=
  match op with
  | Some o => match ir !! o with
              | Some {| kind := DelayOp d _ |} => d
              | _ => 0
              end
  | None => 0
  end.

Definition getLength (op : option N) : option Z :=
  match op with
  | Some o => match ir !! o with
              | Some {| kind := DelayOp _ l |} => l
              | _ => None
              end
  | None => None
  end.

Definition getEdge (op : option N) : ClockEdge :=
  match op with
  | Some o => match ir !! o with
              | Some {| kind := ClockOp e |} => e
              | _ => Pos
              end
  | None => Pos
  end.

(** ** The conversion patterns *)

(** [HasBeenResetOpConversion::matchAndRewrite] *)
Definition HasBeenReset_matchAndRewrite (op : N) (clock reset : Value)
    : R LogicalResult :=
  let i1 := IntegerType 1 in
  constZero <- create (Constant i1 0) ;;
  constOne <- create (Constant i1 1) ;;
  edge <- BackedgeBuilder_get i1 ;;
  orReset <- create (Or reset edge) ;;
  clk <- createOrFold_ToClock clock ;;
  r <- create (CompReg orReset clk NullValue NullValue "hbr" constZero) ;;
  reg <- Backedge_setValue edge r ;;
  notReset <- create (Xor reset constOne) ;;
  replaceOpWithNewOp op (And reg notReset) ;;;
  BackedgeBuilder_clear edge ;;;
  ret success.

(** [visit(ltl::DisableOp, rewriter, operand)] *)
Definition visit_DisableOp (op : N) (operand : Value) : R Value :=
  replaceOpWithNewOp op
    (Or (operandOf (Some op) 1)
        (if decide (operand = NullValue) then operandOf (Some op) 0
         else operand)).

Definition makeImplication (antecedent consequent : Value) : R Value :=
  constOne <- create (Constant (IntegerType 1) 1) ;;
  nA <- create (Xor antecedent constOne) ;;
  create (Or nA consequent).

(** [llvm::Log2_64], an [unsigned]: [63 - countl_zero(v)], which wraps to
    [2^32 - 1] at [0]. *)
Definition Log2_64 (v : Z) : Z :=
  if v =? 0 then 2 ^ 32 - 1 else Z.log2 v.

(** The pipeline loop [for (size_t i = 1; i < delayCycles; ++i)]. *)
Fixpoint antecedentPipeline (idxs : list nat)
    (clock disableCond resetVal : Value) (aI : Value) : R Value :=
  match idxs with
  | [] => ret aI
  | i :: idxs' =>
      aI' <- create (CompReg aI clock disableCond resetVal
                       ("antecedent_" +:+ pretty (Z.of_nat i)) resetVal) ;;
      antecedentPipeline idxs' clock disableCond resetVal aI'
  end.

Definition makeNonOverlappingImplication (antecedent consequent : Value)
    (delayN ltlclock : option N) (disableCond : Value) : R (bool * Value) :=
  let delayCycles := getDelay delayN in
  let delayRegW := (Log2_64 delayCycles + 1) mod 2 ^ 32 in
  let idrw := IntegerType delayRegW in
  constZero <- create (Constant idrw 0) ;;
  constOneW <- create (Constant idrw 1) ;;
  edge <- BackedgeBuilder_get idrw ;;
  delayInc <- create (Add edge constOneW) ;;
  delayMax <- create (Constant idrw delayCycles) ;;
  delayEqMax <- create (ICmp ICmp_eq edge delayMax) ;;
  delayMux <- create (Mux delayEqMax delayMax delayInc) ;;
  clock <- createOrFold_ToClock (operandOf ltlclock 1) ;;
  r <- create (CompReg delayMux clock disableCond constZero "delay_"
                 constZero) ;;
  delayReg <- Backedge_setValue edge r ;;
  let aType := getType antecedent in
  let itype :=
    if isIntegerType aType then aType
    else IntegerType (getBitWidth aType) in
  resetVal <- create (Constant itype 0) ;;
  aI <- create (CompReg antecedent clock disableCond resetVal
                  "antecedent_0" resetVal) ;;
  aI <- antecedentPipeline (seq 1 (Z.to_nat (delayCycles - 1)))
          clock disableCond resetVal aI ;;
  condMin <- create (ICmp ICmp_ult delayReg delayMax) ;;
  constOneAi <- create (Constant (getType aI) 1) ;;
  notAi <- create (Xor aI constOneAi) ;;
  implAiConsequent <- create (Or notAi consequent) ;;
  condLhs <- create (Or condMin implAiConsequent) ;;
  res <- create (Or condLhs disableCond) ;;
  BackedgeBuilder_clear edge ;;;
  ret (true, res).

(** The tail of [AssertOpConversionPattern::matchAndRewrite], from the
    check of [disableOp] on. *)
Definition emitAssert (op : N) (label : option string) (b : Bindings)
    : R LogicalResult :=
  match disableOp b with
  | None => notifyMatchFailure (Some op) " Assertion must be disabled!"
  | Some disable =>
      match clockOp b with
      | None =>
          notifyMatchFailure (Some op)
            "verif.assert property is not associated to a clock! "
      | Some _ =>
          disableVal <- visit_DisableOp disable (disableInput b) ;;
          always <- create (Always (ltlToSVEventControl (getEdge (clockOp b)))
                              (ltlClock b)) ;;
          replaceOpWithNewOp op
            (SVAssert disableVal label
               (default 0%N (getDefiningOp always))) ;;;
          eraseOp_if (clockOp b) ;;;
          eraseOp_if (implOp b) ;;;
          eraseOp_if (concatOp b) ;;;
          eraseOp_if (delayOp b) ;;;
          ret success
      end
  end.

(** [AssertOpConversionPattern::matchAndRewrite] *)
Definition Assert_matchAndRewrite (op : N) (property : Value)
    (label : option string) : R LogicalResult :=
  let '(matchedNOI, b) := matchPattern property patternNOI noBindings in
  if matchedNOI && negb (bool_decide (getLength (delayOp b) = Some 0))
  then notifyMatchFailure (delayOp b) " Delay must have a length of 0!"
  else if matchedNOI then
    made <- makeNonOverlappingImplication (antecedent b)
              (consequent b) (delayOp b) (clockOp b) (disableCond b) ;;
    let '(ok, res) := made in
    if negb ok
    then notifyMatchFailure (implOp b)
           "Failed to generate NOI from ltl::ImplicationOp"
    else emitAssert op label (set_disableInput res b)
  else
    let '(matchedOI, b) := matchPattern property patternOI b in
    if matchedOI then
      v <- makeImplication (antecedent b) (consequent b) ;;
      emitAssert op label (set_disableInput v b)
    else
      let '(matched, b) := matchPattern property patternAssertProperty b in
      if negb matched
      then notifyMatchFailure (Some op) "AssertProperty format is invalid!"
      else emitAssert op label b.

End Matching.

(** ** The meaning of the created operations *)

(** The operations are those of the comb and seq dialects, with their
    usual meaning on bit vectors: a value of type [iW] is an integer below
    [2^W]; a register holds its state, which on each clock edge becomes
    its reset value when its reset is high and its input otherwise; before
    the first edge it holds its initial value. *)
Definition bits (t : Type_) (z : Z) : Z :=
  match t with
  | IntegerType w => z mod 2 ^ w
  | _ => z
  end.

(** The value of a combinational operation from the values [val] of its
    operands; a register, a placeholder and the procedural operations have
    none. *)
Definition opSem (val : Value -> Z) (op : CoreOp) : option Z :=
  match op with
  | Constant t c => Some (bits t c)
  | Or a b => Some (Z.lor (val a) (val b))
  | Xor a b => Some (Z.lxor (val a) (val b))
  | And a b => Some (Z.land (val a) (val b))
  | Add a b => Some (bits (getType a) (val a + val b))
  | ICmp ICmp_eq a b => Some (Z.b2z (val a =? val b))
  | ICmp ICmp_ult a b => Some (Z.b2z (val a <? val b))
  | Mux c t f => Some (if val c =? 1 then val t else val f)
  | ToClock x => Some (val x)
  | _ => None
  end.

(** What a register holds after a clock edge, from the values [val] of
    its operands before it: its reset value when it has a reset and the
    reset is high, its input otherwise. *)
Definition registerNext (val : Value -> Z) (op : CoreOp) : option Z :=
  match op with
  | CompReg input _ reset resetValue _ _ =>
      Some (if negb (bool_decide (reset = NullValue)) && (val reset =? 1)
            then val resetValue
            else val input)
  | _ => None
  end.

(** The antecedent registers among the operations. *)
Definition isAntecedentReg (op : CoreOp) : bool :=
  match op with
  | CompReg _ _ _ _ name _ => String.prefix "antecedent_" name
  | _ => false
  end.

(** The operation a value of the rewriter's numbering is the result of. *)
Definition opAt (rw : Rewriter) (id : N) : option CoreOp :=
  if (id <? firstId rw)%N then None
  else created rw !! N.to_nat (id - firstId rw).

(** A valuation of all values that agrees with the circuit built by [rw]:
    the result of every combinational operation has the value the
    operation computes from its operands. The values of registers and of
    the signals of the input are free. *)
Definition consistent (rw : Rewriter) (val : Value -> Z) : Prop :=
  forall k op z,
    created rw !! k = Some op ->
    opSem val op = Some z ->
    val (OpResult (firstId rw + N.of_nat k) (resultType op)) = z.

Section Semantics.

(** The circuit, and the values of the signals of the input IR. *)
Variable rw : Rewriter.
Variable env : Value -> Z.

(** Evaluation of a value in a state [st] of the registers. *)
Fixpoint evalV (fuel : nat) (st : N -> Z) (v : Value) : Z :=
  match fuel with
  | O => 0
  | S fuel' =>
      match v with
      | OpResult id ty =>
          match opAt rw id with
          | None => env v
          | Some (CompReg _ _ _ _ _ _) => st id
          | Some op => default 0 (opSem (evalV fuel' st) op)
          end
      | _ => env v
      end
  end.

Definition fuelFor : nat := S (length (created rw)).

(** The state of the registers after a clock edge. *)
Definition nextState (st : N -> Z) (id : N) : Z :=
  match opAt rw id with
  | Some op => default (st id) (registerNext (evalV fuelFor st) op)
  | None => st id
  end.

End Semantics.

Definition initialState (rw : Rewriter) : N -> Z :=
  fun id =>
    match opAt rw id with
    | Some (CompReg _ _ _ _ _ initialValue) =>
        evalV rw (fun _ => 0) (fuelFor rw) (fun _ => 0) initialValue
    | _ => 0
    end.

(** The values of [out] over the cycles whose signals are [envs]. *)
Fixpoint simulate (rw : Rewriter) (st : N -> Z) (out : Value)
    (envs : list (Value -> Z)) : list Z :=
  match envs with
  | [] => []
  | env :: envs' =>
      evalV rw env (fuelFor rw) st out ::
      simulate rw (nextState rw env st) out envs'
  end.

(** The value that replaces operation [op]. *)
Definition replacementOf (rw : Rewriter) (op : N) : option Value :=
  snd <$> find (fun p => bool_decide (fst p = op)) (replaced rw).

(** ** Sample inputs *)

Definition i1 : Type_ := IntegerType 1.
Definition sig_a : Value := BlockArgument 0 i1.
Definition sig_b : Value := BlockArgument 1 i1.
Definition sig_d : Value := BlockArgument 2 i1.
Definition sig_clk : Value := BlockArgument 3 i1.

(** A rewriter that has done nothing yet; new operations are numbered
    from 100 on. *)
Definition rw0 : Rewriter :=
  {| firstId := 100; created := []; replaced := []; erased := [] |}.

(** [assert(clock(disable(implication(a, b), d), posedge clk))]; the
    assertion is operation 4. *)
Definition irOI : gmap N Operation :=
  list_to_map
    [ (1%N, {| kind := ImplicationOp; operands := [sig_a; sig_b] |});
      (2%N, {| kind := DisableOp;
               operands := [OpResult 1 PropertyType; sig_d] |});
      (3%N, {| kind := ClockOp Pos;
               operands := [OpResult 2 PropertyType; sig_clk] |}) ].

(** [assert(clock(disable(implication(concat(a, delay(1, n, len)), b), d),
    posedge clk))]; the assertion is operation 7. *)
Definition irNOI (n : Z) (len : option Z) : gmap N Operation :=
  list_to_map
    [ (1%N, {| kind := HWConstantOp 1; operands := [] |});
      (2%N, {| kind := DelayOp n len; operands := [OpResult 1 i1] |});
      (3%N, {| kind := ConcatOp;
               operands := [sig_a; OpResult 2 SequenceType] |});
      (4%N, {| kind := ImplicationOp;
               operands := [OpResult 3 SequenceType; sig_b] |});
      (5%N, {| kind := DisableOp;
               operands := [OpResult 4 PropertyType; sig_d] |});
      (6%N, {| kind := ClockOp Pos;
               operands := [OpResult 5 PropertyType; sig_clk] |}) ].

(** A property that is a bare implication, neither clocked nor disabled;
    the assertion is operation 2. *)
Definition irBare : gmap N Operation :=
  list_to_map
    [ (1%N, {| kind := ImplicationOp; operands := [sig_a; sig_b] |}) ].

(** The signals of one cycle, given the value of [reset] (block argument
    1 of [has_been_reset]'s sample). *)
Definition cycle (reset : Z) : Value -> Z :=
  fun v => if decide (v = sig_b) then reset else 0.

(** ** The circuits the lowerings build *)

(** A rewriter that has created nothing yet and numbers from [base]. *)
Definition newRewriter (base : N) : Rewriter :=
  {| firstId := base; created := []; replaced := []; erased := [] |}.

(** The value of operation number [k] of the rewriter. *)
Definition new (base : N) (k : N) (ty : Type_) : Value :=
  OpResult (base + k) ty.

(** The elements of an optional value. *)
Definition optList {A} (o : option A) : list A :=
  match o with Some x => [x] | None => [] end.

(** A value of the input: its defining operation, if it has one, is
    numbered below the operations of the rewriter. *)
Definition inputValue (base : N) (v : Value) : Prop :=
  forall id, getDefiningOp v = Some id -> (id < base)%N.

(** The circuit of the sample [has_been_reset(sig_a, sig_b)]. *)
Definition hbrSample : Rewriter :=
  snd (HasBeenReset_matchAndRewrite 9 sig_a sig_b rw0).

(** The contract of the latch, cycle by cycle: the output is the stored
    bit and not [reset]; the stored bit becomes [reset] or itself. *)
Fixpoint hbrTrace (stored : bool) (resets : list bool) : list bool :=
  match resets with
  | [] => []
  | r :: resets' => (stored && negb r) :: hbrTrace (r || stored) resets'
  end.

(** The registers the pipeline loop appends when the list of created
    operations has [pos] elements, and the last of them. *)
Fixpoint pipelineRegs (clock d rv : Value) (f : N) (pos : nat) (aI : Value)
    (idxs : list nat) : list CoreOp :=
  match idxs with
  | [] => []
  | i :: idxs' =>
      CompReg aI clock d rv ("antecedent_" +:+ pretty (Z.of_nat i)) rv ::
      pipelineRegs clock d rv f (S pos)
        (OpResult (f + N.of_nat pos) (getType aI)) idxs'
  end.

Fixpoint pipelineOut (f : N) (pos : nat) (aI : Value) (idxs : list nat)
    : Value :=
  match idxs with
  | [] => aI
  | _ :: idxs' =>
      pipelineOut f (S pos) (OpResult (f + N.of_nat pos) (getType aI)) idxs'
  end.

Section NOICircuit.

Variables (clockId disableId implId concatId delayId : N).
Variables (edge : ClockEdge) (a b d clk : Value).
Variable n : Z.

(** The bindings of a match of the non-overlapping pattern. *)
Definition bindingsNOI : Bindings :=
  set_clockOp clockId
    (set_ltlClock clk
       (set_disableOp disableId
          (set_disableCond d
             (set_implOp implId
                (set_consequent b
                   (set_concatOp concatId
                      (set_delayOp delayId
                         (set_antecedent a noBindings)))))))).

(** The circuit of the lowering, for a delay of [m + 1] cycles: the
    counter and the first antecedent register, the rest of the pipeline,
    and the condition with its assertion. *)
Definition noiPrefix (base : N) : list CoreOp :=
  let W := IntegerType (Z.log2 n + 1) in
  let v := fun (k : nat) (ty : Type_) => OpResult (base + N.of_nat k) ty in
  [ Constant W 0;
    Constant W 1;
    Placeholder W;
    Add (v 8 W) (v 1 W);
    Constant W n;
    ICmp ICmp_eq (v 8 W) (v 4 W);
    Mux (v 5 i1) (v 4 W) (v 3 W);
    ToClock clk;
    CompReg (v 6 W) (v 7 ClockType) d (v 0 W) "delay_" (v 0 W);
    Constant i1 0;
    CompReg a (v 7 ClockType) d (v 9 i1) "antecedent_0" (v 9 i1) ]%nat.

Definition noiSuffix (label : option string) (base : N) (m : nat)
    : list CoreOp :=
  let W := IntegerType (Z.log2 n + 1) in
  let v := fun (k : nat) (ty : Type_) => OpResult (base + N.of_nat k) ty in
  [ ICmp ICmp_ult (v 8 W) (v 4 W);
    Constant i1 1;
    Xor (v (10 + m) i1) (v (12 + m) i1);
    Or (v (13 + m) i1) b;
    Or (v (11 + m) i1) (v (14 + m) i1);
    Or (v (15 + m) i1) d;
    Or d (v (16 + m) i1);
    Always (ltlToSVEventControl edge) clk;
    SVAssert (v (17 + m) i1) label (base + N.of_nat (18 + m))%N ]%nat.

Definition noiCircuit (label : option string) (base : N) (m : nat)
    : list CoreOp :=
  let v := fun (k : nat) (ty : Type_) => OpResult (base + N.of_nat k) ty in
  (noiPrefix base
   ++ pipelineRegs (v 7 ClockType) d (v 9 i1) base 11 (v 10 i1) (seq 1 m)
   ++ noiSuffix label base m)%nat.

End NOICircuit.

(** ** Runs over clock cycles *)

(** A trace gives every value its number at each clock cycle. It is a run
    of the circuit up to cycle [T] when, at each cycle, it agrees with the
    combinational operations; at cycle 0 every register holds its initial
    value; and every register holds at cycle [t + 1] what [registerNext]
    computes at cycle [t]. The signals of the input are free. *)
Definition isRun (rw : Rewriter) (T : nat) (tr : nat -> Value -> Z) : Prop :=
  (forall t, (t <= T)%nat -> consistent rw (tr t)) /\
  (forall k i c r rv nm iv,
     created rw !! k = Some (CompReg i c r rv nm iv) ->
     tr 0%nat (OpResult (firstId rw + N.of_nat k) (getType i)) =
       tr 0%nat iv) /\
  (forall t k op z,
     (t < T)%nat ->
     created rw !! k = Some op ->
     registerNext (tr t) op = Some z ->
     tr (S t) (OpResult (firstId rw + N.of_nat k) (resultType op)) = z).

(** The number of cycles before [t] since the signal [D] was last high
    (since the start when it never was). *)
Fixpoint cyclesSince (D : nat -> bool) (t : nat) : nat :=
  match t with
  | O => O
  | S t' => if D t' then O else S (cyclesSince D t')
  end.

(** The registers of the non-overlapping implication at cycle [t]: the
    counter holds the number of cycles since the last disable, up to [n];
    stage [i] of the pipeline holds the antecedent of [i + 1] cycles ago
    when there was no disable since, and 0 otherwise. *)
Definition noiRegisters (base : N) (n : Z) (tr : nat -> Value -> Z)
    (A D : nat -> bool) (t : nat) : Prop :=
  let k := cyclesSince D t in
  tr t (OpResult (base + N.of_nat 8) (IntegerType (Z.log2 n + 1))) =
    Z.min (Z.of_nat k) n /\
  forall i, (i <= Z.to_nat (n - 1))%nat ->
    tr t (OpResult (base + N.of_nat (10 + i)) i1) =
      Z.b2z (bool_decide (i < k)%nat && A (t - 1 - i)%nat).

(** The state of the registers at cycle [t] of the run over the signals
    [envs], and the values of the trace it gives. *)
Fixpoint stateAt (rw : Rewriter) (envs : nat -> Value -> Z) (t : nat)
    : N -> Z :=
  match t with
  | O => initialState rw
  | S t' => nextState rw (envs t') (stateAt rw envs t')
  end.

Definition traceOf (rw : Rewriter) (envs : nat -> Value -> Z) (t : nat)
    (v : Value) : Z :=
  evalV rw (envs t) (fuelFor rw) (stateAt rw envs t) v.

(** ** Further sample inputs *)

(** The antecedent is high at cycle 0 only; the consequent and the
    disable stay low. *)
Definition pulseEnvs (t : nat) (v : Value) : Z :=
  if decide (v = sig_a) then (if Nat.eqb t 0 then 1 else 0) else 0.

(** The reset is high at cycles 0, 1 and 4. *)
Definition resetEnvs (t : nat) (v : Value) : Z :=
  if decide (v = sig_b)
  then (if Nat.eqb t 0 || Nat.eqb t 1 || Nat.eqb t 4 then 1 else 0)
  else 0.

(** [assert(clock(disable(a, d), posedge clk))]; the assertion is
    operation 3. *)
Definition irPlain : gmap N Operation :=
  list_to_map
    [ (1%N, {| kind := DisableOp; operands := [sig_a; sig_d] |});
      (2%N, {| kind := ClockOp Pos;
               operands := [OpResult 1 PropertyType; sig_clk] |}) ].

(** ** The root of a property *)

(** The property is the result of an [ltl.clock] operation with its two
    operands. *)
Definition rootedInClock (ir : gmap N Operation) (property : Value) : bool :=
  match getDefiningOp property with
  | Some id =>
      match ir !! id with
      | Some o => isa_ClockOp (kind o) && (length (operands o) =? 2)%nat
      | None => false
      end
  | None => false
  end.

End LTLToCore.

(** * Properties of the HW-to-BTOR2 pass *)

Module BTOR2Facts.
Import BTOR2.

(** ** Relations between the state before and after a piece of the pass *)

Section Respects.

Variable at_missing : option Z.
Variable R : PassState -> PassState -> Prop.
Hypothesis R_refl : forall s, R s s.
Hypothesis R_trans : forall a b c, R a b -> R b c -> R a c.

Local Abbreviation respects := (BTOR2.respects R).

Lemma respects_ret {A} (a : A) : respects (ret a).
Proof. intros s. apply R_refl. Qed.

Lemma respects_abort {A} : respects (@abort A).
Proof. intros s. apply R_refl. Qed.

Lemma respects_gets {A} (f : PassState -> A) : respects (gets f).
Proof. intros s. apply R_refl. Qed.

Lemma respects_assert b : respects (assert_ b).
Proof. destruct b; [apply respects_ret | apply respects_abort]. Qed.

Lemma respects_at `{Countable K} (m : gmap K Z) k :
  respects (at_ at_missing m k).
Proof.
  unfold at_. destruct (m !! k); [apply respects_ret|].
  destruct at_missing; [apply respects_ret | apply respects_abort].
Qed.

Lemma respects_bind {A B} (m : M A) (k : A -> M B) :
  respects m -> (forall a, respects (k a)) -> respects (bind m k).
Proof.
  intros Hm Hk s. unfold bind. specialize (Hm s).
  destruct (m s) as [[a|] s1]; simpl in *; [|exact Hm].
  eapply R_trans; [exact Hm | apply Hk].
Qed.

Lemma respects_forM {A} (l : list A) (f : A -> M unit) :
  (forall x, respects (f x)) -> respects (forM_ l f).
Proof.
  intros Hf. induction l as [|x l IH]; simpl.
  - apply respects_ret.
  - apply respects_bind; auto.
Qed.

Lemma respects_modify f : (forall s, R s (f s)) -> respects (modify f).
Proof. intros Hf s. apply Hf. Qed.

(** What the relation has to grant for the state updates and prints of
    the pass. *)
Variable okEmit : list Frag -> Prop.
Hypothesis ok_num :
  forall rest n, rest !! 3%nat = Some (FNum n) -> okEmit rest.
Hypothesis R_emit : forall rest, okEmit rest -> respects (emit rest).
Hypothesis R_print : forall l, leading l = None -> respects (print l).
Hypothesis R_opLIDMap : forall f s, R s (set_opLIDMap (f s) s).
Hypothesis R_opAliasMap : forall f s, R s (set_opAliasMap (f s) s).
Hypothesis R_inputLIDs : forall f s, R s (set_inputLIDs (f s) s).
Hypothesis R_resetLID : forall s, R s (set_resetLID (lid s) s).
Hypothesis R_pushReg : forall o s, R s (set_regOps (regOps s ++ [o]) s).
Hypothesis R_genSort : forall ty w, respects (genSort at_missing ty w).
Hypothesis R_genZero : forall w, respects (genZero at_missing w).

Create HintDb resp.

Ltac resp :=
  repeat first
    [ apply respects_ret | apply respects_abort | apply respects_gets
    | apply respects_assert | apply respects_at
    | apply R_genSort | apply R_genZero
    | apply respects_bind; [| intros ?]
    | apply R_emit; eapply ok_num; reflexivity
    | apply respects_modify; intros ?;
      first [ apply (R_opLIDMap (fun s => _))
            | apply (R_opAliasMap (fun s => _))
            | apply (R_inputLIDs (fun s => _))
            | apply R_resetLID | apply R_pushReg ]
    | match goal with
      | |- respects (match ?x with _ => _ end) => destruct x
      end ].

Lemma respects_getOpAlias op : respects (getOpAlias op).
Proof. unfold getOpAlias. resp. Qed.

Lemma respects_getOpLID op : respects (getOpLID op).
Proof. unfold getOpLID. pose proof respects_getOpAlias. resp; auto. Qed.

Lemma respects_getOpLID_Value v : respects (getOpLID_Value v).
Proof. unfold getOpLID_Value. pose proof respects_getOpAlias. resp; auto. Qed.

Lemma respects_setOpLID op : respects (setOpLID op).
Proof. unfold setOpLID. resp. Qed.

Lemma respects_setOpAlias a op : respects (setOpAlias a op).
Proof. unfold setOpAlias. resp. Qed.

Lemma respects_sortLID w : respects (sortLID at_missing w).
Proof. unfold sortLID. resp. Qed.

Hint Resolve respects_getOpAlias respects_getOpLID respects_getOpLID_Value
  respects_setOpLID respects_setOpAlias respects_sortLID : resp.

Ltac resp' := repeat (resp; auto with resp).

Lemma respects_genInput w n : respects (genInput at_missing w n).
Proof. unfold genInput. resp'. Qed.

Lemma respects_genConst v w op : respects (genConst at_missing v w op).
Proof. unfold genConst. resp'. Qed.

Lemma respects_genBinOp i b o1 o2 w :
  respects (genBinOp at_missing i b o1 o2 w).
Proof. unfold genBinOp. resp'. Qed.

Lemma respects_genSlice o v l w : respects (genSlice at_missing o v l w).
Proof. unfold genSlice. resp'. Qed.

Lemma respects_genUnaryOp o o0 i w :
  respects (genUnaryOp at_missing o o0 i w).
Proof. unfold genUnaryOp. resp'. Qed.

Lemma respects_genBad o : respects (genBad o).
Proof. unfold genBad. resp'. Qed.

Lemma respects_genConstraint e : respects (genConstraint e).
Proof. unfold genConstraint. resp'. Qed.

Lemma respects_genIte_Value o c t f w :
  respects (genIte_Value at_missing o c t f w).
Proof. unfold genIte_Value. resp'. Qed.

Lemma respects_genIte o c t f w : respects (genIte at_missing o c t f w).
Proof. unfold genIte. resp'. Qed.

Lemma respects_genImplies o l r : respects (genImplies at_missing o l r).
Proof. unfold genImplies. resp'. Qed.

Lemma respects_genState o w n : respects (genState at_missing o w n).
Proof. unfold genState. resp'. Qed.

Lemma respects_genNext n r w : respects (genNext at_missing n r w).
Proof. unfold genNext. resp'. Qed.

Lemma respects_requireSort t : respects (requireSort at_missing t).
Proof. unfold requireSort. resp'. Qed.

Hint Resolve respects_genInput respects_genConst respects_genBinOp
  respects_genSlice respects_genUnaryOp respects_genBad
  respects_genConstraint respects_genIte_Value respects_genIte
  respects_genImplies respects_genState respects_genNext
  respects_requireSort : resp.

Lemma respects_visit_port p : respects (visit_port at_missing p).
Proof. unfold visit_port. resp'. Qed.

Lemma respects_visit o : respects (visit at_missing o).
Proof. unfold visit, genUnaryOp_Value. resp'. Qed.

Lemma respects_genRegTransition r :
  respects (genRegTransition at_missing r).
Proof. unfold genRegTransition. resp'. Qed.

Lemma respects_portsPhase m : respects (portsPhase at_missing m).
Proof. apply respects_forM, respects_visit_port. Qed.

Lemma respects_bodyPhase m : respects (bodyPhase at_missing m).
Proof. apply respects_forM, respects_visit. Qed.

Lemma respects_registerTransitionPhase :
  respects (registerTransitionPhase at_missing).
Proof.
  unfold registerTransitionPhase. apply respects_bind.
  - apply respects_gets.
  - intros regs. apply respects_forM, respects_genRegTransition.
Qed.

Lemma respects_runOnModule m : respects (runOnModule at_missing m).
Proof.
  unfold runOnModule.
  apply respects_bind; [apply respects_portsPhase | intros _].
  apply respects_bind; [apply respects_bodyPhase | intros _].
  apply respects_bind; [apply respects_registerTransitionPhase | intros _].
  apply R_print. reflexivity.
Qed.

Lemma respects_runOnOperation ms : respects (runOnOperation at_missing ms).
Proof. apply respects_forM, respects_runOnModule. Qed.

End Respects.

(** ** Line identifiers *)

Lemma to_size_t_idem z : to_size_t (to_size_t z) = to_size_t z.
Proof. unfold to_size_t. apply Z.mod_mod. discriminate. Qed.

Lemma to_size_t_range z : 0 <= to_size_t z < size_t_mod.
Proof. unfold to_size_t. apply Z.mod_pos_bound. reflexivity. Qed.

Lemma to_size_t_small z : 0 <= z < size_t_mod -> to_size_t z = z.
Proof. intros. unfold to_size_t. apply Z.mod_small. assumption. Qed.

Lemma to_size_t_add_l a b : to_size_t (to_size_t a + b) = to_size_t (a + b).
Proof. unfold to_size_t. apply Zplus_mod_idemp_l. Qed.

Lemma seq_from_0 a b : seq a b = map (Nat.add a) (seq 0 b).
Proof.
  revert a. induction b as [|b IH]; intros a; simpl; [reflexivity|].
  f_equal; [lia|]. rewrite (IH (S a)), (IH 1%nat), map_map.
  apply map_ext. intros i. lia.
Qed.

Lemma lids_from_app l0 a b :
  lids_from l0 (a + b) =
  lids_from l0 a ++ lids_from (to_size_t (l0 + Z.of_nat a)) b.
Proof.
  unfold lids_from. rewrite seq_app, map_app. f_equal.
  simpl. rewrite (seq_from_0 a b), map_map. apply map_ext. intros i.
  rewrite to_size_t_add_l. f_equal. lia.
Qed.

Lemma leading_lids_app a b :
  leading_lids (a ++ b) = leading_lids a ++ leading_lids b.
Proof. apply omap_app. Qed.

Lemma numbered_refl s : numbered s s.
Proof.
  intros Hok. split; [assumption|]. exists []. simpl.
  rewrite app_nil_r, Z.add_0_r, to_size_t_small by assumption. auto.
Qed.

Lemma numbered_trans a b c : numbered a b -> numbered b c -> numbered a c.
Proof.
  intros Hab Hbc Ha.
  destruct (Hab Ha) as (Hb & n1 & Ho1 & Hl1 & Hc1).
  destruct (Hbc Hb) as (Hc & n2 & Ho2 & Hl2 & Hc2).
  split; [assumption|]. exists (n1 ++ n2).
  rewrite Ho2, Ho1, <- app_assoc. split; [reflexivity|].
  rewrite leading_lids_app, length_app, lids_from_app.
  rewrite <- Hl1, <- Hc1, <- Hl2. split; [reflexivity|].
  rewrite Hc2, Hc1, to_size_t_add_l. f_equal. lia.
Qed.

(** A state update that leaves the counter and the stream alone. *)
Lemma numbered_same s s' :
  lid s' = lid s -> outs s' = outs s -> numbered s s'.
Proof.
  intros Hl Ho Hok. split; [unfold lid_ok; rewrite Hl; exact Hok|].
  exists []. simpl. rewrite app_nil_r, Z.add_0_r, Hl.
  rewrite to_size_t_small by assumption. auto.
Qed.

(** Every numbered line takes the counter's value and advances it by one. *)
Lemma numbered_emit rest s : numbered s (snd (emit rest s)).
Proof.
  intros Hok. simpl. split; [apply to_size_t_range|].
  exists [FNum (lid s) :: rest]. simpl. split; [reflexivity|].
  unfold lids_from. simpl. rewrite Z.add_0_r.
  rewrite to_size_t_small by assumption. auto.
Qed.

Lemma numbered_print l s : leading l = None -> numbered s (snd (print l s)).
Proof.
  intros Hl Hok. simpl. split; [assumption|].
  exists [l]. unfold leading_lids. simpl. rewrite Hl. simpl.
  rewrite Z.add_0_r, to_size_t_small by assumption. auto.
Qed.

Section Numbered.

Variable at_missing : option Z.

Lemma numbered_genSort ty w s : numbered s (snd (genSort at_missing ty w s)).
Proof.
  revert s. unfold genSort.
  apply (respects_bind _ numbered_trans); [apply respects_gets, numbered_refl|].
  intros m.
  apply (respects_bind _ numbered_trans);
    [apply respects_at; apply numbered_refl|].
  intros sid. destruct (decide _); [apply respects_ret, numbered_refl|].
  apply (respects_bind _ numbered_trans).
  - intros s. apply numbered_same; reflexivity.
  - intros _ s. apply numbered_emit.
Qed.

Lemma numbered_sortLID w s : numbered s (snd (sortLID at_missing w s)).
Proof.
  revert s. apply respects_sortLID; [apply numbered_refl|apply numbered_trans].
Qed.

Lemma numbered_genZero w s : numbered s (snd (genZero at_missing w s)).
Proof.
  revert s. unfold genZero.
  apply (respects_bind _ numbered_trans); [apply respects_gets, numbered_refl|].
  intros m.
  apply (respects_bind _ numbered_trans);
    [apply respects_at; apply numbered_refl|].
  intros z. destruct (decide _); [apply respects_ret, numbered_refl|].
  apply (respects_bind _ numbered_trans); [intros s; apply numbered_sortLID|].
  intros sid.
  apply (respects_bind _ numbered_trans).
  - intros s. apply numbered_same; reflexivity.
  - intros _ s. apply numbered_emit.
Qed.

Ltac numbered_obligations :=
  intros;
  first
    [ exact I
    | intros ?; apply numbered_emit
    | intros ?; apply numbered_print; assumption
    | intros ?; apply numbered_genSort
    | intros ?; apply numbered_genZero
    | apply numbered_same; reflexivity ].

Lemma numbered_runOnModule m s :
  numbered s (snd (runOnModule at_missing m s)).
Proof.
  revert s.
  apply (respects_runOnModule at_missing numbered numbered_refl
           numbered_trans (fun _ => True)); numbered_obligations.
Qed.

(** A whole run only appends lines, numbered consecutively. *)
Lemma numbered_runOnOperation ms s :
  numbered s (snd (runOnOperation at_missing ms s)).
Proof.
  revert s.
  apply (respects_runOnOperation at_missing numbered numbered_refl
           numbered_trans (fun _ => True)); numbered_obligations.
Qed.

End Numbered.

Lemma seq_sorted (a n : nat) : StronglySorted Z.lt (map Z.of_nat (seq a n)).
Proof.
  revert a. induction n as [|n IH]; intros a; simpl; constructor.
  - apply IH.
  - apply Forall_forall. intros x Hx.
    apply list_elem_of_In, in_map_iff in Hx.
    destruct Hx as (i & <- & Hi). apply in_seq in Hi. lia.
Qed.

Lemma sorted_NoDup (l : list Z) : StronglySorted Z.lt l -> NoDup l.
Proof.
  induction 1 as [|x l Hs IH Hx]; constructor; [|assumption].
  intros Hin. rewrite Forall_forall in Hx.
  specialize (Hx x Hin). lia.
Qed.

Lemma lids_from_small (n : nat) :
  Z.of_nat n < size_t_mod -> lids_from 1 n = map Z.of_nat (seq 1 n).
Proof.
  intros Hn. unfold lids_from. rewrite (seq_from_0 1 n), map_map.
  apply map_ext_in. intros i Hi. apply in_seq in Hi.
  rewrite to_size_t_small by lia. lia.
Qed.

(** C7: in the stream of a pass run (any modules [ms1], continued with any
    modules [ms2]) nothing printed earlier is retracted, and the leading
    integers of the lines are 1, 2, 3, ... in this order, hence strictly
    increasing and without repetition; the counter has advanced once per
    numbered line. The stream is taken to have fewer than [2^64] lines, the
    range of the 64-bit counter. *)
Theorem C7_monotonic_lids (at_missing : option Z) (ms1 ms2 : list HWModuleOp) :
  let s1 := snd (runOnOperation at_missing ms1 initState) in
  let s2 := snd (runOnOperation at_missing ms2 s1) in
  let ids := leading_lids (outs s2) in
  Z.of_nat (length ids) < size_t_mod ->
  (exists new, outs s2 = outs s1 ++ new) /\
  ids = map Z.of_nat (seq 1 (length ids)) /\
  StronglySorted Z.lt ids /\
  NoDup ids /\
  lid s2 = to_size_t (1 + Z.of_nat (length ids)).
Proof.
  intros s1 s2 ids Hlen.
  assert (H0 : lid_ok initState) by (unfold lid_ok; simpl; split; [lia|reflexivity]).
  destruct (numbered_runOnOperation at_missing ms1 initState H0)
    as (Hok1 & n1 & Ho1 & _ & _).
  fold s1 in Hok1, Ho1.
  destruct (numbered_runOnOperation at_missing ms2 s1 Hok1)
    as (_ & n2 & Ho2 & _ & _).
  fold s2 in Ho2.
  pose proof (numbered_trans _ _ _
                (numbered_runOnOperation at_missing ms1 initState)
                (numbered_runOnOperation at_missing ms2 s1) H0)
    as (_ & new & Ho & Hl & Hc).
  fold s1 s2 in Ho, Hc. simpl in Ho, Hl, Hc.
  assert (Hids : ids = leading_lids new) by (unfold ids; rewrite Ho; reflexivity).
  rewrite <- Hids in Hl, Hc.
  assert (Heq : ids = map Z.of_nat (seq 1 (length ids)))
    by (rewrite Hl at 1; apply lids_from_small; assumption).
  split; [exists n2; assumption|].
  split; [assumption|].
  split; [rewrite Heq; apply seq_sorted|].
  split; [apply sorted_NoDup; rewrite Heq; apply seq_sorted|assumption].
Qed.

Lemma C7_monotonic_lids_witness :
  let s2 := snd (runOnOperation (Some noLID) [counter8] initState) in
  Z.of_nat (length (leading_lids (outs s2))) < size_t_mod /\
  leading_lids (outs s2) = [1; 2; 3; 4; 5; 6; 7; 8; 9] /\
  lid s2 = 10.
Proof.
  assert (H : Z.of_nat (length (leading_lids (outs (snd
              (runOnOperation (Some noLID) [counter8] initState)))))
              < size_t_mod) by (vm_compute; reflexivity).
  intros s2. split; [exact H|].
  destruct (C7_monotonic_lids (Some noLID) [] [counter8] H)
    as (_ & Hids & _ & _ & Hlid).
  split.
  - etransitivity; [exact Hids|]. vm_compute. reflexivity.
  - etransitivity; [exact Hlid|]. vm_compute. reflexivity.
Defined.

(** ** What [genSort] and [genZero] do *)

Lemma genSort_cases at_missing ty w s :
  snd (genSort at_missing ty w s) = s \/
  (~ sortRecorded s w /\ snd (genSort at_missing ty w s) = afterSort ty w s).
Proof.
  unfold genSort, bind, gets, at_, sortRecorded.
  destruct (sortToLIDMap s !! w) as [sid|] eqn:E; simpl.
  - destruct (decide (sid <> noLID)) as [Hs|Hs]; simpl; [auto|].
    right. split; [|reflexivity]. intros (x & Hx & Hn).
    injection Hx as <-. exact (Hs Hn).
  - destruct at_missing as [v|]; simpl; [|auto].
    destruct (decide (v <> noLID)); simpl; [auto|].
    right. split; [|reflexivity]. intros (x & Hx & Hn). discriminate.
Qed.

Lemma sortLID_state at_missing w s : snd (sortLID at_missing w s) = s.
Proof.
  unfold sortLID, bind, gets, at_, assert_.
  destruct (sortToLIDMap s !! w) as [sid|]; simpl.
  - destruct (bool_decide _); reflexivity.
  - destruct at_missing as [v|]; simpl; [|reflexivity].
    destruct (bool_decide _); reflexivity.
Qed.

Lemma genZero_cases at_missing w s :
  snd (genZero at_missing w s) = s \/
  (~ zeroRecorded s w /\
   exists sid, snd (genZero at_missing w s) = afterZero sid w s).
Proof.
  assert (Hrest : forall z, z = noLID ->
    snd ((sid <- sortLID at_missing w ;;
          modify (fun s => set_constToLIDMap
                    (<[(0, w) := lid s]> (constToLIDMap s)) s) ;;;
          emit [FStr wsStr; FStr zeroStr; FStr wsStr; FNum sid;
                FStr nlStr]) s) = s \/
    exists sid,
      snd ((sid <- sortLID at_missing w ;;
            modify (fun s => set_constToLIDMap
                      (<[(0, w) := lid s]> (constToLIDMap s)) s) ;;;
            emit [FStr wsStr; FStr zeroStr; FStr wsStr; FNum sid;
                  FStr nlStr]) s) = afterZero sid w s).
  { intros z _. unfold bind.
    pose proof (sortLID_state at_missing w s) as Hs.
    destruct (sortLID at_missing w s) as [[sid|] s1]; simpl in Hs; subst s1.
    - right. exists sid. reflexivity.
    - left. reflexivity. }
  remember (genZero at_missing w s) as r eqn:Hr.
  unfold genZero in Hr. unfold bind at 1 in Hr. unfold gets in Hr.
  unfold bind at 1 in Hr. unfold at_ in Hr. unfold zeroRecorded.
  destruct (constToLIDMap s !! (0, w)) as [z|] eqn:E; cbn [ret] in Hr.
  - destruct (decide (z <> noLID)) as [Hz|Hz]; [left; subst r; reflexivity|].
    rewrite <- Hr in Hrest.
    destruct (Hrest z ltac:(apply dec_stable; exact Hz)) as [H|[sid H]].
    + left. exact H.
    + right. split.
      * intros (x & Hx & Hn). injection Hx as <-. exact (Hz Hn).
      * exists sid. exact H.
  - destruct at_missing as [v|]; cbn [ret abort] in Hr;
      [|left; subst r; reflexivity].
    destruct (decide (v <> noLID)) as [Hz|Hz]; [left; subst r; reflexivity|].
    rewrite <- Hr in Hrest.
    destruct (Hrest v ltac:(apply dec_stable; exact Hz)) as [H|[sid H]].
    + left. exact H.
    + right. split.
      * intros (x & Hx & Hn). discriminate.
      * exists sid. exact H.
Qed.

(** ** Sorts, zeros and registers persist *)

Lemma persists_refl s : persists s s.
Proof.
  repeat split; auto.
  - exists []. rewrite app_nil_r. reflexivity.
  - exists []. rewrite app_nil_r. split; [reflexivity|].
    intros n ty w H. apply elem_of_nil in H. contradiction.
Qed.

Lemma sortRecorded_persists a b w :
  persists a b -> sortRecorded a w -> sortRecorded b w.
Proof.
  intros (Hs & _) Hr. destruct (Hr) as (sid & Hl & Hn).
  exists sid. rewrite (Hs w Hr). auto.
Qed.

Lemma zeroRecorded_persists a b w :
  persists a b -> zeroRecorded a w -> zeroRecorded b w.
Proof.
  intros (_ & Hz & _) Hr. destruct (Hr) as (z & Hl & Hn).
  exists z. rewrite (Hz w Hr). auto.
Qed.

Lemma persists_trans a b c : persists a b -> persists b c -> persists a c.
Proof.
  intros Hab Hbc.
  pose proof (fun w => sortRecorded_persists a b w Hab) as Hsr.
  pose proof (fun w => zeroRecorded_persists a b w Hab) as Hzr.
  destruct Hab as (Hs1 & Hz1 & (l1 & Hr1) & n1 & Ho1 & Hn1).
  destruct Hbc as (Hs2 & Hz2 & (l2 & Hr2) & n2 & Ho2 & Hn2).
  split; [|split; [|split]].
  - intros w Hw. rewrite (Hs2 w (Hsr w Hw)). apply Hs1, Hw.
  - intros w Hw. rewrite (Hz2 w (Hzr w Hw)). apply Hz1, Hw.
  - exists (l1 ++ l2). rewrite Hr2, Hr1, app_assoc. reflexivity.
  - exists (n1 ++ n2). rewrite Ho2, Ho1, app_assoc. split; [reflexivity|].
    intros n ty w Hin. apply elem_of_app in Hin. destruct Hin as [Hin|Hin].
    + eapply Hn1, Hin.
    + intros Hw. eapply Hn2; [exact Hin|]. apply Hsr, Hw.
Qed.

(** A state update that leaves the tables, the registers and the stream
    alone. *)
Lemma persists_same s s' :
  sortToLIDMap s' = sortToLIDMap s -> constToLIDMap s' = constToLIDMap s ->
  regOps s' = regOps s -> outs s' = outs s -> persists s s'.
Proof.
  intros Hs Hc Hr Ho. unfold persists. rewrite Hs, Hc, Hr, Ho.
  apply persists_refl.
Qed.

Lemma notSort_num rest k : rest !! 3%nat = Some (FNum k) -> notSort rest.
Proof.
  intros H n n' ty w Heq. injection Heq as _ ->. discriminate H.
Qed.

Lemma persists_emit rest s : notSort rest -> persists s (snd (emit rest s)).
Proof.
  intros Hns. repeat split; auto.
  - exists []. rewrite app_nil_r. reflexivity.
  - exists [FNum (lid s) :: rest]. split; [reflexivity|].
    intros n ty w Hin. apply list_elem_of_singleton in Hin.
    symmetry in Hin. apply Hns in Hin. contradiction.
Qed.

Lemma persists_print l s : leading l = None -> persists s (snd (print l s)).
Proof.
  intros Hl. repeat split; auto.
  - exists []. rewrite app_nil_r. reflexivity.
  - exists [l]. split; [reflexivity|].
    intros n ty w Hin. apply list_elem_of_singleton in Hin.
    subst l. discriminate Hl.
Qed.

Lemma persists_pushReg o s : persists s (set_regOps (regOps s ++ [o]) s).
Proof.
  repeat split; auto.
  - exists [o]. reflexivity.
  - exists []. rewrite app_nil_r. split; [reflexivity|].
    intros n ty w H. apply elem_of_nil in H. contradiction.
Qed.

Lemma persists_genSort at_missing ty w s :
  persists s (snd (genSort at_missing ty w s)).
Proof.
  destruct (genSort_cases at_missing ty w s) as [->|[Hn ->]];
    [apply persists_refl|].
  split; [|split; [|split]].
  - intros w' Hw'. simpl. apply lookup_insert_ne. intros ->. exact (Hn Hw').
  - intros w' Hw'. reflexivity.
  - exists []. rewrite app_nil_r. reflexivity.
  - exists [sortLine (lid s) ty w]. split; [reflexivity|].
    intros n ty' w' Hin. apply list_elem_of_singleton in Hin.
    injection Hin as _ _ ->. exact Hn.
Qed.

Lemma persists_genZero at_missing w s :
  persists s (snd (genZero at_missing w s)).
Proof.
  destruct (genZero_cases at_missing w s) as [->|[Hn [sid ->]]];
    [apply persists_refl|].
  split; [|split; [|split]].
  - intros w' Hw'. reflexivity.
  - intros w' Hw'. simpl. apply lookup_insert_ne.
    intros Heq. injection Heq as ->. exact (Hn Hw').
  - exists []. rewrite app_nil_r. reflexivity.
  - exists [zeroLine (lid s) sid]. split; [reflexivity|].
    intros n ty' w' Hin. apply list_elem_of_singleton in Hin.
    discriminate Hin.
Qed.

Section Persists.

Variable at_missing : option Z.

Ltac persists_obligations :=
  intros;
  first
    [ eapply notSort_num; eassumption
    | intros ?; apply persists_emit; assumption
    | intros ?; apply persists_print; assumption
    | apply persists_pushReg
    | intros ?; apply persists_genSort
    | intros ?; apply persists_genZero
    | apply persists_same; reflexivity ].

Lemma persists_portsPhase m s :
  persists s (snd (portsPhase at_missing m s)).
Proof.
  revert s.
  apply (respects_portsPhase at_missing persists persists_refl
           persists_trans notSort); persists_obligations.
Qed.

Lemma persists_bodyPhase m s :
  persists s (snd (bodyPhase at_missing m s)).
Proof.
  revert s.
  apply (respects_bodyPhase at_missing persists persists_refl
           persists_trans notSort); persists_obligations.
Qed.

Lemma persists_runOnModule m s :
  persists s (snd (runOnModule at_missing m s)).
Proof.
  revert s.
  apply (respects_runOnModule at_missing persists persists_refl
           persists_trans notSort); persists_obligations.
Qed.

Lemma persists_runOnOperation ms s :
  persists s (snd (runOnOperation at_missing ms s)).
Proof.
  revert s.
  apply (respects_runOnOperation at_missing persists persists_refl
           persists_trans notSort); persists_obligations.
Qed.

End Persists.

(** ** One state for all modules *)

Lemma forM_app {A} (f : A -> M unit) l1 l2 s :
  forM_ (l1 ++ l2) f s = (forM_ l1 f ;;; forM_ l2 f) s.
Proof.
  revert s. induction l1 as [|x l1 IH]; intros s; simpl; [reflexivity|].
  unfold bind in *. destruct (f x s) as [[[]|] s1]; [|reflexivity].
  apply IH.
Qed.

Lemma genSort_recorded at_missing ty w s :
  sortRecorded s w -> genSort at_missing ty w s = (Done tt, s).
Proof.
  intros (sid & Hl & Hn). unfold genSort, bind, gets, at_. rewrite Hl.
  simpl. destruct (decide (sid <> noLID)); [reflexivity|contradiction].
Qed.

Lemma genZero_recorded at_missing w s :
  zeroRecorded s w -> genZero at_missing w s = (Done tt, s).
Proof.
  intros (z & Hl & Hn). unfold genZero. unfold bind at 1. unfold gets.
  unfold bind at 1. unfold at_. rewrite Hl. simpl.
  destruct (decide (z <> noLID)); [reflexivity|contradiction].
Qed.

Lemma runOnModule_registers at_missing m s :
  exists later,
    runOnModule at_missing m s =
    ((portsPhase at_missing m ;;; bodyPhase at_missing m) ;;;
     forM_ (regOps s ++ later) (genRegTransition at_missing) ;;;
     print [FStr bannerStr]) s.
Proof.
  pose proof (persists_portsPhase at_missing m s) as Hp.
  unfold runOnModule, registerTransitionPhase, bind, gets.
  destruct (portsPhase at_missing m s) as [[[]|] s1]; simpl in Hp;
    [|exists []; reflexivity].
  pose proof (persists_bodyPhase at_missing m s1) as Hb.
  pose proof (persists_trans _ _ _ Hp Hb) as (_ & _ & (later & Hl) & _).
  exists later.
  destruct (bodyPhase at_missing m s1) as [[[]|] s2]; simpl in Hl;
    [|reflexivity].
  rewrite Hl. reflexivity.
Qed.

(** What a module [m] keeps of the state [s] that earlier modules left. A
    run over [ms1 ++ ms2] is the run over [ms1] followed, in the state it
    left, by the run over [ms2]; the lines of [m] are numbered on from
    [lid s]; a sort or zero recorded in [s] keeps its line, no sort line
    is printed again for such a width, and [genSort] and [genZero] do
    nothing for it; and the transition loop of [m] runs over the
    registers recorded in [s] followed by those of [m]. For the two
    modules [counter8], [counter8'] the second banner is preceded by the
    [ite]/[next] pair of the first module's register (state line 4) and
    then that of the second (state line 11). *)
Lemma state_kept_by_module
    (at_missing : option Z) (s : PassState) (m : HWModuleOp) :
  let s' := snd (runOnModule at_missing m s) in
  (forall ms1 ms2 s0,
     runOnOperation at_missing (ms1 ++ ms2) s0 =
     (runOnOperation at_missing ms1 ;;; runOnOperation at_missing ms2) s0) /\
  numbered s s' /\
  persists s s' /\
  (forall ty w, sortRecorded s w ->
                genSort at_missing ty w s = (Done tt, s)) /\
  (forall w, zeroRecorded s w -> genZero at_missing w s = (Done tt, s)) /\
  (exists later,
     runOnModule at_missing m s =
     ((portsPhase at_missing m ;;; bodyPhase at_missing m) ;;;
      forM_ (regOps s ++ later) (genRegTransition at_missing) ;;;
      print [FStr bannerStr]) s) /\
  drop 10 (outs (snd (runOnOperation (Some noLID) [counter8; counter8']
                        initState))) =
    [ [FNum 10; FStr wsStr; FStr inputStr; FStr wsStr; FNum 1; FStr wsStr;
       FStr "reset"; FStr nlStr];
      [FNum 11; FStr wsStr; FStr stateStr; FStr wsStr; FNum 3; FStr wsStr;
       FStr "q"; FStr nlStr];
      [FNum 12; FStr wsStr; FStr constdStr; FStr wsStr; FNum 3; FStr wsStr;
       FNum 1; FStr nlStr];
      [FNum 13; FStr wsStr; FStr addStr; FStr wsStr; FNum 3; FStr wsStr;
       FNum 11; FStr wsStr; FNum 12; FStr nlStr];
      iteLine 14 3 10 7 8; nextLine 15 3 4 14;
      iteLine 16 3 10 7 13; nextLine 17 3 11 16;
      [FStr bannerStr] ].
Proof.
  intros s'.
  split; [intros; apply forM_app|].
  split; [apply numbered_runOnModule|].
  split; [apply persists_runOnModule|].
  split; [intros; apply genSort_recorded; assumption|].
  split; [intros; apply genZero_recorded; assumption|].
  split; [apply runOnModule_registers|].
  vm_compute. reflexivity.
Qed.

(** ** The reset line of the transitions *)

Lemma resetEncoded_refl s : resetEncoded s s.
Proof.
  split; [reflexivity|]. exists []. rewrite app_nil_r.
  split; [reflexivity|]. intros n sid c t f H.
  apply elem_of_nil in H. contradiction.
Qed.

Lemma resetEncoded_trans a b c :
  resetEncoded a b -> resetEncoded b c -> resetEncoded a c.
Proof.
  intros (Hr1 & n1 & Ho1 & Hi1) (Hr2 & n2 & Ho2 & Hi2).
  split; [congruence|]. exists (n1 ++ n2).
  rewrite Ho2, Ho1, app_assoc. split; [reflexivity|].
  intros n sid c0 t f Hin. apply elem_of_app in Hin.
  destruct Hin as [Hin|Hin]; [eapply Hi1, Hin|].
  rewrite <- Hr1. eapply Hi2, Hin.
Qed.

Lemma resetEncoded_same s s' :
  resetLID s' = resetLID s -> outs s' = outs s -> resetEncoded s s'.
Proof.
  intros Hr Ho. unfold resetEncoded. rewrite Hr, Ho.
  apply resetEncoded_refl.
Qed.

Lemma resetEncoded_emit rest s :
  (forall n sid c t f,
     FNum (lid s) :: rest = iteLine n sid c t f -> c = resetLID s) ->
  resetEncoded s (snd (emit rest s)).
Proof.
  intros H. split; [reflexivity|].
  exists [FNum (lid s) :: rest]. split; [reflexivity|].
  intros n sid c t f Hin. apply list_elem_of_singleton in Hin.
  symmetry in Hin. eapply H, Hin.
Qed.

Lemma resetEncoded_print l s :
  leading l = None -> resetEncoded s (snd (print l s)).
Proof.
  intros Hl. split; [reflexivity|]. exists [l]. split; [reflexivity|].
  intros n sid c t f Hin. apply list_elem_of_singleton in Hin.
  subst l. discriminate Hl.
Qed.

Lemma at_cases `{Countable K} at_missing (m : gmap K Z) (k : K) s :
  (exists v, at_ at_missing m k s = (Done v, s)) \/
  at_ at_missing m k s = (Aborted, s).
Proof.
  unfold at_. destruct (m !! k) as [v|]; [left; exists v; reflexivity|].
  destruct at_missing as [v|]; [left; exists v; reflexivity|right; reflexivity].
Qed.

Section ResetEncoded.

Variable at_missing : option Z.

Lemma resetEncoded_genSort ty w s :
  resetEncoded s (snd (genSort at_missing ty w s)).
Proof.
  destruct (genSort_cases at_missing ty w s) as [->|[_ ->]];
    [apply resetEncoded_refl|].
  split; [reflexivity|]. exists [sortLine (lid s) ty w].
  split; [reflexivity|]. intros n sid c t f Hin.
  apply list_elem_of_singleton in Hin. discriminate Hin.
Qed.

Lemma resetEncoded_genZero w s :
  resetEncoded s (snd (genZero at_missing w s)).
Proof.
  destruct (genZero_cases at_missing w s) as [->|[_ [sid ->]]];
    [apply resetEncoded_refl|].
  split; [reflexivity|]. exists [zeroLine (lid s) sid].
  split; [reflexivity|]. intros n sid' c t f Hin.
  apply list_elem_of_singleton in Hin. discriminate Hin.
Qed.

(** The [ite] of a transition is printed with the reset line as its
    condition. *)
Lemma resetEncoded_genIte o t f w s :
  resetEncoded s (snd (genIte at_missing o (resetLID s) t f w s)).
Proof.
  unfold genIte, bind.
  assert (Hset : exists s1, setOpLID o s = (Done tt, s1) /\
                            resetLID s1 = resetLID s /\ outs s1 = outs s /\
                            lid s1 = lid s).
  { unfold setOpLID. destruct (decide (o <> nullptr)); eexists; eauto. }
  destruct Hset as (s1 & -> & Hr & Ho & Hl).
  pose proof (sortLID_state at_missing (to_size_t w) s1) as Hs.
  destruct (sortLID at_missing (to_size_t w) s1) as [[sid|] s2];
    simpl in Hs; subst s2.
  - eapply resetEncoded_trans; [apply (resetEncoded_same s s1); assumption|].
    apply resetEncoded_emit. intros n sid' c t' f' Heq.
    injection Heq as _ _ <- _ _. symmetry. exact Hr.
  - apply resetEncoded_same; assumption.
Qed.

Lemma resetEncoded_genNext n r w s :
  resetEncoded s (snd (genNext at_missing n r w s)).
Proof.
  revert s. unfold genNext.
  apply (respects_bind _ resetEncoded_trans);
    [apply respects_sortLID;
       [apply resetEncoded_refl | apply resetEncoded_trans]|].
  intros sid.
  apply (respects_bind _ resetEncoded_trans);
    [apply respects_getOpLID;
       [apply resetEncoded_refl | apply resetEncoded_trans]|].
  intros regLID.
  apply (respects_bind _ resetEncoded_trans);
    [apply respects_getOpLID;
       [apply resetEncoded_refl | apply resetEncoded_trans]|].
  intros nextLID s. apply resetEncoded_emit.
  intros n' sid' c t f Heq. discriminate Heq.
Qed.

Lemma resetEncoded_genRegTransition r s :
  resetEncoded s (snd (genRegTransition at_missing r s)).
Proof.
  revert s. unfold genRegTransition.
  destruct (kind r); try (intros s; apply resetEncoded_refl).
  apply (respects_bind _ resetEncoded_trans);
    [intros s; apply resetEncoded_genSort|]. intros _.
  apply (respects_bind _ resetEncoded_trans);
    [intros s; apply resetEncoded_genZero|]. intros _.
  apply (respects_bind _ resetEncoded_trans);
    [apply respects_getOpLID;
       [apply resetEncoded_refl | apply resetEncoded_trans]|].
  intros nextLID s.
  change (resetEncoded s (snd
    ((zeroLID <- at_ at_missing (constToLIDMap s)
                   (0, to_size_t (getBitWidth ty)) ;;
      genIte at_missing (getDefiningOp next) (resetLID s) zeroLID nextLID
        (to_int64 (to_size_t (getBitWidth ty))) ;;;
      genNext at_missing (getDefiningOp next) (addr r)
        (to_int64 (to_size_t (getBitWidth ty)))) s))).
  unfold bind at 1.
  destruct (at_cases at_missing (constToLIDMap s)
              (0, to_size_t (getBitWidth ty)) s) as [[z ->]| ->];
    [|apply resetEncoded_refl].
  unfold bind;
    pose proof (resetEncoded_genIte (getDefiningOp next) z nextLID
                  (to_int64 (to_size_t (getBitWidth ty))) s) as Hite;
    destruct (genIte at_missing (getDefiningOp next) (resetLID s) z nextLID
                (to_int64 (to_size_t (getBitWidth ty))) s) as [[[]|] s1];
    simpl in Hite; [|exact Hite];
    eapply resetEncoded_trans; [exact Hite|apply resetEncoded_genNext].
Qed.

Lemma resetEncoded_registerTransitionPhase s :
  resetEncoded s (snd (registerTransitionPhase at_missing s)).
Proof.
  revert s. unfold registerTransitionPhase.
  apply (respects_bind _ resetEncoded_trans);
    [apply respects_gets, resetEncoded_refl|].
  intros regs. apply respects_forM;
    [apply resetEncoded_refl | apply resetEncoded_trans|].
  intros r s. apply resetEncoded_genRegTransition.
Qed.

Lemma sameReset_trans a b c : sameReset a b -> sameReset b c -> sameReset a c.
Proof. unfold sameReset. congruence. Qed.

Lemma sameReset_genSort ty w s : sameReset s (snd (genSort at_missing ty w s)).
Proof. apply resetEncoded_genSort. Qed.

Lemma sameReset_bodyPhase m s : sameReset s (snd (bodyPhase at_missing m s)).
Proof.
  revert s.
  apply (respects_bodyPhase at_missing sameReset (fun s => eq_refl)
           sameReset_trans (fun _ => True)); intros;
    first [ exact I | reflexivity | intros ?; apply sameReset_genSort
          | intros ?; reflexivity ].
Qed.

Lemma sameReset_visit_port p s :
  (port_isInput p = true -> port_name p <> resetStr) ->
  sameReset s (snd (visit_port at_missing p s)).
Proof.
  intros Hp. revert s. unfold visit_port.
  destruct (port_isInput p); simpl; [|intros s; reflexivity].
  destruct (negb _); [|intros s; reflexivity].
  apply (respects_bind _ sameReset_trans).
  { apply respects_requireSort;
      [reflexivity | apply sameReset_trans | intros ? ? ?; apply sameReset_genSort]. }
  intros w.
  apply (respects_bind _ sameReset_trans); [intros s; reflexivity|].
  intros _. destruct (decide _) as [He|He]; [destruct (Hp eq_refl He)|].
  apply (respects_bind _ sameReset_trans); [intros s; reflexivity|].
  intros _.
  apply (respects_genInput at_missing sameReset (fun s => eq_refl)
           sameReset_trans (fun _ => True)); intros;
    first [ exact I | intros ?; reflexivity ].
Qed.

Lemma sameReset_portsPhase m s :
  noResetPort m -> sameReset s (snd (portsPhase at_missing m s)).
Proof.
  unfold noResetPort, portsPhase. revert s.
  induction (getPortList m) as [|p ps IH]; intros s Hm; simpl;
    [reflexivity|].
  unfold bind.
  pose proof (sameReset_visit_port p s (Hm p ltac:(left))) as Hp.
  destruct (visit_port at_missing p s) as [[[]|] s1]; simpl in Hp;
    [|exact Hp].
  eapply sameReset_trans; [exact Hp|]. apply IH.
  intros q Hq. apply Hm. right. exact Hq.
Qed.

End ResetEncoded.

Lemma runOnModule_after_body at_missing m s :
  resetEncoded
    (snd ((portsPhase at_missing m ;;; bodyPhase at_missing m) s))
    (snd (runOnModule at_missing m s)).
Proof.
  unfold runOnModule, bind.
  destruct (portsPhase at_missing m s) as [[[]|] s1];
    [|apply resetEncoded_refl].
  destruct (bodyPhase at_missing m s1) as [[[]|] s2];
    [|apply resetEncoded_refl].
  pose proof (resetEncoded_registerTransitionPhase at_missing s2) as Hr.
  destruct (registerTransitionPhase at_missing s2) as [[[]|] s3];
    simpl in Hr |- *; [|exact Hr].
  eapply resetEncoded_trans; [exact Hr|].
  apply resetEncoded_print. reflexivity.
Qed.

Lemma leading_lids_length (ls : list Line) :
  (length (leading_lids ls) <= length ls)%nat.
Proof.
  induction ls as [|l ls IH]; simpl; [lia|].
  unfold leading_lids in *. simpl. destruct (leading l); simpl; lia.
Qed.

Lemma leading_elem (ls : list Line) l n :
  l ∈ ls -> leading l = Some n -> n ∈ leading_lids ls.
Proof.
  intros Hin Hl. unfold leading_lids. apply list_elem_of_omap.
  exists l. auto.
Qed.

Lemma lids_from_below l0 k n :
  0 <= l0 -> l0 + Z.of_nat k <= noLID -> n ∈ lids_from l0 k -> n < noLID.
Proof.
  intros H0 Hk Hin. unfold lids_from in Hin.
  apply list_elem_of_In, in_map_iff in Hin. destruct Hin as (i & <- & Hi).
  apply in_seq in Hi. unfold noLID in *.
  rewrite to_size_t_small by (unfold size_t_mod in *; lia). lia.
Qed.

(** A module without an input port named [reset], walked in a state
    whose reset line is the sentinel [noLID = 2^64 - 1]: the reset line
    stays the sentinel through the ports and the body and to the end of
    the module, and every [ite] line printed after the body, that is by
    the register transitions, has the sentinel as its condition. No line
    of the stream carries this identifier, as long as the counter stays
    below it. *)
Lemma reset_sentinel_from_state
    (at_missing : option Z) (m : HWModuleOp) (s : PassState) :
  resetLID s = noLID ->
  noResetPort m ->
  let sb := snd ((portsPhase at_missing m ;;; bodyPhase at_missing m) s) in
  let s' := snd (runOnModule at_missing m s) in
  resetLID sb = noLID /\
  resetLID s' = noLID /\
  (exists new,
     outs s' = outs sb ++ new /\
     forall n sid c t f, iteLine n sid c t f ∈ new -> c = noLID) /\
  (lid_ok s ->
   (forall l, l ∈ outs s -> leading l <> Some noLID) ->
   lid s + Z.of_nat (length (outs s')) <= noLID ->
   forall l, l ∈ outs s' -> leading l <> Some noLID).
Proof.
  intros Hs Hm sb s'.
  assert (Hsb : resetLID sb = noLID).
  { unfold sb, bind.
    pose proof (sameReset_portsPhase at_missing m s Hm) as Hp.
    destruct (portsPhase at_missing m s) as [[[]|] s1]; simpl in Hp |- *;
      [|congruence].
    pose proof (sameReset_bodyPhase at_missing m s1) as Hb.
    unfold sameReset in *. congruence. }
  destruct (runOnModule_after_body at_missing m s) as (Hr & new & Ho & Hi).
  fold sb s' in Hr, Ho, Hi.
  split; [exact Hsb|]. split; [congruence|].
  split.
  { exists new. split; [exact Ho|]. intros n sid c t f Hin.
    rewrite <- Hsb. eapply Hi, Hin. }
  intros Hok Hold Hlen l Hl Hlead.
  destruct (numbered_runOnModule at_missing m s Hok)
    as (_ & added & Ha & Hids & _).
  fold s' in Ha. rewrite Ha in Hl. apply elem_of_app in Hl.
  destruct Hl as [Hl|Hl]; [exact (Hold l Hl Hlead)|].
  pose proof (leading_elem _ _ _ Hl Hlead) as Hin. rewrite Hids in Hin.
  pose proof (leading_lids_length added) as Hle.
  rewrite Ha, length_app in Hlen.
  assert (noLID < noLID); [|lia].
  eapply lids_from_below; [| |exact Hin]; unfold lid_ok in Hok; lia.
Qed.

(** ** The sort keyword *)

Lemma genSort_outs at_missing ty w s :
  outs (snd (genSort at_missing ty w s)) = outs s \/
  outs (snd (genSort at_missing ty w s)) = outs s ++ [sortLine (lid s) ty w].
Proof.
  unfold genSort, bind, gets, at_.
  destruct (sortToLIDMap s !! w) as [sid|]; simpl.
  - destruct (decide (sid <> noLID)); simpl; auto.
  - destruct at_missing as [v|]; simpl; auto.
    destruct (decide (v <> noLID)); simpl; auto.
Qed.

(** The text of a sort line as [genSort] prints it for [bitvecStr], the
    only sort type the pass passes to it. *)
Lemma sort_line_text (l w : Z) :
  render_line (sortLine l bitvecStr w) =
    pretty l +:+ " sort bitvecStr " +:+ pretty w +:+ nl.
Proof. reflexivity. Qed.

(** ** Line-identifier lookup *)

Lemma getOpAlias_eq op s :
  getOpAlias op s = (Done (default op (opAliasMap s !! op)), s).
Proof.
  unfold getOpAlias, bind, gets. destruct (opAliasMap s !! op); reflexivity.
Qed.

Lemma resolve_one_step (m : gmap N N) op :
  (forall o, m !! op = Some o -> m !! o = None) ->
  resolve (size m) m op = default op (m !! op).
Proof.
  intros H. destruct (m !! op) as [o|] eqn:E; cbn [default].
  - destruct (size m) as [|n] eqn:En.
    + apply map_size_empty_inv in En. subst m.
      rewrite lookup_empty in E. discriminate.
    + cbn [resolve]. rewrite E. destruct n; cbn [resolve]; [reflexivity|].
      rewrite (H o eq_refl). reflexivity.
  - destruct (size m); cbn [resolve]; [reflexivity|]. rewrite E. reflexivity.
Qed.

(** C6 fails as stated: for the chain of wires [3 -> 2 -> 1], where
    operation [1] has line [4], the specified lookup yields [4] and the
    code yields [noLID]; the pass reaches such a state on the module
    [wireChain], whose assertion is then printed over the sentinel
    ([5 not 1 18446744073709551615]); and for a value that has no line at
    all the code returns [noLID] where the specified lookup asserts. *)
Lemma C6_lookup_counterexample :
  lookup_lid_spec (OpResult 3%N) chainState = (Done 4, chainState) /\
  getOpLID_Value (OpResult 3%N) chainState = (Done noLID, chainState) /\
  getOpLID 3%N chainState = (Done noLID, chainState) /\
  fst (lookup_lid_spec (OpResult 3%N)
         (snd (runOnOperation (Some noLID) [wireChain] initState))) =
    Done 4 /\
  fst (getOpLID_Value (OpResult 3%N)
         (snd (runOnOperation (Some noLID) [wireChain] initState))) =
    Done noLID /\
  map render_line
    (take 2 (drop 3 (outs (snd (runOnOperation (Some noLID) [wireChain]
                                  initState))))) =
    [ "4 and 1 2 3" +:+ nl; "5 not 1 18446744073709551615" +:+ nl ] /\
  lookup_lid_spec (OpResult 9%N) initState = (Aborted, initState) /\
  getOpLID_Value (OpResult 9%N) initState = (Done noLID, initState) /\
  noLID <> 4.
Proof. vm_compute. repeat split; congruence. Qed.

(** C6 (amended): when the alias entry of the operation, if there is one,
    names an operation that is not itself aliased, the lookup consults the
    op-to-LID map at the resolved operation; if no line is found and the
    value is a block argument, [inputLIDs] is consulted at its index; in
    every other case the lookup returns the sentinel [noLID] and the pass
    goes on, nothing is asserted. So a wire aliasing an operation that has
    a line resolves to that line. *)
Theorem C6_lookup_lid (s : PassState) (v : Value) :
  (forall o, opAliasMap s !! getDefiningOp v = Some o ->
             opAliasMap s !! o = None) ->
  let defOp :=
    resolve (size (opAliasMap s)) (opAliasMap s) (getDefiningOp v) in
  getOpLID_Value v s =
    (Done match opLIDMap s !! defOp with
          | Some l => l
          | None =>
              match v with
              | BlockArgument argIdx => default noLID (inputLIDs s !! argIdx)
              | OpResult _ => noLID
              end
          end, s) /\
  getOpLID (getDefiningOp v) s =
    (Done (default noLID (opLIDMap s !! defOp)), s) /\
  (forall w l,
     opLIDMap s !! getDefiningOp v = Some l ->
     opAliasMap s !! getDefiningOp v = None ->
     w <> getDefiningOp v ->
     getOpLID_Value (OpResult w)
       (snd (visit None {| addr := w; kind := WireOp v |} s)) =
     (Done l, snd (visit None {| addr := w; kind := WireOp v |} s))).
Proof.
  intros H defOp. unfold defOp. rewrite (resolve_one_step _ _ H).
  split; [|split].
  - unfold getOpLID_Value, bind. rewrite getOpAlias_eq. unfold gets.
    destruct (opLIDMap s !! _); [reflexivity|].
    destruct v; [reflexivity|]. destruct (inputLIDs s !! _); reflexivity.
  - unfold getOpLID, bind. rewrite getOpAlias_eq. unfold gets.
    destruct (opLIDMap s !! _); reflexivity.
  - intros w l Hl Ha Hw. unfold getOpLID_Value, bind.
    rewrite getOpAlias_eq. simpl. rewrite lookup_insert_eq. simpl.
    rewrite Hl. reflexivity.
Qed.

Lemma C6_lookup_lid_witness :
  getOpLID_Value (OpResult 2%N) chainState = (Done 4, chainState) /\
  getOpLID_Value (BlockArgument 0)
    (snd (portsPhase (Some noLID) singleAnd initState)) =
    (Done 2, snd (portsPhase (Some noLID) singleAnd initState)).
Proof.
  split.
  - refine (proj1 (C6_lookup_lid chainState (OpResult 2%N) _)).
    intros o Ho. vm_compute in Ho. injection Ho as <-. vm_compute. reflexivity.
  - refine (proj1 (C6_lookup_lid
              (snd (portsPhase (Some noLID) singleAnd initState))
              (BlockArgument 0) _)).
    intros o Ho. vm_compute in Ho. discriminate.
Defined.

End BTOR2Facts.

(** * Properties of the LTL-to-Core lowering *)

Module LTLToCoreFacts.
Import LTLToCore.

(** ** Rejected assertions *)

(** C8: when the NOI pattern matches and the length of the delay is not
    the constant 0 (another number, or none), and when none of the three
    patterns matches, the rewrite reports a match failure with its
    diagnostic and leaves the rewriter as it was: nothing is created,
    replaced or erased. *)
Theorem C8_match_failure_leaves_ir (ir : gmap N Operation) (op : N)
    (property : Value) (label : option string) (rw : Rewriter) :
  (forall b,
     matchPattern ir property patternNOI noBindings = (true, b) ->
     getLength ir (delayOp b) <> Some 0 ->
     Assert_matchAndRewrite ir op property label rw =
       (failure (delayOp b) " Delay must have a length of 0!", rw)) /\
  (forall b1 b2 b3,
     matchPattern ir property patternNOI noBindings = (false, b1) ->
     matchPattern ir property patternOI b1 = (false, b2) ->
     matchPattern ir property patternAssertProperty b2 = (false, b3) ->
     Assert_matchAndRewrite ir op property label rw =
       (failure (Some op) "AssertProperty format is invalid!", rw)).
Proof.
  split.
  - intros b Hm Hl. unfold Assert_matchAndRewrite. rewrite Hm.
    rewrite bool_decide_eq_false_2 by exact Hl. reflexivity.
  - intros b1 b2 b3 H1 H2 H3. unfold Assert_matchAndRewrite.
    rewrite H1. cbv beta iota. cbn [andb]. rewrite H2. cbv beta iota.
    rewrite H3. reflexivity.
Qed.

Lemma C8_match_failure_leaves_ir_witness :
  Assert_matchAndRewrite (irNOI 3 (Some 1)) 7 (OpResult 6 PropertyType)
    None rw0 =
    (failure (Some 2%N) " Delay must have a length of 0!", rw0) /\
  Assert_matchAndRewrite (irNOI 3 None) 7 (OpResult 6 PropertyType)
    None rw0 =
    (failure (Some 2%N) " Delay must have a length of 0!", rw0) /\
  Assert_matchAndRewrite irBare 2 (OpResult 1 PropertyType) None rw0 =
    (failure (Some 2%N) "AssertProperty format is invalid!", rw0).
Proof.
  split; [|split].
  - refine (proj1 (C8_match_failure_leaves_ir (irNOI 3 (Some 1)) 7
                     (OpResult 6 PropertyType) None rw0)
              (snd (matchPattern (irNOI 3 (Some 1)) (OpResult 6 PropertyType)
                      patternNOI noBindings)) _ _).
    + vm_compute. reflexivity.
    + vm_compute. discriminate.
  - refine (proj1 (C8_match_failure_leaves_ir (irNOI 3 None) 7
                     (OpResult 6 PropertyType) None rw0)
              (snd (matchPattern (irNOI 3 None) (OpResult 6 PropertyType)
                      patternNOI noBindings)) _ _).
    + vm_compute. reflexivity.
    + vm_compute. discriminate.
  - refine (proj2 (C8_match_failure_leaves_ir irBare 2
                     (OpResult 1 PropertyType) None rw0)
              (snd (matchPattern irBare (OpResult 1 PropertyType)
                      patternNOI noBindings))
              (snd (matchPattern irBare (OpResult 1 PropertyType)
                      patternOI noBindings))
              (snd (matchPattern irBare (OpResult 1 PropertyType)
                      patternAssertProperty noBindings)) _ _ _);
      vm_compute; reflexivity.
Defined.

(** ** Overlapping implication *)

Section OI.

Variable ir : gmap N Operation.
Variables (clockId disableId implId : N) (edge : ClockEdge).
Variables (a b d clk : Value) (tyC tyD tyI : Type_).

(** [clock(disable(implication(a, b), d), clk)] with 1-bit [a], [b], [d],
    [clk]. *)
Hypothesis clock_shape :
  ir !! clockId =
    Some {| kind := ClockOp edge;
            operands := [OpResult disableId tyD; clk] |}.
Hypothesis disable_shape :
  ir !! disableId =
    Some {| kind := DisableOp; operands := [OpResult implId tyI; d] |}.
Hypothesis impl_shape :
  ir !! implId = Some {| kind := ImplicationOp; operands := [a; b] |}.
Hypothesis a_bool : getType a = i1.
Hypothesis b_bool : getType b = i1.
Hypothesis d_bool : getType d = i1.
Hypothesis clk_bool : getType clk = i1.

Lemma matchOI_shape (b0 : Bindings) :
  matchPattern ir (OpResult clockId tyC) patternOI b0 =
    (true,
     set_clockOp clockId
       (set_ltlClock clk
          (set_disableOp disableId
             (set_disableCond d
                (set_implOp implId
                   (set_consequent b (set_antecedent a b0))))))).
Proof.
  unfold matchPattern, patternOI. cbn [matchValue getDefiningOp].
  rewrite clock_shape. cbn [kind operands isa_ClockOp length Nat.eqb andb].
  cbn [matchValue getDefiningOp].
  rewrite disable_shape.
  cbn [kind operands isa_DisableOp length Nat.eqb andb].
  cbn [matchValue getDefiningOp].
  rewrite impl_shape.
  cbn [kind operands isa_ImplicationOp length Nat.eqb andb].
  cbn [matchValue]. rewrite a_bool, b_bool, d_bool, clk_bool.
  reflexivity.
Qed.

(** What the rewrite produces for an overlapping implication. *)
Lemma matchAndRewrite_OI (op : N) (label : option string) (base : N) :
  fst (matchPattern ir (OpResult clockId tyC) patternNOI noBindings) = false ->
  let b1 := snd (matchPattern ir (OpResult clockId tyC) patternNOI
                   noBindings) in
  let cond := new base 3 i1 in
  Assert_matchAndRewrite ir op (OpResult clockId tyC) label
    (newRewriter base) =
  (success,
   {| firstId := base;
      created :=
        [ Constant i1 1;
          Xor a (new base 0 i1);
          Or (new base 1 i1) b;
          Or d (new base 2 i1);
          Always (ltlToSVEventControl edge) clk;
          SVAssert cond label (base + 4) ];
      replaced := [(disableId, cond); (op, new base 5 OtherType)];
      erased := [clockId; implId] ++ optList (concatOp b1)
                  ++ optList (delayOp b1) |}).
Proof.
  intros Hnoi b1 cond. unfold Assert_matchAndRewrite.
  destruct (matchPattern ir (OpResult clockId tyC) patternNOI noBindings)
    as [m b1'] eqn:E. simpl in Hnoi, b1. subst m b1.
  cbv beta iota. cbn [andb]. rewrite matchOI_shape. cbv beta iota.
  unfold makeImplication, emitAssert, visit_DisableOp, replaceOpWithNewOp,
    bind, create, replaceOp, ret, eraseOp_if, eraseOp, nextId, newRewriter.
  cbn. rewrite disable_shape, clock_shape. cbn.
  rewrite decide_False by discriminate. rewrite a_bool, d_bool.
  destruct (concatOp b1'), (delayOp b1'); reflexivity.
Qed.

(** C4: for [assert(clock(disable(implication(a, b), d), clk))] with 1-bit
    [a], [b], [d] that the NOI pattern does not match, the rewrite
    succeeds; the operations it creates are the constant 1 of type [i1],
    [a XOR 1], [(a XOR 1) OR b], [d OR ((a XOR 1) OR b)], the [always] on
    the clock and, in it, the immediate assertion of the last [OR], which
    also replaces the [disable]. In every valuation that agrees with the
    circuit and gives [a], [b], [d] the bits [x], [y], [z], the asserted
    condition has the value of [z || (negb x || y)]. *)
Theorem C4_overlapping_implication
    (op : N) (label : option string) (base : N) :
  fst (matchPattern ir (OpResult clockId tyC) patternNOI noBindings) = false ->
  let res := Assert_matchAndRewrite ir op (OpResult clockId tyC) label
               (newRewriter base) in
  let cond := new base 3 i1 in
  fst res = success /\
  created (snd res) =
    [ Constant i1 1;
      Xor a (new base 0 i1);
      Or (new base 1 i1) b;
      Or d (new base 2 i1);
      Always (ltlToSVEventControl edge) clk;
      SVAssert cond label (base + 4) ] /\
  replaced (snd res) = [(disableId, cond); (op, new base 5 OtherType)] /\
  (forall (val : Value -> Z) (x y z : bool),
     consistent (snd res) val ->
     val a = Z.b2z x -> val b = Z.b2z y -> val d = Z.b2z z ->
     val cond = Z.b2z (z || (negb x || y))).
Proof.
  intros Hnoi res cond. unfold res.
  rewrite (matchAndRewrite_OI op label base Hnoi). cbn [fst snd created replaced].
  split; [reflexivity|]. split; [reflexivity|]. split; [reflexivity|].
  intros val x y z Hc Ha Hb Hd.
  pose proof (Hc 0%nat _ _ eq_refl eq_refl) as H0.
  pose proof (Hc 1%nat _ _ eq_refl eq_refl) as H1.
  pose proof (Hc 2%nat _ _ eq_refl eq_refl) as H2.
  pose proof (Hc 3%nat _ _ eq_refl eq_refl) as H3.
  unfold new in H0, H1, H2, H3.
  cbn [firstId resultType getType opSem] in H0, H1, H2, H3.
  change (N.of_nat 0) with 0%N in H0.
  change (N.of_nat 1) with 1%N in H1.
  change (N.of_nat 2) with 2%N in H2.
  change (N.of_nat 3) with 3%N in H3.
  rewrite a_bool in H1. rewrite d_bool in H3.
  unfold cond, new. rewrite H3, H2, H1, H0, Ha, Hb, Hd.
  destruct x, y, z; reflexivity.
Qed.

End OI.

Lemma C4_overlapping_implication_witness :
  let res := Assert_matchAndRewrite irOI 4 (OpResult 3 PropertyType)
               (Some "lbl") rw0 in
  let val := evalV (snd res) (fun v => if decide (v = sig_a) then 1 else 0)
               6 (fun _ => 0) in
  fst res = success /\
  consistent (snd res) val /\
  val sig_a = 1 /\ val sig_b = 0 /\ val sig_d = 0 /\
  val (new 100 3 i1) = 0.
Proof.
  intros res val.
  destruct (C4_overlapping_implication irOI 3 2 1 Pos sig_a sig_b sig_d
              sig_clk PropertyType PropertyType PropertyType
              eq_refl eq_refl eq_refl eq_refl eq_refl eq_refl eq_refl
              4 (Some "lbl") 100 eq_refl) as (Hs & _ & _ & Hv).
  assert (Hc : consistent (snd res) val).
  { intros k op z Hk Hz.
    do 6 (destruct k as [|k];
          [vm_compute in Hk; injection Hk as <-; cbn [opSem] in Hz;
           first [ discriminate Hz
                 | injection Hz as <-; vm_compute; reflexivity ]|]).
    vm_compute in Hk. discriminate Hk. }
  split; [exact Hs|]. split; [exact Hc|].
  split; [reflexivity|]. split; [reflexivity|]. split; [reflexivity|].
  exact (Hv val true false false Hc eq_refl eq_refl eq_refl).
Defined.

(** ** has_been_reset *)

Lemma substValue_same old new' : substValue old new' old = new'.
Proof. unfold substValue. rewrite decide_True; reflexivity. Qed.

Lemma substValue_other old new' v :
  v <> old -> substValue old new' v = v.
Proof. intros H. unfold substValue. rewrite decide_False; auto. Qed.

Lemma usesOf_false v op :
  Forall (fun x => x <> v) (opOperands op) -> usesOf v op = false.
Proof.
  intros H. unfold usesOf. apply bool_decide_eq_false_2.
  intros Hin. rewrite Forall_forall in H. exact (H v Hin eq_refl).
Qed.

Lemma new_neq base k k' ty ty' : k <> k' -> new base k ty <> new base k' ty'.
Proof. unfold new. intros Hk H. injection H as H _. lia. Qed.

Lemma input_neq base v k ty : inputValue base v -> v <> new base k ty.
Proof.
  unfold new. intros Hv ->. specialize (Hv _ eq_refl). lia.
Qed.

Lemma null_neq base k ty : NullValue <> new base k ty.
Proof. discriminate. Qed.

Abbreviation mk := Build_Rewriter.

Lemma bind_create {B} op (k : Value -> R B) f c r e :
  bind (create op) k (mk f c r e) =
  k (OpResult (f + N.of_nat (length c)) (resultType op))
    (mk f (c ++ [op]) r e).
Proof. reflexivity. Qed.

Lemma bind_setValue {B} edge v (k : Value -> R B) f c r e :
  bind (Backedge_setValue edge v) k (mk f c r e) =
  k v (mk f (map (substOp edge v) c) r e).
Proof. reflexivity. Qed.

Lemma bind_replaceOp {B} op v (k : unit -> R B) f c r e :
  bind (replaceOp op v) k (mk f c r e) = k tt (mk f c (r ++ [(op, v)]) e).
Proof. reflexivity. Qed.

Lemma bind_eraseOp {B} op (k : unit -> R B) f c r e :
  bind (eraseOp op) k (mk f c r e) = k tt (mk f c r (e ++ [op])).
Proof. reflexivity. Qed.

Lemma bind_ret {A B} (a : A) (k : A -> R B) rw : bind (ret a) k rw = k a rw.
Proof. reflexivity. Qed.

Lemma bind_bind {A B C} (m : R A) (k : A -> R B) (h : B -> R C) rw :
  bind (bind m k) h rw = bind m (fun a => bind (k a) h) rw.
Proof. unfold bind. destruct (m rw). reflexivity. Qed.

(** A placeholder nothing uses any more is erased at scope exit. *)
Lemma bind_clear {B} edge id ty (k : unit -> R B) f c r e :
  edge = OpResult id ty ->
  Forall (fun op => Forall (fun x => x <> edge) (opOperands op)) c ->
  bind (BackedgeBuilder_clear edge) k (mk f c r e) =
  k tt (mk f c r (e ++ [id])).
Proof.
  intros -> H. unfold bind, BackedgeBuilder_clear. cbn [created].
  replace (existsb _ c) with false; [reflexivity|].
  symmetry. apply not_true_is_false. intros Hex.
  apply existsb_exists in Hex. destruct Hex as (op & Hin & Hu).
  rewrite Forall_forall in H. apply list_elem_of_In in Hin.
  rewrite (usesOf_false _ _ (H op Hin)) in Hu. discriminate.
Qed.

Ltac norm :=
  cbv beta;
  cbn [app length map substOp resultType getType].

Ltac run :=
  repeat (first [ rewrite bind_create | rewrite bind_bind
                | rewrite bind_setValue | rewrite bind_replaceOp
                | rewrite bind_eraseOp | rewrite bind_ret ]; norm).

Ltac neq :=
  first [ discriminate
        | apply new_neq; lia
        | apply input_neq; assumption ].

Ltac subst_values :=
  repeat first [ rewrite substValue_same
               | rewrite substValue_other by neq ].

(** What the rewrite produces for [has_been_reset]. *)
Lemma matchAndRewrite_hbr (op base : N) (clock reset : Value) :
  getType reset = i1 ->
  inputValue base reset ->
  inputValue base clock ->
  HasBeenReset_matchAndRewrite op clock reset (newRewriter base) =
  (success,
   {| firstId := base;
      created :=
        [ Constant i1 0;
          Constant i1 1;
          Placeholder i1;
          Or reset (new base 5 i1);
          ToClock clock;
          CompReg (new base 3 i1) (new base 4 ClockType) NullValue NullValue
            "hbr" (new base 0 i1);
          Xor reset (new base 1 i1);
          And (new base 5 i1) (new base 6 i1) ];
      replaced := [(op, new base 7 i1)];
      erased := [(base + 2)%N] |}).
Proof.
  intros Ht Hr Hc.
  unfold HasBeenReset_matchAndRewrite, BackedgeBuilder_get,
    createOrFold_ToClock, replaceOpWithNewOp, newRewriter.
  run. rewrite Ht.
  change (OpResult (base + N.of_nat ?k) ?t) with (new base (N.of_nat k) t).
  subst_values.
  erewrite bind_clear; [reflexivity | reflexivity |].
  repeat constructor; neq.
Qed.

Lemma hbrSample_simulate (resets : list bool) (st : N -> Z) (x : bool) :
  st 105%N = Z.b2z x ->
  simulate hbrSample st (new 100 7 i1)
    (map (fun r => cycle (Z.b2z r)) resets) =
  map Z.b2z (hbrTrace x resets).
Proof.
  revert st x. induction resets as [|r rs IH]; intros st x Hst; [reflexivity|].
  cbn [map simulate hbrTrace]. f_equal.
  - vm_compute evalV. rewrite Hst. destruct x, r; reflexivity.
  - apply IH. vm_compute nextState. rewrite Hst. destruct x, r; reflexivity.
Qed.

(** C3: lowering [has_been_reset(clock, reset)] creates a 1-bit register
    [hbr] on the clock, without reset operands, with input [reset OR hbr]
    and initial value the constant 0, and replaces the operation by
    [hbr AND (reset XOR 1)]; the placeholder of the back-edge is erased.
    In every valuation that agrees with the circuit, the output is the
    register's bit and not [reset], and the register's input is [reset] or
    the register's bit. Run over any sequence of reset bits, the sample
    circuit follows the contract [hbrTrace]; for
    reset = 1,1,0,0,1,0 its output is 0,0,1,1,0,1. *)
Theorem C3_has_been_reset (op base : N) (clock reset : Value) :
  getType reset = i1 ->
  inputValue base reset ->
  inputValue base clock ->
  let res := HasBeenReset_matchAndRewrite op clock reset (newRewriter base) in
  let reg := new base 5 i1 in
  let out := new base 7 i1 in
  fst res = success /\
  created (snd res) =
    [ Constant i1 0;
      Constant i1 1;
      Placeholder i1;
      Or reset reg;
      ToClock clock;
      CompReg (new base 3 i1) (new base 4 ClockType) NullValue NullValue
        "hbr" (new base 0 i1);
      Xor reset (new base 1 i1);
      And reg (new base 6 i1) ] /\
  replaced (snd res) = [(op, out)] /\
  erased (snd res) = [(base + 2)%N] /\
  (forall (val : Value -> Z) (r x : bool),
     consistent (snd res) val ->
     val reset = Z.b2z r -> val reg = Z.b2z x ->
     val out = Z.b2z (x && negb r) /\
     val (new base 3 i1) = Z.b2z (r || x) /\
     val (new base 0 i1) = 0) /\
  (forall resets,
     simulate hbrSample (initialState hbrSample) (new 100 7 i1)
       (map (fun r => cycle (Z.b2z r)) resets) =
     map Z.b2z (hbrTrace false resets)) /\
  simulate hbrSample (initialState hbrSample) (new 100 7 i1)
    (map cycle [1; 1; 0; 0; 1; 0]) = [0; 0; 1; 1; 0; 1].
Proof.
  intros Ht Hr Hc res reg out. unfold res.
  rewrite (matchAndRewrite_hbr op base clock reset Ht Hr Hc).
  cbn [fst snd created replaced erased].
  split; [reflexivity|]. split; [reflexivity|]. split; [reflexivity|].
  split; [reflexivity|]. split; [|split].
  - intros val r x Hv Hres Hreg.
    pose proof (Hv 0%nat _ _ eq_refl eq_refl) as H0.
    pose proof (Hv 1%nat _ _ eq_refl eq_refl) as H1.
    pose proof (Hv 3%nat _ _ eq_refl eq_refl) as H3.
    pose proof (Hv 6%nat _ _ eq_refl eq_refl) as H6.
    pose proof (Hv 7%nat _ _ eq_refl eq_refl) as H7.
    unfold new in H0, H1, H3, H6, H7.
    cbn [firstId resultType getType opSem] in H0, H1, H3, H6, H7.
    change (N.of_nat 0) with 0%N in H0.
    change (N.of_nat 1) with 1%N in H1.
    change (N.of_nat 3) with 3%N in H3.
    change (N.of_nat 6) with 6%N in H6.
    change (N.of_nat 7) with 7%N in H7.
    rewrite Ht in H3, H6.
    unfold out, reg, new in *.
    rewrite H7, H6, H3, H1, H0, Hres, Hreg.
    destruct r, x; repeat split; reflexivity.
  - intros resets. apply hbrSample_simulate. reflexivity.
  - vm_compute. reflexivity.
Qed.

Lemma C3_has_been_reset_witness :
  let res := HasBeenReset_matchAndRewrite 9 sig_a sig_b rw0 in
  let val := evalV (snd res) (cycle 1) 6
               (fun id => if decide (id = 105%N) then 1 else 0) in
  getType sig_b = i1 /\ inputValue 100 sig_b /\ inputValue 100 sig_a /\
  fst res = success /\
  consistent (snd res) val /\
  val (new 100 7 i1) = 0 /\ val (new 100 3 i1) = 1.
Proof.
  intros res val.
  assert (Hb : inputValue 100 sig_b) by (intros id H; discriminate H).
  assert (Ha : inputValue 100 sig_a) by (intros id H; discriminate H).
  destruct (C3_has_been_reset 9 100 sig_a sig_b eq_refl Hb Ha)
    as (Hs & _ & _ & _ & Hv & _).
  assert (Hc : consistent (snd res) val).
  { intros k op z Hk Hz.
    do 8 (destruct k as [|k];
          [vm_compute in Hk; injection Hk as <-; cbn [opSem] in Hz;
           first [ discriminate Hz
                 | injection Hz as <-; vm_compute; reflexivity ]|]).
    vm_compute in Hk. discriminate Hk. }
  split; [reflexivity|]. split; [exact Hb|]. split; [exact Ha|].
  split; [exact Hs|]. split; [exact Hc|].
  destruct (Hv val true true Hc eq_refl eq_refl) as (Ho & Hi & _).
  split; [exact Ho | exact Hi].
Defined.

(** ** Non-overlapping implication *)

Lemma bind_pipeline {B} idxs clock d rv aI (k : Value -> R B) f c r e :
  bind (antecedentPipeline idxs clock d rv aI) k (mk f c r e) =
  k (pipelineOut f (length c) aI idxs)
    (mk f (c ++ pipelineRegs clock d rv f (length c) aI idxs) r e).
Proof.
  revert aI c. induction idxs as [|i idxs IH]; intros aI c.
  - cbn [antecedentPipeline pipelineOut pipelineRegs].
    rewrite bind_ret, app_nil_r. reflexivity.
  - cbn [antecedentPipeline pipelineOut pipelineRegs].
    rewrite bind_bind, bind_create. cbv beta. rewrite IH.
    rewrite length_app, Nat.add_1_r, <- app_assoc. reflexivity.
Qed.

Lemma pipelineRegs_length clock d rv f pos aI idxs :
  length (pipelineRegs clock d rv f pos aI idxs) = length idxs.
Proof.
  revert pos aI. induction idxs as [|i idxs IH]; intros pos aI;
    cbn [pipelineRegs length]; [reflexivity|]. rewrite IH. reflexivity.
Qed.

Lemma pipelineOut_type f pos aI idxs :
  getType (pipelineOut f pos aI idxs) = getType aI.
Proof.
  revert pos aI. induction idxs as [|i idxs IH]; intros pos aI;
    cbn [pipelineOut]; [reflexivity|]. rewrite IH. reflexivity.
Qed.

(** The loop run over [s, s+1, ...]: register [j] of the pipeline takes
    the one before it. *)
Lemma pipelineRegs_lookup clock d rv f pos aI s m j :
  (j < m)%nat ->
  pipelineRegs clock d rv f pos aI (seq s m) !! j =
  Some (CompReg
          (match j with
           | O => aI
           | S j' => OpResult (f + N.of_nat (pos + j')) (getType aI)
           end)
          clock d rv ("antecedent_" +:+ pretty (Z.of_nat (s + j))) rv).
Proof.
  revert pos aI s j. induction m as [|m IH]; intros pos aI s j Hj; [lia|].
  cbn [seq pipelineRegs]. destruct j as [|j].
  - cbn. rewrite Nat.add_0_r. reflexivity.
  - cbn [lookup list_lookup]. rewrite IH by lia. cbn [getType].
    replace (S s + j)%nat with (s + S j)%nat by lia.
    destruct j as [|j].
    + replace (pos + 0)%nat with pos by lia. reflexivity.
    + replace (S pos + j)%nat with (pos + S j)%nat by lia. reflexivity.
Qed.

Lemma pipelineOut_seq f pos aI s m :
  pipelineOut f pos aI (seq s m) =
  match m with
  | O => aI
  | S m' => OpResult (f + N.of_nat (pos + m')) (getType aI)
  end.
Proof.
  revert pos aI s. induction m as [|m IH]; intros pos aI s; [reflexivity|].
  cbn [seq pipelineOut]. rewrite IH. cbn [getType]. destruct m as [|m].
  - replace (pos + 0)%nat with pos by lia. reflexivity.
  - replace (S pos + m)%nat with (pos + S m)%nat by lia. reflexivity.
Qed.

Lemma prefix_append (s t : string) : String.prefix s (s +:+ t) = true.
Proof.
  induction s as [|c s IH]; [destruct t; reflexivity|].
  change (String c s +:+ t) with (String c (s +:+ t)).
  cbn [String.prefix].
  destruct (Ascii.ascii_dec c c); [exact IH|contradiction].
Qed.

Lemma pipelineRegs_antecedent clock d rv f pos aI idxs :
  filter isAntecedentReg (pipelineRegs clock d rv f pos aI idxs) =
  pipelineRegs clock d rv f pos aI idxs.
Proof.
  revert pos aI. induction idxs as [|i idxs IH]; intros pos aI;
    cbn [pipelineRegs]; [reflexivity|].
  rewrite filter_cons_True
    by (cbn [isAntecedentReg]; rewrite prefix_append; exact I).
  rewrite IH. reflexivity.
Qed.

Lemma pipelineOut_last f p ty s m :
  pipelineOut f (S p) (OpResult (f + N.of_nat p) ty) (seq s m) =
  OpResult (f + N.of_nat (p + m)) ty.
Proof.
  rewrite pipelineOut_seq. cbn [getType]. destruct m as [|m].
  - rewrite Nat.add_0_r. reflexivity.
  - replace (S p + m)%nat with (p + S m)%nat by lia. reflexivity.
Qed.

Lemma pipelineRegs_unused edge clock d rv f pos aI idxs :
  clock <> edge -> d <> edge -> rv <> edge -> aI <> edge ->
  (forall k ty, (pos <= k)%nat -> OpResult (f + N.of_nat k) ty <> edge) ->
  Forall (fun op => Forall (fun x => x <> edge) (opOperands op))
    (pipelineRegs clock d rv f pos aI idxs).
Proof.
  intros Hc Hd Hrv. revert pos aI.
  induction idxs as [|i idxs IH]; intros pos aI Ha Hnew;
    cbn [pipelineRegs]; constructor.
  - cbn [opOperands]. repeat constructor; assumption.
  - apply IH; [apply Hnew; lia|]. intros k ty Hk. apply Hnew. lia.
Qed.

Section NOI.

Variable ir : gmap N Operation.
Variables (clockId disableId implId concatId delayId constId : N).
Variables (edge : ClockEdge) (a b d clk : Value).
Variables (tyC tyD tyI tyS tyL tyO : Type_) (n : Z) (len : option Z).

(** [clock(disable(implication(concat(a, delay(1, n, len)), b), d), clk)]
    with 1-bit [a], [b], [d], [clk]. *)
Hypothesis clock_shape :
  ir !! clockId =
    Some {| kind := ClockOp edge;
            operands := [OpResult disableId tyD; clk] |}.
Hypothesis disable_shape :
  ir !! disableId =
    Some {| kind := DisableOp; operands := [OpResult implId tyI; d] |}.
Hypothesis impl_shape :
  ir !! implId =
    Some {| kind := ImplicationOp;
            operands := [OpResult concatId tyS; b] |}.
Hypothesis concat_shape :
  ir !! concatId =
    Some {| kind := ConcatOp; operands := [a; OpResult delayId tyL] |}.
Hypothesis delay_shape :
  ir !! delayId =
    Some {| kind := DelayOp n len; operands := [OpResult constId tyO] |}.
Hypothesis const_shape : isConstantOne ir constId = true.
Hypothesis a_bool : getType a = i1.
Hypothesis b_bool : getType b = i1.
Hypothesis d_bool : getType d = i1.
Hypothesis clk_bool : getType clk = i1.

Local Abbreviation bindingsNOI :=
  (LTLToCore.bindingsNOI clockId disableId implId concatId delayId a b d clk).
Local Abbreviation noiPrefix := (LTLToCore.noiPrefix a d clk n).
Local Abbreviation noiSuffix := (LTLToCore.noiSuffix edge b d clk n).
Local Abbreviation noiCircuit := (LTLToCore.noiCircuit edge a b d clk n).

Lemma matchNOI_shape :
  matchPattern ir (OpResult clockId tyC) patternNOI noBindings =
    (true, bindingsNOI).
Proof.
  unfold matchPattern, patternNOI. cbn [matchValue getDefiningOp].
  rewrite clock_shape. cbn [kind operands isa_ClockOp length Nat.eqb andb].
  cbn [matchValue getDefiningOp].
  rewrite disable_shape.
  cbn [kind operands isa_DisableOp length Nat.eqb andb].
  cbn [matchValue getDefiningOp].
  rewrite impl_shape.
  cbn [kind operands isa_ImplicationOp length Nat.eqb andb].
  cbn [matchValue getDefiningOp].
  rewrite concat_shape.
  cbn [kind operands isa_ConcatOp length Nat.eqb andb].
  cbn [matchValue getDefiningOp].
  rewrite delay_shape.
  cbn [kind operands isa_DelayOp length Nat.eqb andb].
  cbn [matchValue getDefiningOp].
  rewrite const_shape, a_bool, b_bool, d_bool, clk_bool.
  reflexivity.
Qed.

(** What the rewrite produces for a non-overlapping implication. *)
Lemma matchAndRewrite_NOI (op : N) (label : option string) (base : N) :
  len = Some 0 -> 1 <= n < 2 ^ 64 ->
  inputValue base a -> inputValue base b -> inputValue base d ->
  inputValue base clk ->
  let m := Z.to_nat (n - 1) in
  Assert_matchAndRewrite ir op (OpResult clockId tyC) label
    (newRewriter base) =
  (success,
   {| firstId := base;
      created := noiCircuit label base m;
      replaced :=
        [ (disableId, OpResult (base + N.of_nat (17 + m)%nat) i1);
          (op, OpResult (base + N.of_nat (19 + m)%nat) OtherType) ];
      erased := [(base + 2)%N; clockId; implId; concatId; delayId] |}).
Proof.
  intros Hlen Hn Ha Hb Hd Hclk m.
  unfold Assert_matchAndRewrite. rewrite matchNOI_shape.
  cbv beta iota.
  assert (HL : getLength ir (delayOp bindingsNOI) = Some 0).
  { cbn [LTLToCore.bindingsNOI delayOp set_clockOp set_ltlClock set_disableOp
         set_disableCond set_implOp set_consequent set_concatOp set_delayOp
         getLength].
    rewrite delay_shape. exact Hlen. }
  rewrite HL. rewrite bool_decide_eq_true_2 by reflexivity.
  cbn [andb negb].
  assert (HD : getDelay ir (Some delayId) = n).
  { cbn [getDelay]. rewrite delay_shape. reflexivity. }
  assert (HW : (Log2_64 n + 1) mod 2 ^ 32 = Z.log2 n + 1).
  { unfold Log2_64. destruct (Z.eqb_spec n 0); [lia|].
    assert (Z.log2 n < 64) by (apply Z.log2_lt_pow2; lia).
    pose proof (Z.log2_nonneg n). apply Z.mod_small. lia. }
  unfold makeNonOverlappingImplication, emitAssert, visit_DisableOp,
    BackedgeBuilder_get, createOrFold_ToClock, replaceOpWithNewOp,
    newRewriter, eraseOp_if.
  cbn [LTLToCore.bindingsNOI delayOp clockOp disableOp implOp concatOp antecedent
       consequent disableCond disableInput ltlClock
       set_clockOp set_ltlClock set_disableOp set_disableInput
       set_disableCond set_implOp set_consequent set_concatOp set_delayOp
       set_antecedent noBindings].
  rewrite HD, HW. fold m.
  cbn [operandOf getEdge]. rewrite clock_shape, disable_shape.
  cbn [getOperand operands nth].
  rewrite a_bool. cbn [isIntegerType i1].
  run.
  change (OpResult (base + N.of_nat ?k) ?t) with (new base (N.of_nat k) t).
  subst_values.
  unfold new.
  rewrite bind_pipeline. norm. rewrite !a_bool.
  rewrite (pipelineOut_last base 10 i1 1 m).
  run.
  rewrite !length_app, pipelineRegs_length, length_seq.
  cbn [length Nat.add].
  erewrite bind_clear; [|reflexivity|].
  2:{ repeat (apply Forall_cons; split;
              [cbn [opOperands]; repeat constructor; neq|]).
      repeat (apply Forall_app; split);
        try (repeat constructor; neq).
      apply pipelineRegs_unused; try neq.
      intros k ty Hk H. injection H as H _. lia. }
  rewrite bind_ret. cbv beta iota. cbn [negb].
  rewrite decide_False by discriminate.
  run.
  rewrite !length_app, pipelineRegs_length, length_seq.
  cbn [length Nat.add default getDefiningOp].
  rewrite <- !app_assoc. cbn [app].
  unfold LTLToCore.noiCircuit, LTLToCore.noiPrefix, LTLToCore.noiSuffix. cbn [app].
  repeat f_equal;
    first [ reflexivity | exact d_bool | lia | unfold id; f_equal; lia ].
Qed.

Lemma noiCircuit_prefix label base m k :
  (k < 11)%nat -> noiCircuit label base m !! k = noiPrefix base !! k.
Proof.
  intros Hk. unfold LTLToCore.noiCircuit. apply lookup_app_l. exact Hk.
Qed.

Lemma noiCircuit_regs label base m j :
  (j < m)%nat ->
  noiCircuit label base m !! (11 + j)%nat =
  Some (CompReg (OpResult (base + N.of_nat (10 + j)) i1)
          (OpResult (base + N.of_nat 7) ClockType) d
          (OpResult (base + N.of_nat 9) i1)
          ("antecedent_" +:+ pretty (Z.of_nat (S j)))
          (OpResult (base + N.of_nat 9) i1)).
Proof.
  intros Hj. unfold LTLToCore.noiCircuit.
  rewrite lookup_app_r by (cbn [LTLToCore.noiPrefix length]; lia).
  cbn [LTLToCore.noiPrefix length]. replace (11 + j - 11)%nat with j by lia.
  rewrite lookup_app_l by (rewrite pipelineRegs_length, length_seq; lia).
  rewrite pipelineRegs_lookup by lia. cbn [getType].
  destruct j as [|j]; [reflexivity|].
  replace (11 + j)%nat with (10 + S j)%nat by lia. reflexivity.
Qed.

Lemma noiCircuit_suffix label base m k :
  noiCircuit label base m !! (11 + m + k)%nat = noiSuffix label base m !! k.
Proof.
  unfold LTLToCore.noiCircuit.
  rewrite lookup_app_r by (cbn [LTLToCore.noiPrefix length]; lia).
  cbn [LTLToCore.noiPrefix length].
  rewrite lookup_app_r by (rewrite pipelineRegs_length, length_seq; lia).
  rewrite pipelineRegs_length, length_seq. f_equal. lia.
Qed.

Lemma noiCircuit_antecedents label base m :
  length (filter isAntecedentReg (noiCircuit label base m)) = S m.
Proof.
  unfold LTLToCore.noiCircuit. rewrite !filter_app, !length_app.
  rewrite pipelineRegs_antecedent, pipelineRegs_length, length_seq.
  replace (length (filter isAntecedentReg (noiPrefix base))) with 1%nat
    by reflexivity.
  replace (length (filter isAntecedentReg (noiSuffix label base m)))
    with 0%nat by reflexivity.
  lia.
Qed.

Lemma bits_small w z : 0 <= z < 2 ^ w -> bits (IntegerType w) z = z.
Proof. intros H. cbn [bits]. apply Z.mod_small. exact H. Qed.

Lemma noi_semantics label base m rp er (val : Value -> Z) (c : Z)
    (x y z : bool) :
  1 <= n ->
  consistent {| firstId := base; created := noiCircuit label base m;
                replaced := rp; erased := er |} val ->
  let W := IntegerType (Z.log2 n + 1) in
  let v := fun (k : nat) (ty : Type_) => OpResult (base + N.of_nat k) ty in
  val (v 8%nat W) = c ->
  val (v (10 + m)%nat i1) = Z.b2z x ->
  val b = Z.b2z y ->
  val d = Z.b2z z ->
  val (v 0%nat W) = 0 /\
  val (v 9%nat i1) = 0 /\
  val (v 6%nat W) =
    (if c =? n then n else (c + 1) mod 2 ^ (Z.log2 n + 1)) /\
  val (v (16 + m)%nat i1) = Z.b2z ((c <? n) || (negb x || y) || z) /\
  val (v (17 + m)%nat i1) = Z.b2z ((c <? n) || (negb x || y) || z).
Proof.
  intros Hn Hc W v Hcount Ha Hb Hd. subst W v. cbv beta in *.
  assert (Hlog : 0 <= Z.log2 n) by apply Z.log2_nonneg.
  assert (Hpow : 2 ^ 1 <= 2 ^ (Z.log2 n + 1))
    by (apply Z.pow_le_mono_r; lia).
  assert (Hnlt : n < 2 ^ (Z.log2 n + 1)).
  { replace (Z.log2 n + 1) with (Z.succ (Z.log2 n)) by lia.
    apply Z.log2_spec. lia. }
  pose proof (fun k op z0 H => Hc k op z0 H) as Hc'.
  cbn [created firstId] in Hc'.
  pose proof (Hc' 0%nat _ _
                (eq_trans (noiCircuit_prefix label base m 0 ltac:(lia))
                          eq_refl) eq_refl) as H0.
  pose proof (Hc' 1%nat _ _
                (eq_trans (noiCircuit_prefix label base m 1 ltac:(lia))
                          eq_refl) eq_refl) as H1.
  pose proof (Hc' 3%nat _ _
                (eq_trans (noiCircuit_prefix label base m 3 ltac:(lia))
                          eq_refl) eq_refl) as H3.
  pose proof (Hc' 4%nat _ _
                (eq_trans (noiCircuit_prefix label base m 4 ltac:(lia))
                          eq_refl) eq_refl) as H4.
  pose proof (Hc' 5%nat _ _
                (eq_trans (noiCircuit_prefix label base m 5 ltac:(lia))
                          eq_refl) eq_refl) as H5.
  pose proof (Hc' 6%nat _ _
                (eq_trans (noiCircuit_prefix label base m 6 ltac:(lia))
                          eq_refl) eq_refl) as H6.
  pose proof (Hc' 9%nat _ _
                (eq_trans (noiCircuit_prefix label base m 9 ltac:(lia))
                          eq_refl) eq_refl) as H9.
  pose proof (Hc' (11 + m + 0)%nat _ _
                (eq_trans (noiCircuit_suffix label base m 0) eq_refl)
                eq_refl) as S0.
  pose proof (Hc' (11 + m + 1)%nat _ _
                (eq_trans (noiCircuit_suffix label base m 1) eq_refl)
                eq_refl) as S1.
  pose proof (Hc' (11 + m + 2)%nat _ _
                (eq_trans (noiCircuit_suffix label base m 2) eq_refl)
                eq_refl) as S2.
  pose proof (Hc' (11 + m + 3)%nat _ _
                (eq_trans (noiCircuit_suffix label base m 3) eq_refl)
                eq_refl) as S3.
  pose proof (Hc' (11 + m + 4)%nat _ _
                (eq_trans (noiCircuit_suffix label base m 4) eq_refl)
                eq_refl) as S4.
  pose proof (Hc' (11 + m + 5)%nat _ _
                (eq_trans (noiCircuit_suffix label base m 5) eq_refl)
                eq_refl) as S5.
  pose proof (Hc' (11 + m + 6)%nat _ _
                (eq_trans (noiCircuit_suffix label base m 6) eq_refl)
                eq_refl) as S6.
  cbn [resultType getType opSem] in H0, H1, H3, H4, H5, H6, H9,
    S0, S1, S2, S3, S4, S5, S6.
  rewrite d_bool in S6. unfold i1 in *.
  replace (11 + m + 0)%nat with (11 + m)%nat in S0 by lia.
  replace (11 + m + 1)%nat with (12 + m)%nat in S1 by lia.
  replace (11 + m + 2)%nat with (13 + m)%nat in S2 by lia.
  replace (11 + m + 3)%nat with (14 + m)%nat in S3 by lia.
  replace (11 + m + 4)%nat with (15 + m)%nat in S4 by lia.
  replace (11 + m + 5)%nat with (16 + m)%nat in S5 by lia.
  replace (11 + m + 6)%nat with (17 + m)%nat in S6 by lia.
  rewrite bits_small in H0 by lia.
  rewrite bits_small in H1 by lia.
  rewrite bits_small in H4 by lia.
  change (bits (IntegerType 1) 0) with 0 in H9.
  change (bits (IntegerType 1) 1) with 1 in S1.
  rewrite Hcount, H4 in H5, S0. rewrite Hcount, H1 in H3.
  rewrite H5, H4, H3 in H6.
  rewrite Ha, S1 in S2. rewrite S2, Hb in S3. rewrite S0, S3 in S4.
  rewrite S4, Hd in S5. rewrite Hd, S5 in S6.
  split; [exact H0|]. split; [exact H9|].
  split.
  { rewrite H6. cbn [bits]. destruct (c =? n); reflexivity. }
  split.
  { rewrite S5. destruct (c <? n), x, y, z; reflexivity. }
  rewrite S6. destruct (c <? n), x, y, z; reflexivity.
Qed.

(** X24: for an assertion matched as a non-overlapping implication with
    delay [n >= 1] (and delay length 0) the rewrite succeeds and builds:
    the register [delay_] of width [log2 n + 1] (operation 8), reset by
    [d] to the constant 0, whose next value is [0] when [d] is high and
    otherwise [n] if it holds [n] and its value plus one if not; exactly
    [n] antecedent registers [antecedent_0 .. antecedent_(n-1)]
    (operations 10 ..), the first fed by [a] and each other by the one
    before it, each reset by [d] to the constant 0; and the condition
    [(count < n) OR ((NOT a_(n-1)) OR b) OR d] (operation [15 + n]), which
    the asserted value [d OR condition] (operation [16 + n], asserted by
    the last operation) equals. *)
Theorem noi_circuit_structure
    (op : N) (label : option string) (base : N) :
  len = Some 0 -> 1 <= n < 2 ^ 64 ->
  inputValue base a -> inputValue base b -> inputValue base d ->
  inputValue base clk ->
  let res := Assert_matchAndRewrite ir op (OpResult clockId tyC) label
               (newRewriter base) in
  let m := Z.to_nat (n - 1) in
  let W := IntegerType (Z.log2 n + 1) in
  let v := fun (k : nat) (ty : Type_) => OpResult (base + N.of_nat k) ty in
  let counter :=
    CompReg (v 6%nat W) (v 7%nat ClockType) d (v 0%nat W) "delay_"
      (v 0%nat W) in
  let input := fun (i : nat) =>
    match i with O => a | S j => v (10 + j)%nat i1 end in
  let stage := fun (i : nat) =>
    CompReg (input i) (v 7%nat ClockType) d (v 9%nat i1)
      ("antecedent_" +:+ pretty (Z.of_nat i)) (v 9%nat i1) in
  fst res = success /\
  created (snd res) !! 8%nat = Some counter /\
  length (filter isAntecedentReg (created (snd res))) = Z.to_nat n /\
  (forall i, (i < Z.to_nat n)%nat ->
             created (snd res) !! (10 + i)%nat = Some (stage i)) /\
  created (snd res) !! (19 + m)%nat =
    Some (SVAssert (v (17 + m)%nat i1) label
            (base + N.of_nat (18 + m))%N) /\
  (forall (val : Value -> Z) (c : Z) (x y z : bool),
     consistent (snd res) val ->
     val (v 8%nat W) = c ->
     val (v (10 + m)%nat i1) = Z.b2z x ->
     val b = Z.b2z y ->
     val d = Z.b2z z ->
     registerNext val counter =
       Some (if z then 0
             else if c =? n then n
             else (c + 1) mod 2 ^ (Z.log2 n + 1)) /\
     (forall i, registerNext val (stage i) =
                Some (if z then 0 else val (input i))) /\
     val (v (16 + m)%nat i1) = Z.b2z ((c <? n) || (negb x || y) || z) /\
     val (v (17 + m)%nat i1) = Z.b2z ((c <? n) || (negb x || y) || z)).
Proof.
  intros Hlen Hn Ha Hb Hd Hclk res m W v counter input stage.
  unfold res.
  rewrite (matchAndRewrite_NOI op label base Hlen Hn Ha Hb Hd Hclk).
  fold m. cbn [fst snd created].
  assert (Hm : Z.to_nat n = S m) by (unfold m; lia).
  split; [reflexivity|].
  split; [rewrite noiCircuit_prefix by lia; reflexivity|].
  split; [rewrite noiCircuit_antecedents; lia|].
  split.
  { intros i Hi. destruct i as [|j].
    - rewrite noiCircuit_prefix by lia. reflexivity.
    - replace (10 + S j)%nat with (11 + j)%nat by lia.
      rewrite noiCircuit_regs by lia. reflexivity. }
  split.
  { replace (19 + m)%nat with (11 + m + 8)%nat by lia.
    rewrite noiCircuit_suffix. reflexivity. }
  intros val c x y z Hc Hcount Hx Hy Hz.
  destruct (noi_semantics label base m _ _ val c x y z ltac:(lia) Hc
              Hcount Hx Hy Hz) as (H0 & H9 & H6 & Hcond & Hassert).
  assert (Hdn : bool_decide (d = NullValue) = false).
  { apply bool_decide_eq_false_2. intros Heq. rewrite Heq in d_bool.
    discriminate d_bool. }
  assert (Hd1 : (val d =? 1) = z) by (rewrite Hz; destruct z; reflexivity).
  split.
  { unfold counter, v, W. cbn [registerNext].
    rewrite Hdn, Hd1. cbn [negb andb]. rewrite H0, H6. reflexivity. }
  split.
  { intros i. unfold stage. cbn [registerNext].
    rewrite Hdn, Hd1. cbn [negb andb]. unfold v. rewrite H9. reflexivity. }
  split; assumption.
Qed.

End NOI.

(** C2 (the code departs from it): at delay 0, for [a ##0 true |-> b],
    the rewrite succeeds and lowers the property as it does a delay of
    one cycle: the pipeline has one antecedent register, not none, and
    the counter is 0 bits wide. The asserted value is then computed from
    the registered antecedent: in the first cycle, with [a] high and [b]
    and [d] low, it is 1. *)
Theorem C2_delay_zero :
  let res := Assert_matchAndRewrite (irNOI 0 (Some 0)) 7
               (OpResult 6 PropertyType) None rw0 in
  let val := evalV (snd res) (fun v => if decide (v = sig_a) then 1 else 0)
               (fuelFor (snd res)) (initialState (snd res)) in
  fst res = success /\
  created (snd res) !! 8%nat =
    Some (CompReg (new 100 6 (IntegerType 0)) (new 100 7 ClockType) sig_d
            (new 100 0 (IntegerType 0)) "delay_"
            (new 100 0 (IntegerType 0))) /\
  filter isAntecedentReg (created (snd res)) =
    [ CompReg sig_a (new 100 7 ClockType) sig_d (new 100 9 i1)
        "antecedent_0" (new 100 9 i1) ] /\
  length (filter isAntecedentReg (created (snd res))) <> Z.to_nat 0 /\
  created (snd res) !! 19%nat = Some (SVAssert (new 100 17 i1) None 118) /\
  val sig_a = 1 /\ val sig_b = 0 /\ val sig_d = 0 /\
  val (new 100 17 i1) = 1.
Proof.
  vm_compute. repeat split; discriminate.
Qed.

Lemma noi_circuit_structure_witness :
  let res := Assert_matchAndRewrite (irNOI 3 (Some 0)) 7
               (OpResult 6 PropertyType) None rw0 in
  let st := fun id : N =>
    if decide (id = 108%N) then 3 else if decide (id = 112%N) then 1 else 0 in
  let val := evalV (snd res) (fun _ => 0) 10 st in
  fst res = success /\
  length (filter isAntecedentReg (created (snd res))) = 3%nat /\
  consistent (snd res) val /\
  registerNext val
    (CompReg (new 100 6 (IntegerType 2)) (new 100 7 ClockType) sig_d
       (new 100 0 (IntegerType 2)) "delay_" (new 100 0 (IntegerType 2))) =
    Some 3 /\
  val (new 100 19 i1) = 0.
Proof.
  intros res st val.
  assert (Hin : forall v, getDefiningOp v = None -> inputValue 100 v)
    by (intros v Hv id Hid; congruence).
  assert (H6 : irNOI 3 (Some 0) !! 6%N =
               Some {| kind := ClockOp Pos;
                       operands := [OpResult 5 PropertyType; sig_clk] |})
    by (vm_compute; reflexivity).
  assert (H5 : irNOI 3 (Some 0) !! 5%N =
               Some {| kind := DisableOp;
                       operands := [OpResult 4 PropertyType; sig_d] |})
    by (vm_compute; reflexivity).
  assert (H4 : irNOI 3 (Some 0) !! 4%N =
               Some {| kind := ImplicationOp;
                       operands := [OpResult 3 SequenceType; sig_b] |})
    by (vm_compute; reflexivity).
  assert (H3 : irNOI 3 (Some 0) !! 3%N =
               Some {| kind := ConcatOp;
                       operands := [sig_a; OpResult 2 SequenceType] |})
    by (vm_compute; reflexivity).
  assert (H2 : irNOI 3 (Some 0) !! 2%N =
               Some {| kind := DelayOp 3 (Some 0);
                       operands := [OpResult 1 i1] |})
    by (vm_compute; reflexivity).
  assert (H1 : isConstantOne (irNOI 3 (Some 0)) 1 = true)
    by (vm_compute; reflexivity).
  pose proof (noi_circuit_structure (irNOI 3 (Some 0)) 6 5 4 3 2 1
                Pos sig_a sig_b sig_d sig_clk
                PropertyType PropertyType PropertyType SequenceType
                SequenceType i1 3 (Some 0)
                H6 H5 H4 H3 H2 H1 eq_refl eq_refl eq_refl eq_refl
                7 None 100 eq_refl ltac:(lia)
                (Hin sig_a eq_refl) (Hin sig_b eq_refl) (Hin sig_d eq_refl)
                (Hin sig_clk eq_refl)) as Hthm.
  cbv zeta in Hthm. destruct Hthm as (Hs & _ & Hlen & _ & _ & Hv).
  assert (Hc : consistent (snd res) val).
  { intros k op z Hk Hz.
    do 22 (destruct k as [|k];
           [vm_compute in Hk; injection Hk as <-; vm_compute in Hz;
            lazymatch type of Hz with
            | None = _ => discriminate Hz
            | Some _ = _ => injection Hz as <-; vm_compute; reflexivity
            end|]).
    vm_compute in Hk. discriminate Hk. }
  assert (Hcount : val (OpResult (100 + N.of_nat 8)
                          (IntegerType (Z.log2 3 + 1))) = 3)
    by (vm_compute; reflexivity).
  assert (Hlast : val (OpResult (100 + N.of_nat (10 + Z.to_nat (3 - 1)))
                         i1) = Z.b2z true)
    by (vm_compute; reflexivity).
  assert (Hb : val sig_b = Z.b2z false) by (vm_compute; reflexivity).
  assert (Hd : val sig_d = Z.b2z false) by (vm_compute; reflexivity).
  destruct (Hv val 3 true false false Hc Hcount Hlast Hb Hd)
    as (Hnext & _ & _ & Hassert).
  change (Z.log2 3 + 1) with 2 in Hnext.
  change (N.of_nat 6) with 6%N in Hnext.
  change (N.of_nat 7) with 7%N in Hnext.
  change (N.of_nat 0) with 0%N in Hnext.
  change (N.of_nat (17 + Z.to_nat (3 - 1))) with 19%N in Hassert.
  split; [exact Hs|]. split; [exact Hlen|]. split; [exact Hc|].
  unfold new. split; [exact Hnext | exact Hassert].
Defined.

End LTLToCoreFacts.

(** * Further properties of the HW-to-BTOR2 pass *)

Module BTOR2Props.
Import BTOR2 BTOR2Facts.

(** ** References between the lines *)

Section Keeps.
Variable at_missing : option Z.
Hypothesis at_policy : forall v, at_missing = Some v -> v = noLID.

Lemma keeps_ret {A} vs (a : A) Q :
  (forall v, v ∈ Q a -> v ∈ vs) -> keeps vs (ret a) Q.
Proof.
  intros HQ s Hi Hv. cbn. split; [exact Hi|]. split; [auto|].
  intros a' [= <-]. apply Forall_forall. intros v Hin.
  rewrite Forall_forall in Hv. auto.
Qed.

Lemma keeps_abort {A} vs Q : keeps vs (@abort A) Q.
Proof.
  intros s Hi Hv. cbn. split; [exact Hi|]. split; [auto|]. discriminate.
Qed.

Lemma keeps_bind {A B} vs (m : M A) (k : A -> M B) Q1 Q :
  keeps vs m Q1 -> (forall a, keeps (Q1 a ++ vs) (k a) Q) ->
  keeps vs (bind m k) Q.
Proof.
  intros Hm Hk s Hi Hv. unfold bind.
  destruct (Hm s Hi Hv) as (Hi1 & Hst & HQ).
  destruct (m s) as [[a|] s1]; cbn in *.
  - assert (Hv1 : Forall (known s1) (Q1 a ++ vs)).
    { apply Forall_app. split; [apply HQ; reflexivity|].
      eapply Forall_impl; [exact Hv|]. auto. }
    destruct (Hk a s1 Hi1 Hv1) as (Hi2 & Hst2 & HQ2).
    split; [exact Hi2|]. split; [auto|]. exact HQ2.
  - split; [exact Hi1|]. split; [auto|]. discriminate.
Qed.

Lemma keeps_weaken {A} vs vs' (m : M A) Q :
  (forall v, v ∈ vs' -> v ∈ vs) -> keeps vs' m Q -> keeps vs m Q.
Proof.
  intros Hsub Hm s Hi Hv. apply Hm; [exact Hi|].
  apply Forall_forall. intros v Hin. rewrite Forall_forall in Hv. auto.
Qed.

Lemma keeps_post {A} vs (m : M A) (Q Q' : A -> list Z) :
  (forall a v, v ∈ Q' a -> v ∈ Q a) -> keeps vs m Q -> keeps vs m Q'.
Proof.
  intros Hsub Hm s Hi Hv. destruct (Hm s Hi Hv) as (H1 & H2 & H3).
  split; [exact H1|]. split; [exact H2|]. intros a Ha.
  apply Forall_forall. intros v Hin. specialize (H3 a Ha).
  rewrite Forall_forall in H3. eauto.
Qed.

Lemma keeps_assert vs b : keeps vs (assert_ b) (fun _ => []).
Proof.
  destruct b; [apply keeps_ret; intros v Hv; inversion Hv | apply keeps_abort].
Qed.

Lemma keeps_forM {A} vs (l : list A) (f : A -> M unit) :
  (forall x, keeps vs (f x) (fun _ => [])) ->
  keeps vs (forM_ l f) (fun _ => []).
Proof.
  intros Hf. induction l as [|x l IH]; cbn [forM_].
  - apply keeps_ret. intros v Hv. inversion Hv.
  - eapply keeps_bind; [apply Hf|]. intros []. exact IH.
Qed.

Lemma leading_lids_snoc ls l :
  leading_lids (ls ++ [l]) =
    leading_lids ls ++ from_option (fun n => [n]) [] (leading l).
Proof.
  unfold leading_lids. rewrite omap_app. cbn. destruct (leading l); reflexivity.
Qed.

Lemma known_same s s' v :
  lid s' = lid s -> outs s' = outs s -> known s v -> known s' v.
Proof. unfold known. intros -> ->. auto. Qed.

Lemma known_emit rest s v : known s v -> known (snd (emit rest s)) v.
Proof.
  unfold known. cbn. rewrite leading_lids_snoc. cbn.
  intros [H|[H|H]]; [auto| |].
  - right. right. apply elem_of_app. right. subst. apply list_elem_of_here.
  - right. right. apply elem_of_app. left. exact H.
Qed.

Lemma known_print l s v :
  leading l = None -> known s v -> known (snd (print l s)) v.
Proof.
  unfold known. cbn. rewrite leading_lids_snoc. intros ->. cbn.
  rewrite app_nil_r. auto.
Qed.

Lemma tablesKnown_step s s' :
  (forall v, known s v -> known s' v) ->
  sortToLIDMap s' = sortToLIDMap s -> constToLIDMap s' = constToLIDMap s ->
  opLIDMap s' = opLIDMap s -> inputLIDs s' = inputLIDs s ->
  resetLID s' = resetLID s ->
  tablesKnown s -> tablesKnown s'.
Proof.
  intros Hk E1 E2 E3 E4 E5 (H1 & H2 & H3 & H4 & H5).
  unfold tablesKnown. rewrite E1, E2, E3, E4, E5.
  repeat split; eauto.
Qed.

Lemma lineOperands_lead n n' rest :
  lineOperands (FNum n :: rest) = lineOperands (FNum n' :: rest).
Proof. reflexivity. Qed.

Lemma refsClosed_snoc ls l :
  refsClosed ls ->
  (forall v, v ∈ lineOperands l ->
             v = noLID \/ v ∈ leading_lids (ls ++ [l])) ->
  refsClosed (ls ++ [l]).
Proof.
  intros Hc Hl i l' v Hi Hv.
  destruct (decide (i < length ls)%nat) as [Hlt|Hge].
  - rewrite lookup_app_l in Hi by exact Hlt.
    rewrite take_app_le by lia. eapply Hc; eassumption.
  - rewrite lookup_app_r in Hi by lia.
    destruct (i - length ls)%nat as [|j] eqn:E; cbn in Hi; [|discriminate].
    injection Hi as <-. rewrite take_ge by (rewrite length_app; cbn; lia).
    auto.
Qed.

Lemma keeps_emit vs rest :
  (forall v, v ∈ lineOperands (FNum 0 :: rest) -> v ∈ vs) ->
  keeps vs (emit rest) (fun _ => []).
Proof.
  intros Hops s [Ht Hc] Hv.
  split; [|split; [apply known_emit | intros; constructor]].
  split.
  - eapply tablesKnown_step; [apply known_emit|..|exact Ht]; reflexivity.
  - cbn. apply refsClosed_snoc; [exact Hc|].
    intros v Hin. rewrite (lineOperands_lead _ 0) in Hin.
    apply Hops in Hin. rewrite Forall_forall in Hv.
    destruct (Hv v Hin) as [H|[H|H]]; [auto| |].
    + right. rewrite leading_lids_snoc. cbn. apply elem_of_app. right.
      subst. apply list_elem_of_here.
    + right. rewrite leading_lids_snoc. apply elem_of_app. left. exact H.
Qed.

Lemma keeps_print vs l :
  leading l = None -> lineOperands l = [] -> keeps vs (print l) (fun _ => []).
Proof.
  intros Hl Ho s [Ht Hc] Hv.
  split; [|split; [intros v; apply known_print; exact Hl
                   | intros; constructor]].
  split.
  - eapply tablesKnown_step;
      [intros v; apply known_print; exact Hl|..|exact Ht]; reflexivity.
  - cbn. apply refsClosed_snoc; [exact Hc|]. rewrite Ho.
    intros v Hin. inversion Hin.
Qed.

(** Reading a table, with the behaviour of [at] on a missing key. *)
Lemma keeps_sort_at {A} vs w (k : Z -> M A) Q :
  (forall x, keeps (x :: vs) (k x) Q) ->
  keeps vs (bind (gets sortToLIDMap) (fun m => bind (at_ at_missing m w) k)) Q.
Proof.
  intros Hk s Hi Hv. unfold bind, gets, at_. cbn.
  destruct (sortToLIDMap s !! w) as [x|] eqn:E; cbn.
  - apply Hk; [exact Hi|]. constructor; [|exact Hv].
    destruct Hi as [(H1 & _) _]. eauto.
  - destruct at_missing as [x|] eqn:Ea; cbn.
    + apply Hk; [exact Hi|]. constructor; [|exact Hv].
      left. auto.
    + split; [exact Hi|]. split; [auto|]. discriminate.
Qed.

Lemma keeps_const_at {A} vs c (k : Z -> M A) Q :
  (forall x, keeps (x :: vs) (k x) Q) ->
  keeps vs (bind (gets constToLIDMap) (fun m => bind (at_ at_missing m c) k)) Q.
Proof.
  intros Hk s Hi Hv. unfold bind, gets, at_. cbn.
  destruct (constToLIDMap s !! c) as [x|] eqn:E; cbn.
  - apply Hk; [exact Hi|]. constructor; [|exact Hv].
    destruct Hi as [(_ & H2 & _) _]. eauto.
  - destruct at_missing as [x|] eqn:Ea; cbn.
    + apply Hk; [exact Hi|]. constructor; [|exact Hv].
      left. auto.
    + split; [exact Hi|]. split; [auto|]. discriminate.
Qed.

Lemma keeps_resetLID {A} vs (k : Z -> M A) Q :
  (forall x, keeps (x :: vs) (k x) Q) ->
  keeps vs (bind (gets resetLID) k) Q.
Proof.
  intros Hk s Hi Hv. unfold bind, gets. cbn.
  apply Hk; [exact Hi|]. constructor; [|exact Hv].
  destruct Hi as [(_ & _ & _ & _ & H5) _]. exact H5.
Qed.

Lemma keeps_getOpLID vs op : keeps vs (getOpLID op) (fun l => [l]).
Proof.
  intros s Hi Hv. unfold getOpLID, getOpAlias, bind, gets. cbn.
  destruct (opAliasMap s !! op) as [o|]; cbn;
    (destruct (opLIDMap s !! _) as [l|] eqn:E; cbn;
     (split; [exact Hi|]; split; [auto|]; intros a [= <-];
      constructor; [|constructor])).
  all: try (left; reflexivity).
  all: destruct Hi as [(_ & _ & H3 & _) _]; eauto.
Qed.

Lemma keeps_getOpLID_Value vs v : keeps vs (getOpLID_Value v) (fun l => [l]).
Proof.
  intros s Hi Hv. unfold getOpLID_Value, getOpAlias, bind, gets. cbn.
  destruct Hi as [(H1 & H2 & H3 & H4 & H5) Hc].
  assert (Hi : refsInv s) by (repeat split; assumption).
  destruct (opAliasMap s !! getDefiningOp v) as [o|]; cbn;
    (destruct (opLIDMap s !! _) as [l|] eqn:E; cbn;
     [ split; [exact Hi|]; split; [auto|]; intros a [= <-];
       constructor; [eauto|constructor]
     | destruct v as [p|i]; cbn;
       [ split; [exact Hi|]; split; [auto|]; intros a [= <-];
         constructor; [left; reflexivity|constructor]
       | destruct (inputLIDs s !! i) as [l|] eqn:E'; cbn;
         (split; [exact Hi|]; split; [auto|]; intros a [= <-];
          constructor; [|constructor]); [eauto | left; reflexivity] ] ]).
Qed.

Lemma known_lid s : known s (lid s).
Proof. right. left. reflexivity. Qed.

Lemma keeps_setOpLID vs op : keeps vs (setOpLID op) (fun _ => []).
Proof.
  unfold setOpLID. destruct (decide _);
    [|apply keeps_ret; intros v Hv; inversion Hv].
  intros s [(H1 & H2 & H3 & H4 & H5) Hc] Hv. cbn.
  split; [|split; [auto | intros; constructor]].
  split; [|exact Hc]. repeat split; try assumption.
  cbn. intros o v Ho. apply lookup_insert_Some in Ho.
  destruct Ho as [[_ <-]|[_ Ho]]; [exact (known_lid s) | ].
  first [ exact (H1 _ _ Ho) | exact (H2 _ _ Ho) | exact (H3 _ _ Ho)
        | exact (H4 _ _ Ho) ].
Qed.

Lemma keeps_setOpAlias vs a op : keeps vs (setOpAlias a op) (fun _ => []).
Proof.
  intros s Hi Hv. cbn. split; [exact Hi|]. split; [auto | intros; constructor].
Qed.

Lemma keeps_setSort vs w :
  keeps vs
    (modify (fun s => set_sortToLIDMap (<[w := lid s]> (sortToLIDMap s)) s))
    (fun _ => []).
Proof.
  intros s [(H1 & H2 & H3 & H4 & H5) Hc] Hv. cbn.
  split; [|split; [auto | intros; constructor]].
  split; [|exact Hc]. repeat split; try assumption.
  cbn. intros o v Ho. apply lookup_insert_Some in Ho.
  destruct Ho as [[_ <-]|[_ Ho]]; [exact (known_lid s) | ].
  first [ exact (H1 _ _ Ho) | exact (H2 _ _ Ho) | exact (H3 _ _ Ho)
        | exact (H4 _ _ Ho) ].
Qed.

Lemma keeps_setConst vs c :
  keeps vs
    (modify (fun s =>
       set_constToLIDMap (<[c := lid s]> (constToLIDMap s)) s))
    (fun _ => []).
Proof.
  intros s [(H1 & H2 & H3 & H4 & H5) Hc] Hv. cbn.
  split; [|split; [auto | intros; constructor]].
  split; [|exact Hc]. repeat split; try assumption.
  cbn. intros o v Ho. apply lookup_insert_Some in Ho.
  destruct Ho as [[_ <-]|[_ Ho]]; [exact (known_lid s) | ].
  first [ exact (H1 _ _ Ho) | exact (H2 _ _ Ho) | exact (H3 _ _ Ho)
        | exact (H4 _ _ Ho) ].
Qed.

Lemma keeps_setInput vs i :
  keeps vs (modify (fun s => set_inputLIDs (<[i := lid s]> (inputLIDs s)) s))
    (fun _ => []).
Proof.
  intros s [(H1 & H2 & H3 & H4 & H5) Hc] Hv. cbn.
  split; [|split; [auto | intros; constructor]].
  split; [|exact Hc]. repeat split; try assumption.
  cbn. intros o v Ho. apply lookup_insert_Some in Ho.
  destruct Ho as [[_ <-]|[_ Ho]]; [exact (known_lid s) | ].
  first [ exact (H1 _ _ Ho) | exact (H2 _ _ Ho) | exact (H3 _ _ Ho)
        | exact (H4 _ _ Ho) ].
Qed.

Lemma keeps_setReset vs :
  keeps vs (modify (fun s => set_resetLID (lid s) s)) (fun _ => []).
Proof.
  intros s [(H1 & H2 & H3 & H4 & H5) Hc] Hv. cbn.
  split; [|split; [auto | intros; constructor]].
  split; [|exact Hc]. repeat split; try assumption. exact (known_lid s).
Qed.

Lemma keeps_pushReg vs o :
  keeps vs (modify (fun s => set_regOps (regOps s ++ [o]) s)) (fun _ => []).
Proof.
  intros s Hi Hv. cbn. split; [exact Hi|]. split; [auto | intros; constructor].
Qed.

Lemma lineOperands_numbers n a kw rest v :
  v ∈ lineOperands (FNum n :: FStr a :: FStr kw :: rest) ->
  v ∈ numbersOf rest.
Proof.
  cbn [lineOperands]. repeat destruct (decide _); intros H.
  - inversion H.
  - eapply subseteq_take; exact H.
  - eapply subseteq_take; exact H.
  - exact H.
Qed.

Ltac ops_finish H :=
  repeat match type of H with
         | _ ∈ [] => inversion H
         | _ ∈ _ :: _ => apply elem_of_cons in H; destruct H as [->|H]
         end;
  cbn; repeat (first [ apply list_elem_of_here | apply list_elem_of_further ]).

Ltac ops :=
  let v := fresh "v" in let H := fresh "H" in
  intros v H;
  first
    [ solve [ match type of H with
              | ?x ∈ ?l =>
                  let l' := eval vm_compute in l in change (x ∈ l') in H
              end; ops_finish H ]
    | solve [ apply lineOperands_numbers in H; cbn in H; ops_finish H ] ].

Ltac kp_known := fail.

Ltac kp :=
  repeat first
    [ kp_known
    | apply keeps_sort_at; intros ?
    | apply keeps_const_at; intros ?
    | apply keeps_resetLID; intros ?
    | apply keeps_getOpLID | apply keeps_getOpLID_Value
    | apply keeps_setOpLID | apply keeps_setOpAlias
    | apply keeps_setSort | apply keeps_setConst | apply keeps_setInput
    | apply keeps_setReset | apply keeps_pushReg
    | apply keeps_assert | apply keeps_abort
    | apply keeps_emit; ops
    | apply keeps_ret; ops
    | eapply keeps_bind; [| intros ?]
    | match goal with
      | |- keeps _ (if ?x then _ else _) _ => destruct x
      | |- keeps _ (match ?x with _ => _ end) _ => destruct x
      end ].

Lemma keeps_genSort vs ty w : keeps vs (genSort at_missing ty w) (fun _ => []).
Proof. unfold genSort. kp. Qed.

Lemma keeps_sortLID vs w : keeps vs (sortLID at_missing w) (fun sid => [sid]).
Proof. unfold sortLID. kp. Qed.

Ltac kp_known ::=
  first [ apply keeps_genSort | apply keeps_sortLID ].

Lemma keeps_genZero vs w : keeps vs (genZero at_missing w) (fun _ => []).
Proof. unfold genZero. kp. Qed.

Lemma keeps_genInput vs w n : keeps vs (genInput at_missing w n) (fun _ => []).
Proof. unfold genInput. kp. Qed.

Lemma keeps_genConst vs v w o :
  keeps vs (genConst at_missing v w o) (fun _ => []).
Proof. unfold genConst. kp. Qed.

Lemma keeps_genBinOp vs i o a b w :
  keeps vs (genBinOp at_missing i o a b w) (fun _ => []).
Proof. unfold genBinOp. kp. Qed.

Lemma keeps_genSlice vs o v l w :
  keeps vs (genSlice at_missing o v l w) (fun _ => []).
Proof. unfold genSlice. kp. Qed.

Lemma keeps_genUnaryOp vs o o0 i w :
  keeps vs (genUnaryOp at_missing o o0 i w) (fun _ => []).
Proof. unfold genUnaryOp. kp. Qed.

Lemma keeps_genBad vs o : keeps vs (genBad o) (fun _ => []).
Proof. unfold genBad. kp. Qed.

Lemma keeps_genConstraint vs e : keeps vs (genConstraint e) (fun _ => []).
Proof. unfold genConstraint. kp. Qed.

Lemma keeps_genIte_Value vs o c t f w :
  keeps vs (genIte_Value at_missing o c t f w) (fun _ => []).
Proof. unfold genIte_Value. kp. Qed.

Lemma keeps_genImplies vs o l r :
  keeps vs (genImplies at_missing o l r) (fun _ => []).
Proof. unfold genImplies. kp. Qed.

Lemma keeps_genState vs o w n :
  keeps vs (genState at_missing o w n) (fun _ => []).
Proof. unfold genState. kp. Qed.

Lemma keeps_genNext vs n r w :
  keeps vs (genNext at_missing n r w) (fun _ => []).
Proof. unfold genNext. kp. Qed.

Lemma keeps_requireSort vs t :
  keeps vs (requireSort at_missing t) (fun _ => []).
Proof. unfold requireSort. kp. Qed.

Ltac kp_known ::=
  first [ apply keeps_genSort | apply keeps_sortLID | apply keeps_genZero
        | apply keeps_genInput | apply keeps_genConst | apply keeps_genBinOp
        | apply keeps_genSlice | apply keeps_genUnaryOp | apply keeps_genBad
        | apply keeps_genConstraint | apply keeps_genIte_Value
        | apply keeps_genImplies | apply keeps_genState | apply keeps_genNext
        | apply keeps_requireSort ].

Lemma keeps_visit_port vs p : keeps vs (visit_port at_missing p) (fun _ => []).
Proof. unfold visit_port. kp. Qed.

Lemma keeps_visit vs o : keeps vs (visit at_missing o) (fun _ => []).
Proof. unfold visit, genUnaryOp_Value. kp. Qed.

Lemma keeps_genRegTransition vs r :
  keeps vs (genRegTransition at_missing r) (fun _ => []).
Proof.
  unfold genRegTransition. kp.
Qed.

Lemma keeps_runOnModule vs m :
  keeps vs (runOnModule at_missing m) (fun _ => []).
Proof.
  unfold runOnModule, portsPhase, bodyPhase, registerTransitionPhase.
  eapply keeps_bind; [apply keeps_forM, keeps_visit_port | intros ?].
  eapply keeps_bind; [apply keeps_forM, keeps_visit | intros ?].
  eapply keeps_bind.
  { intros s Hi Hv. unfold bind, gets.
    apply (keeps_forM _ (regOps s) _ (keeps_genRegTransition _) s Hi Hv). }
  intros ?. apply keeps_print; reflexivity.
Qed.

Lemma keeps_runOnOperation vs ms :
  keeps vs (runOnOperation at_missing ms) (fun _ => []).
Proof. apply keeps_forM, keeps_runOnModule. Qed.

End Keeps.

(** X1: every line identifier a printed line refers to (its sort and its
    operands) is the sentinel [noLID] or the identifier of this line or of
    a line printed before it, when [DenseMap::at] aborts or yields the
    sentinel on a missing key. *)
Theorem references_resolved (at_missing : option Z) (ms : list HWModuleOp) :
  (forall v, at_missing = Some v -> v = noLID) ->
  refsClosed (outs (snd (runOnOperation at_missing ms initState))).
Proof.
  intros Hp.
  destruct (keeps_runOnOperation at_missing Hp [] ms initState) as ([_ H] & _).
  - split.
    + repeat split; cbn;
        try (intros ? ? H; apply lookup_empty_Some in H; contradiction).
      left. reflexivity.
    + intros i l v Hi. cbn in Hi. destruct i; discriminate Hi.
  - constructor.
  - exact H.
Qed.

(** ** Sort lines *)

Lemma sortWidths_app a b : sortWidths (a ++ b) = sortWidths a ++ sortWidths b.
Proof. apply omap_app. Qed.

Lemma sortWidths_single l :
  sortWidths [l] = match sortWidth l with Some w => [w] | None => [] end.
Proof.
  unfold sortWidths, omap. cbn [list_omap]. destruct (sortWidth l); reflexivity.
Qed.

Lemma sortsOnce_refl s : sortsOnce s s.
Proof.
  exists []. rewrite app_nil_r. split; [reflexivity|]. split; [auto|].
  intros _. split; [constructor|]. intros w Hw. inversion Hw.
Qed.

Lemma sortRecorded_kept s s' w :
  (forall w, sortRecorded s w -> sortToLIDMap s' !! w = sortToLIDMap s !! w) ->
  sortRecorded s w -> sortRecorded s' w.
Proof.
  intros H Hw. destruct (Hw) as (sid & Hs & Hn). exists sid.
  rewrite (H w Hw). auto.
Qed.

Lemma sortsOnce_trans a b c : sortsOnce a b -> sortsOnce b c -> sortsOnce a c.
Proof.
  intros (n1 & Ho1 & Hk1 & Hu1) (n2 & Ho2 & Hk2 & Hu2).
  exists (n1 ++ n2). split; [rewrite Ho2, Ho1, app_assoc; reflexivity|].
  split.
  { intros w Hw. rewrite (Hk2 w (sortRecorded_kept _ _ _ Hk1 Hw)). auto. }
  intros Hno.
  destruct Hu1 as [Hd1 Hr1]; [intros l Hl; apply Hno, elem_of_app; auto|].
  destruct Hu2 as [Hd2 Hr2]; [intros l Hl; apply Hno, elem_of_app; auto|].
  rewrite sortWidths_app. split.
  - apply NoDup_app. split; [exact Hd1|]. split; [|exact Hd2].
    intros w Hw1 Hw2. destruct (Hr1 w Hw1) as [_ Hb].
    destruct (Hr2 w Hw2) as [Hnb _]. exact (Hnb Hb).
  - intros w Hw. apply elem_of_app in Hw. destruct Hw as [Hw|Hw].
    + destruct (Hr1 w Hw) as [Hna Hb]. split; [exact Hna|].
      exact (sortRecorded_kept _ _ _ Hk2 Hb).
    + destruct (Hr2 w Hw) as [Hnb Hc]. split; [|exact Hc].
      intros Ha. exact (Hnb (sortRecorded_kept _ _ _ Hk1 Ha)).
Qed.

Lemma sortsOnce_same s s' :
  sortToLIDMap s' = sortToLIDMap s -> outs s' = outs s -> sortsOnce s s'.
Proof.
  intros Hs Ho. exists []. rewrite app_nil_r. split; [exact Ho|].
  split; [intros; rewrite Hs; reflexivity|].
  intros _. split; [constructor|]. intros w Hw. inversion Hw.
Qed.

Lemma noSort_num rest k : rest !! 3%nat = Some (FNum k) -> noSort rest.
Proof.
  intros H n. destruct rest as [|f0 [|f1 [|f2 [|f3 rest]]]]; try discriminate.
  cbn in H. injection H as ->. cbn.
  destruct f0, f1, f2; reflexivity.
Qed.

Lemma sortsOnce_emit rest s : noSort rest -> sortsOnce s (snd (emit rest s)).
Proof.
  intros Hn. exists [FNum (lid s) :: rest]. split; [reflexivity|].
  split; [reflexivity|]. intros _. rewrite sortWidths_single, Hn.
  split; [constructor|]. intros w Hw. inversion Hw.
Qed.

Lemma sortsOnce_print l s : leading l = None -> sortsOnce s (snd (print l s)).
Proof.
  intros Hl. exists [l]. split; [reflexivity|]. split; [reflexivity|].
  intros _. rewrite sortWidths_single.
  assert (sortWidth l = None) as ->.
  { destruct l as [|[] ?]; [reflexivity|discriminate|reflexivity]. }
  split; [constructor|]. intros w Hw. inversion Hw.
Qed.

Lemma sortsOnce_genSort at_missing ty w s :
  sortsOnce s (snd (genSort at_missing ty w s)).
Proof.
  destruct (genSort_cases at_missing ty w s) as [->|[Hn ->]];
    [apply sortsOnce_refl|].
  exists [sortLine (lid s) ty w]. split; [reflexivity|].
  split.
  { intros w' Hw'. cbn. apply lookup_insert_ne. intros ->. exact (Hn Hw'). }
  intros Hno. cbn. split; [repeat constructor; intros H; inversion H|].
  intros w' Hw'. apply list_elem_of_singleton in Hw'. subst w'.
  split; [exact Hn|]. exists (lid s). cbn. split; [apply lookup_insert_eq|].
  intros Heq. apply (Hno (sortLine (lid s) ty w));
    [apply list_elem_of_here | cbn; congruence].
Qed.

Lemma sortsOnce_genZero at_missing w s :
  sortsOnce s (snd (genZero at_missing w s)).
Proof.
  destruct (genZero_cases at_missing w s) as [->|[Hn [sid ->]]];
    [apply sortsOnce_refl|].
  exists [zeroLine (lid s) sid]. split; [reflexivity|].
  split; [reflexivity|]. intros _. cbn.
  split; [constructor|]. intros w' Hw'. inversion Hw'.
Qed.

Lemma sortsOnce_runOnOperation at_missing ms s :
  sortsOnce s (snd (runOnOperation at_missing ms s)).
Proof.
  revert s.
  apply (respects_runOnOperation at_missing sortsOnce sortsOnce_refl
           sortsOnce_trans noSort); intros;
  first
    [ eapply noSort_num; eassumption
    | intros ?; apply sortsOnce_emit; assumption
    | intros ?; apply sortsOnce_print; assumption
    | intros ?; apply sortsOnce_genSort
    | intros ?; apply sortsOnce_genZero
    | apply sortsOnce_same; reflexivity ].
Qed.

(** X3: in the stream of a run from the initial state that has fewer than
    [2^64 - 1] lines, no two sort lines declare the same width. *)
Theorem sort_lines_unique (at_missing : option Z) (ms : list HWModuleOp) :
  let s' := snd (runOnOperation at_missing ms initState) in
  Z.of_nat (length (outs s')) < noLID ->
  NoDup (sortWidths (outs s')) /\
  forall w, w ∈ sortWidths (outs s') -> sortRecorded s' w.
Proof.
  intros s' Hlen.
  destruct (sortsOnce_runOnOperation at_missing ms initState)
    as (new & Ho & _ & Hu).
  fold s' in Ho, Hu. cbn in Ho. rewrite Ho in *.
  assert (H0 : lid_ok initState)
    by (unfold lid_ok; cbn; split; [lia|reflexivity]).
  destruct (numbered_runOnOperation at_missing ms initState H0)
    as (_ & added & Ha & Hids & _).
  fold s' in Ha. cbn in Ha. rewrite Ho in Ha. subst added.
  destruct Hu as [Hd Hr].
  { intros l Hl Hlead. pose proof (leading_elem _ _ _ Hl Hlead) as Hin.
    rewrite Hids in Hin. pose proof (leading_lids_length new) as Hle.
    assert (noLID < noLID); [|lia].
    eapply lids_from_below; [| |exact Hin]; cbn; lia. }
  split; [exact Hd|]. intros w Hw. apply Hr. exact Hw.
Qed.

(** ** The null operation *)

Section Invariant.

Variable at_missing : option Z.
Variable Inv : PassState -> Prop.
Variable okOp : N -> Prop.

Local Abbreviation kept := (invariant Inv).

Lemma kept_ret {A} (a : A) : kept (ret a).
Proof. intros s H. exact H. Qed.

Lemma kept_abort {A} : kept (@abort A).
Proof. intros s H. exact H. Qed.

Lemma kept_gets {A} (f : PassState -> A) : kept (gets f).
Proof. intros s H. exact H. Qed.

Lemma kept_assert b : kept (assert_ b).
Proof. destruct b; [apply kept_ret | apply kept_abort]. Qed.

Lemma kept_at `{Countable K} (m : gmap K Z) k : kept (at_ at_missing m k).
Proof.
  unfold at_. destruct (m !! k); [apply kept_ret|].
  destruct at_missing; [apply kept_ret | apply kept_abort].
Qed.

Lemma kept_bind {A B} (m : M A) (k : A -> M B) :
  kept m -> (forall a, kept (k a)) -> kept (bind m k).
Proof.
  intros Hm Hk s Hi. unfold bind. specialize (Hm s Hi).
  destruct (m s) as [[a|] s1]; cbn in *; [apply Hk; exact Hm | exact Hm].
Qed.

Lemma kept_forM {A} (l : list A) (f : A -> M unit) :
  (forall x, x ∈ l -> kept (f x)) -> kept (forM_ l f).
Proof.
  induction l as [|x l IH]; intros Hf; cbn [forM_].
  - apply kept_ret.
  - apply kept_bind; [apply Hf, list_elem_of_here|]. intros _. apply IH.
    intros y Hy. apply Hf, list_elem_of_further, Hy.
Qed.

(** What the property has to grant for the updates of the pass. *)
Hypothesis I_emit : forall rest, kept (emit rest).
Hypothesis I_print : forall l, kept (print l).
Hypothesis I_setOpLID : forall op, kept (setOpLID op).
Hypothesis I_setOpAlias : forall a op, okOp a -> kept (setOpAlias a op).
Hypothesis I_sort :
  forall w s, Inv s ->
    Inv (set_sortToLIDMap (<[w := lid s]> (sortToLIDMap s)) s).
Hypothesis I_const :
  forall c s, Inv s ->
    Inv (set_constToLIDMap (<[c := lid s]> (constToLIDMap s)) s).
Hypothesis I_input :
  forall i s, Inv s -> Inv (set_inputLIDs (<[i := lid s]> (inputLIDs s)) s).
Hypothesis I_reset : forall s, Inv s -> Inv (set_resetLID (lid s) s).
Hypothesis I_pushReg :
  forall o s, Inv s -> Inv (set_regOps (regOps s ++ [o]) s).

Ltac kept_known := fail.

Ltac kp :=
  repeat first
    [ kept_known
    | apply kept_ret | apply kept_abort | apply kept_gets
    | apply kept_assert | apply kept_at
    | apply I_emit | apply I_print | apply I_setOpLID
    | apply I_setOpAlias; assumption
    | apply kept_bind; [| intros ?]
    | match goal with
      | |- kept (modify _) =>
          let s := fresh "s" in let H := fresh "H" in
          intros s H; cbn [modify snd];
          first [ apply I_sort | apply I_const | apply I_input
                | apply I_reset | apply I_pushReg ]; exact H
      | |- kept (if ?x then _ else _) => destruct x
      | |- kept (match ?x with _ => _ end) => destruct x
      end ].

Lemma kept_getOpAlias op : kept (getOpAlias op).
Proof. unfold getOpAlias. kp. Qed.

Ltac kept_known ::= first [ apply kept_getOpAlias ].

Lemma kept_getOpLID op : kept (getOpLID op).
Proof. unfold getOpLID. kp. Qed.

Lemma kept_getOpLID_Value v : kept (getOpLID_Value v).
Proof. unfold getOpLID_Value. kp. Qed.

Lemma kept_genSort ty w : kept (genSort at_missing ty w).
Proof. unfold genSort. kp. Qed.

Lemma kept_sortLID w : kept (sortLID at_missing w).
Proof. unfold sortLID. kp. Qed.

Ltac kept_known ::=
  first [ apply kept_getOpAlias | apply kept_getOpLID
        | apply kept_getOpLID_Value | apply kept_genSort
        | apply kept_sortLID ].

Lemma kept_genZero w : kept (genZero at_missing w).
Proof. unfold genZero. kp. Qed.

Lemma kept_genInput w n : kept (genInput at_missing w n).
Proof. unfold genInput. kp. Qed.

Lemma kept_genConst v w o : kept (genConst at_missing v w o).
Proof. unfold genConst. kp. Qed.

Lemma kept_genBinOp i o a b w : kept (genBinOp at_missing i o a b w).
Proof. unfold genBinOp. kp. Qed.

Lemma kept_genSlice o v l w : kept (genSlice at_missing o v l w).
Proof. unfold genSlice. kp. Qed.

Lemma kept_genUnaryOp o o0 i w : kept (genUnaryOp at_missing o o0 i w).
Proof. unfold genUnaryOp. kp. Qed.

Lemma kept_genBad o : kept (genBad o).
Proof. unfold genBad. kp. Qed.

Lemma kept_genConstraint e : kept (genConstraint e).
Proof. unfold genConstraint. kp. Qed.

Lemma kept_genIte_Value o c t f w :
  kept (genIte_Value at_missing o c t f w).
Proof. unfold genIte_Value. kp. Qed.

Lemma kept_genIte o c t f w : kept (genIte at_missing o c t f w).
Proof. unfold genIte. kp. Qed.

Lemma kept_genImplies o l r : kept (genImplies at_missing o l r).
Proof. unfold genImplies. kp. Qed.

Lemma kept_genState o w n : kept (genState at_missing o w n).
Proof. unfold genState. kp. Qed.

Lemma kept_genNext n r w : kept (genNext at_missing n r w).
Proof. unfold genNext. kp. Qed.

Lemma kept_requireSort t : kept (requireSort at_missing t).
Proof. unfold requireSort. kp. Qed.

Ltac kept_known ::=
  first [ apply kept_getOpAlias | apply kept_getOpLID
        | apply kept_getOpLID_Value | apply kept_genSort
        | apply kept_sortLID | apply kept_genZero | apply kept_genInput
        | apply kept_genConst | apply kept_genBinOp | apply kept_genSlice
        | apply kept_genUnaryOp | apply kept_genBad | apply kept_genConstraint
        | apply kept_genIte_Value | apply kept_genIte | apply kept_genImplies
        | apply kept_genState | apply kept_genNext | apply kept_requireSort ].

Lemma kept_visit_port p : kept (visit_port at_missing p).
Proof. unfold visit_port. kp. Qed.

Lemma kept_visit o : okOp (addr o) -> kept (visit at_missing o).
Proof. intros Hok. unfold visit, genUnaryOp_Value. kp. Qed.

Lemma kept_genRegTransition r : kept (genRegTransition at_missing r).
Proof. unfold genRegTransition. kp. Qed.

Lemma kept_runOnModule m :
  (forall o, o ∈ walk m -> okOp (addr o)) -> kept (runOnModule at_missing m).
Proof.
  intros Hm. unfold runOnModule, portsPhase, bodyPhase, registerTransitionPhase.
  apply kept_bind; [apply kept_forM; intros; apply kept_visit_port | intros _].
  apply kept_bind; [apply kept_forM; intros; apply kept_visit; auto | intros _].
  apply kept_bind; [|intros _; apply I_print].
  apply kept_bind; [apply kept_gets | intros regs].
  apply kept_forM. intros. apply kept_genRegTransition.
Qed.

Lemma kept_runOnOperation ms :
  (forall m o, m ∈ ms -> o ∈ walk m -> okOp (addr o)) ->
  kept (runOnOperation at_missing ms).
Proof.
  intros Hms. apply kept_forM. intros m Hm. apply kept_runOnModule. eauto.
Qed.

End Invariant.

(** X4: the pass never records a line or an alias for the null operation. *)
Theorem null_never_recorded (at_missing : option Z) (ms : list HWModuleOp)
    (s : PassState) :
  (forall m, m ∈ ms -> wellAddressed m) ->
  nullFree s ->
  nullFree (snd (runOnOperation at_missing ms s)).
Proof.
  intros Hms. revert s.
  apply (kept_runOnOperation at_missing nullFree (fun a => a <> nullptr)).
  - intros rest s H. exact H.
  - intros l s H. exact H.
  - intros op s [H1 H2]. unfold setOpLID.
    destruct (decide _) as [Hn|]; [|split; assumption].
    split; [|exact H2]. cbn. rewrite lookup_insert_ne by exact Hn. exact H1.
  - intros a op Ha s [H1 H2]. split; [exact H1|]. cbn.
    rewrite lookup_insert_ne by exact Ha. exact H2.
  - intros f s H; exact H.
  - intros f s H; exact H.
  - intros f s H; exact H.
  - intros s H; exact H.
  - intros o s H; exact H.
  - intros m o Hm Ho. exact (Hms m Hm o Ho).
Qed.

(** ** What a visit prints and records *)

Lemma readsOnly_ret {A} (a : A) : readsOnly (ret a).
Proof. intros s. eexists. reflexivity. Qed.

Lemma readsOnly_bind {A B} (m : M A) (k : A -> M B) :
  readsOnly m -> (forall a, readsOnly (k a)) -> readsOnly (bind m k).
Proof.
  intros Hm Hk s. unfold bind. destruct (Hm s) as [[a|] ->].
  - apply Hk.
  - eexists. reflexivity.
Qed.

Lemma readsOnly_gets {A} (f : PassState -> A) : readsOnly (gets f).
Proof. intros s. eexists. reflexivity. Qed.

Lemma readsOnly_assert b : readsOnly (assert_ b).
Proof. intros s. destruct b; eexists; reflexivity. Qed.

Lemma readsOnly_at at_missing `{Countable K} (m : gmap K Z) k :
  readsOnly (at_ at_missing m k).
Proof.
  intros s. unfold at_. destruct (m !! k); [eexists; reflexivity|].
  destruct at_missing; eexists; reflexivity.
Qed.

Lemma readsOnly_sortLID at_missing w : readsOnly (sortLID at_missing w).
Proof.
  unfold sortLID.
  apply readsOnly_bind; [apply readsOnly_gets | intros m].
  apply readsOnly_bind; [apply readsOnly_at | intros sid].
  apply readsOnly_bind; [apply readsOnly_assert | intros _].
  apply readsOnly_ret.
Qed.

Lemma getOpLID_eq op s :
  getOpLID op s =
    (Done (default noLID
             (opLIDMap s !! default op (opAliasMap s !! op))), s).
Proof.
  unfold getOpLID, bind. rewrite getOpAlias_eq. unfold gets.
  destruct (opLIDMap s !! _); reflexivity.
Qed.

Lemma readsOnly_getOpLID op : readsOnly (getOpLID op).
Proof. intros s. rewrite getOpLID_eq. eexists. reflexivity. Qed.

Lemma readsOnly_getOpLID_Value v : readsOnly (getOpLID_Value v).
Proof.
  intros s. unfold getOpLID_Value, bind. rewrite getOpAlias_eq. unfold gets.
  destruct (opLIDMap s !! _); [eexists; reflexivity|].
  destruct v; [eexists; reflexivity|].
  destruct (inputLIDs s !! _); eexists; reflexivity.
Qed.

Lemma bind_done {A B} (m : M A) (k : A -> M B) s a s1 :
  m s = (Done a, s1) -> bind m k s = k a s1.
Proof. intros H. unfold bind. rewrite H. reflexivity. Qed.

Lemma emitsOne_emit rest : emitsOne (emit rest).
Proof. intros s. right. exists rest. reflexivity. Qed.

Lemma emitsOne_bind {A} (m : M A) (k : A -> M unit) :
  readsOnly m -> (forall a, emitsOne (k a)) -> emitsOne (bind m k).
Proof.
  intros Hm Hk s. unfold bind. destruct (Hm s) as [[a|] ->].
  - apply Hk.
  - left. reflexivity.
Qed.

Ltac one_line :=
  repeat first
    [ apply emitsOne_emit
    | apply emitsOne_bind;
      [ first [ apply readsOnly_sortLID | apply readsOnly_getOpLID
              | apply readsOnly_getOpLID_Value ]
      | intros ? ] ].

(** What a generator that records the line of [op] and prints it leaves
    behind when it completes. *)
Lemma recorded_line (op : N) (body : M unit) s :
  emitsOne body ->
  fst ((setOpLID op ;;; body) s) = Done tt ->
  exists rest,
    snd ((setOpLID op ;;; body) s) = snd (emit rest (snd (setOpLID op s))).
Proof.
  intros Hb. unfold bind.
  assert (Hs : exists s1, setOpLID op s = (Done tt, s1)).
  { unfold setOpLID. destruct (decide _); eexists; reflexivity. }
  destruct Hs as [s1 Hs]. rewrite Hs. cbn [snd].
  destruct (Hb s1) as [->|[rest ->]]; [discriminate|].
  intros _. exists rest. reflexivity.
Qed.

Lemma lookup_after_line (op : N) rest s :
  op <> nullptr -> opAliasMap s !! op = None ->
  let s' := snd (emit rest (snd (setOpLID op s))) in
  last (outs s') = Some (FNum (lid s) :: rest) /\
  opAliasMap s' = opAliasMap s /\
  getOpLID op s' = (Done (lid s), s') /\
  getOpLID_Value (OpResult op) s' = (Done (lid s), s').
Proof.
  intros Hop Ha s'.
  assert (Hs' : s' = snd (emit rest
                  (set_opLIDMap (<[op := lid s]> (opLIDMap s)) s))).
  { unfold s', setOpLID. rewrite decide_True by exact Hop. reflexivity. }
  clearbody s'.
  split; [rewrite Hs'; cbn; apply last_snoc|].
  split; [rewrite Hs'; reflexivity|].
  assert (Hl : opLIDMap s' !! op = Some (lid s))
    by (rewrite Hs'; cbn; apply lookup_insert_eq).
  assert (Ha' : opAliasMap s' !! op = None) by (rewrite Hs'; exact Ha).
  split.
  - rewrite getOpLID_eq, Ha'. cbn [default]. rewrite Hl. reflexivity.
  - unfold getOpLID_Value, bind. rewrite getOpAlias_eq. cbn [getDefiningOp].
    rewrite Ha'. cbn [default]. unfold gets. rewrite Hl. reflexivity.
Qed.

Lemma genSort_alias at_missing ty w s :
  opAliasMap (snd (genSort at_missing ty w s)) = opAliasMap s.
Proof.
  destruct (genSort_cases at_missing ty w s) as [->|[_ ->]]; reflexivity.
Qed.

Lemma requireSort_alias at_missing ty s :
  opAliasMap (snd (requireSort at_missing ty s)) = opAliasMap s.
Proof.
  unfold requireSort, bind, assert_.
  destruct (bool_decide _); [|reflexivity]. cbv beta iota delta [ret].
  pose proof (genSort_alias at_missing bitvecStr
                (to_size_t (getBitWidth ty)) s) as H.
  destruct (genSort at_missing bitvecStr _ s) as [[[]|] s1]; exact H.
Qed.


(** *** Assertion lowering *)

Lemma setOpLID_eq op s : setOpLID op s = (Done tt, snd (setOpLID op s)).
Proof. unfold setOpLID. destruct (decide _); reflexivity. Qed.

Lemma sortLID_fst at_missing w s s' :
  sortToLIDMap s = sortToLIDMap s' ->
  fst (sortLID at_missing w s) = fst (sortLID at_missing w s').
Proof.
  intros H. unfold sortLID, bind, gets, at_. cbn. rewrite H.
  destruct (sortToLIDMap s' !! w) as [sid|]; cbn.
  - destruct (bool_decide _); reflexivity.
  - destruct at_missing; cbn; [|reflexivity].
    destruct (bool_decide _); reflexivity.
Qed.

(** [sortLID] reads the sort table only. *)
Lemma sortLID_same at_missing w s s' r :
  sortToLIDMap s = sortToLIDMap s' ->
  sortLID at_missing w s = (r, s) -> sortLID at_missing w s' = (r, s').
Proof.
  intros Hm Hs.
  rewrite (surjective_pairing (sortLID at_missing w s')).
  rewrite sortLID_state, <- (sortLID_fst at_missing w s s' Hm), Hs.
  reflexivity.
Qed.

Lemma genUnaryOp_done at_missing srcop op0 inst w s :
  fst (genUnaryOp at_missing srcop op0 inst w s) = Done tt ->
  let s2 := snd (setOpLID srcop s) in
  exists sid e,
    sortLID at_missing w s2 = (Done sid, s2) /\
    getOpLID op0 s2 = (Done e, s2) /\
    genUnaryOp at_missing srcop op0 inst w s =
      emit [FStr wsStr; FStr inst; FStr wsStr; FNum sid; FStr wsStr;
            FNum e; FStr nlStr] s2.
Proof.
  intros Hd s2. revert Hd. unfold genUnaryOp.
  rewrite !(bind_done _ _ _ _ _ (setOpLID_eq srcop s)). fold s2.
  destruct (readsOnly_sortLID at_missing w s2) as [[sid|] E];
    [|unfold bind; rewrite E; discriminate].
  rewrite !(bind_done _ _ _ _ _ E).
  rewrite !(bind_done _ _ _ _ _ (getOpLID_eq op0 s2)).
  intros _. eexists _, _. split; [exact E|].
  split; [apply getOpLID_eq | reflexivity].
Qed.

Lemma genImplies_done at_missing srcop lhs rhs s :
  fst (genImplies at_missing srcop lhs rhs s) = Done tt ->
  let s2 := snd (setOpLID srcop s) in
  exists sid l r,
    sortLID at_missing 1 s2 = (Done sid, s2) /\
    getOpLID_Value lhs s2 = (Done l, s2) /\
    getOpLID_Value rhs s2 = (Done r, s2) /\
    genImplies at_missing srcop lhs rhs s =
      emit [FStr wsStr; FStr impliesStr; FStr wsStr; FNum sid; FStr wsStr;
            FNum l; FStr wsStr; FNum r; FStr nlStr] s2.
Proof.
  intros Hd s2. revert Hd. unfold genImplies.
  rewrite !(bind_done _ _ _ _ _ (setOpLID_eq srcop s)). fold s2.
  destruct (readsOnly_sortLID at_missing 1 s2) as [[sid|] E];
    [|unfold bind; rewrite E; discriminate].
  rewrite !(bind_done _ _ _ _ _ E).
  destruct (readsOnly_getOpLID_Value lhs s2) as [[l|] El];
    [|unfold bind; rewrite El; discriminate].
  rewrite !(bind_done _ _ _ _ _ El).
  destruct (readsOnly_getOpLID_Value rhs s2) as [[r|] Er];
    [|unfold bind; rewrite Er; discriminate].
  rewrite !(bind_done _ _ _ _ _ Er).
  intros _. eexists _, _, _.
  split; [exact E|]. split; [exact El|]. split; [exact Er|reflexivity].
Qed.

Lemma genBad_eq op s :
  genBad op s =
    emit [FStr wsStr; FStr badStr; FStr wsStr;
          FNum (default noLID
                  (opLIDMap s !! default op (opAliasMap s !! op)));
          FStr nlStr] s.
Proof.
  unfold genBad. rewrite (bind_done _ _ _ _ _ (getOpLID_eq op s)). reflexivity.
Qed.

Lemma visit_assert_done (at_missing : option Z) (o : Operation)
    (expr : Value) (s : PassState) :
  kind o = AssertOp expr None ->
  addr o <> nullptr ->
  opAliasMap s !! addr o = None ->
  fst (visit at_missing o s) = Done tt ->
  let s1 := snd (genSort at_missing bitvecStr 1 s) in
  let s2 := snd (setOpLID (addr o) s1) in
  let s' := snd (visit at_missing o s) in
  exists sid e,
    sortLID at_missing 1 s1 = (Done sid, s1) /\
    getOpLID (getDefiningOp expr) s2 = (Done e, s2) /\
    outs s' = outs s1 ++ [ unaryLine (lid s1) notStr sid e;
                           badLine (to_size_t (lid s1 + 1)) (lid s1) ] /\
    lid s' = to_size_t (to_size_t (lid s1 + 1) + 1).
Proof.
  intros Hk Hop Ha Hd. cbv zeta. revert Hd. unfold visit. rewrite Hk.
  pose proof (genSort_alias at_missing bitvecStr 1 s) as Hal.
  destruct (genSort at_missing bitvecStr 1 s) as [[[]|] s1] eqn:E;
    [|unfold bind; rewrite E; discriminate].
  rewrite !(bind_done _ _ _ _ _ E). cbn [snd] in *.
  set (s2 := snd (setOpLID (addr o) s1)).
  rewrite <- Hal in Ha. unfold genUnaryOp_Value.
  destruct (genUnaryOp at_missing (addr o) (getDefiningOp expr) notStr 1 s1)
    as [[[]|] s3] eqn:Eu; [|unfold bind; rewrite Eu; discriminate].
  rewrite !(bind_done _ _ _ _ _ Eu). intros _.
  assert (Hd : fst (genUnaryOp at_missing (addr o) (getDefiningOp expr)
                      notStr 1 s1) = Done tt) by (rewrite Eu; reflexivity).
  destruct (genUnaryOp_done _ _ _ _ _ _ Hd) as (sid & e & Hs & He & Hg).
  fold s2 in Hs, He, Hg. rewrite Eu in Hg. cbn in Hg. injection Hg as Hs3.
  destruct (lookup_after_line (addr o)
              [FStr wsStr; FStr notStr; FStr wsStr; FNum sid; FStr wsStr;
               FNum e; FStr nlStr] s1 Hop Ha) as (_ & _ & Hl & _).
  fold s2 in Hl. cbn in Hl. rewrite <- Hs3 in Hl.
  rewrite getOpLID_eq in Hl. injection Hl as Hl.
  exists sid, e.
  assert (Hs1 : sortLID at_missing 1 s1 = (Done sid, s1)).
  { rewrite (surjective_pairing (sortLID at_missing 1 s1)).
    rewrite sortLID_state.
    rewrite (sortLID_fst at_missing 1 s1 s2), Hs; [reflexivity|].
    unfold s2, setOpLID. destruct (decide _); reflexivity. }
  split; [exact Hs1|]. split; [exact He|].
  rewrite genBad_eq, Hl. rewrite Hs3. cbn -[to_size_t].
  unfold s2, setOpLID. destruct (decide _); [|contradiction]. cbn -[to_size_t].
  split; [|reflexivity].
  rewrite <- app_assoc. reflexivity.
Qed.

Lemma bind_assoc {A B C} (m : M A) (k1 : A -> M B) (k2 : B -> M C) s :
  bind (bind m k1) k2 s = bind m (fun a => bind (k1 a) k2) s.
Proof. unfold bind. destruct (m s) as [[a|] s1]; reflexivity. Qed.

Lemma setOpLID_state op s :
  op <> nullptr ->
  snd (setOpLID op s) = set_opLIDMap (<[op := lid s]> (opLIDMap s)) s.
Proof.
  intros H. unfold setOpLID. rewrite decide_True by exact H. reflexivity.
Qed.


(** *** Ports *)

Lemma requireSort_state at_missing ty s :
  opLIDMap (snd (requireSort at_missing ty s)) = opLIDMap s /\
  inputLIDs (snd (requireSort at_missing ty s)) = inputLIDs s /\
  resetLID (snd (requireSort at_missing ty s)) = resetLID s.
Proof.
  unfold requireSort, bind, assert_.
  destruct (bool_decide _); [|auto]. cbv beta iota delta [ret].
  destruct (genSort_cases at_missing bitvecStr
              (to_size_t (getBitWidth ty)) s) as [H|[_ H]];
  destruct (genSort at_missing bitvecStr _ s) as [[[]|] s1];
  cbn [snd] in *; subst s1; auto.
Qed.

Lemma requireSort_value at_missing ty s w s1 :
  requireSort at_missing ty s = (Done w, s1) -> w = getBitWidth ty.
Proof.
  unfold requireSort, bind, assert_.
  destruct (bool_decide _); [|discriminate]. cbv beta iota delta [ret].
  destruct (genSort at_missing bitvecStr _ s) as [[[]|] s2];
    [|discriminate].
  intros [= <- _]. reflexivity.
Qed.

Lemma visit_port_done at_missing p s :
  port_isInput p = true ->
  isClockType (port_type p) = false ->
  fst (visit_port at_missing p s) = Done tt ->
  let s1 := snd (requireSort at_missing (port_type p) s) in
  let s2 := set_inputLIDs (<[port_argNum p := lid s1]> (inputLIDs s1)) s1 in
  let s3 := if decide (port_name p = resetStr)
            then set_resetLID (lid s1) s2 else s2 in
  exists sid,
    sortLID at_missing (to_size_t (getBitWidth (port_type p))) s1 =
      (Done sid, s1) /\
    visit_port at_missing p s =
      emit [FStr wsStr; FStr inputStr; FStr wsStr; FNum sid; FStr wsStr;
            FStr (port_name p); FStr nlStr] s3.
Proof.
  intros Hin Hclk. cbv zeta. unfold visit_port.
  rewrite Hin, Hclk. cbn [andb negb].
  destruct (requireSort at_missing (port_type p) s) as [[w|] s1] eqn:E;
    [|unfold bind; rewrite E; discriminate].
  rewrite !(bind_done _ _ _ _ _ E). cbn [snd].
  apply requireSort_value in E. subst w.
  set (s2 := set_inputLIDs _ s1).
  assert (Hm : modify (fun s => set_inputLIDs
                 (<[port_argNum p := lid s]> (inputLIDs s)) s) s1
               = (Done tt, s2)) by reflexivity.
  rewrite !(bind_done _ _ _ _ _ Hm).
  set (s3 := if decide (port_name p = resetStr)
             then set_resetLID (lid s1) s2 else s2).
  assert (Hr : (if decide (port_name p = resetStr)
                then modify (fun s => set_resetLID (lid s) s) else ret tt) s2
               = (Done tt, s3)).
  { unfold s3. destruct (decide _); reflexivity. }
  rewrite !(bind_done _ _ _ _ _ Hr). unfold genInput.
  destruct (readsOnly_sortLID at_missing
              (to_size_t (getBitWidth (port_type p))) s3) as [[sid|] Es];
    [|unfold bind; rewrite Es; discriminate].
  rewrite !(bind_done _ _ _ _ _ Es). intros _. exists sid.
  split; [|reflexivity].
  apply (sortLID_same at_missing _ s3 s1); [|exact Es].
  unfold s3, s2. destruct (decide _); reflexivity.
Qed.



Lemma genSort_opLIDMap at_missing ty w s :
  opLIDMap (snd (genSort at_missing ty w s)) = opLIDMap s.
Proof.
  destruct (genSort_cases at_missing ty w s) as [->|[_ ->]]; reflexivity.
Qed.


(** X7: a wire on a module port is recorded as an alias of the null operation:
    looking the wire up yields the sentinel, whatever line the port has. *)
Theorem wire_of_port_unresolved (at_missing : option Z) (w : N) (i : Z)
    (s : PassState) :
  nullFree s ->
  let s' := snd (visit at_missing
                   {| addr := w; kind := WireOp (BlockArgument i) |} s) in
  fst (visit at_missing {| addr := w; kind := WireOp (BlockArgument i) |} s)
    = Done tt /\
  opAliasMap s' !! w = Some nullptr /\
  inputLIDs s' = inputLIDs s /\
  getOpLID_Value (OpResult w) s' = (Done noLID, s') /\
  getOpLID w s' = (Done noLID, s').
Proof.
  intros [Hn1 Hn2]. cbn.
  split; [reflexivity|]. split; [apply lookup_insert_eq|].
  split; [reflexivity|]. split.
  - unfold getOpLID_Value, bind. rewrite getOpAlias_eq. cbn.
    rewrite lookup_insert_eq. cbn. rewrite Hn1. reflexivity.
  - rewrite getOpLID_eq. cbn. rewrite lookup_insert_eq. cbn. rewrite Hn1.
    reflexivity.
Qed.

(** ** Aborts and registers *)

Lemma requireSort_widthless at_missing ty s :
  getBitWidth ty = noWidth -> requireSort at_missing ty s = (Aborted, s).
Proof.
  intros H. unfold requireSort, bind. rewrite H.
  rewrite bool_decide_eq_false_2 by (intros Hn; exact (Hn eq_refl)).
  reflexivity.
Qed.

Lemma visit_widthless at_missing o ty s :
  requiredType (kind o) = Some ty -> getBitWidth ty = noWidth ->
  visit at_missing o s = (Aborted, s).
Proof.
  intros Hk Hw. unfold visit.
  destruct (kind o); try discriminate Hk; injection Hk as ->;
    unfold bind; rewrite (requireSort_widthless _ _ _ Hw); reflexivity.
Qed.

Lemma forM_aborts {A} (f : A -> M unit) pre x post s :
  (forall s, f x s = (Aborted, s)) ->
  forM_ (pre ++ x :: post) f s = (Aborted, snd (forM_ pre f s)).
Proof.
  intros Hx. revert s. induction pre as [|y pre IH]; intros s.
  - cbn. unfold bind. rewrite Hx. reflexivity.
  - cbn [app forM_]. unfold bind.
    destruct (f y s) as [[[]|] s1]; [apply IH | reflexivity].
Qed.

(** X13: an operation whose result type has no bit width aborts the pass when
    the walk reaches it: what the operations before it printed stays
    printed, nothing is printed for it or after it, and no banner. *)
Theorem widthless_type_aborts (at_missing : option Z) (m : HWModuleOp)
    (pre post : list Operation) (o : Operation) (ty : Type_)
    (s : PassState) :
  walk m = pre ++ o :: post ->
  requiredType (kind o) = Some ty ->
  getBitWidth ty = noWidth ->
  visit at_missing o s = (Aborted, s) /\
  bodyPhase at_missing m s = (Aborted, snd (forM_ pre (visit at_missing) s)) /\
  runOnModule at_missing m s =
    (Aborted,
     snd ((portsPhase at_missing m ;;; forM_ pre (visit at_missing)) s)).
Proof.
  intros Hw Hk Hn.
  assert (Hv : forall s, visit at_missing o s = (Aborted, s))
    by (intros; eapply visit_widthless; eassumption).
  split; [apply Hv|].
  assert (Hb : forall s, bodyPhase at_missing m s =
                         (Aborted, snd (forM_ pre (visit at_missing) s))).
  { intros s0. unfold bodyPhase. rewrite Hw. apply forM_aborts, Hv. }
  split; [apply Hb|].
  unfold runOnModule, bind.
  destruct (portsPhase at_missing m s) as [[[]|] s1]; [|reflexivity].
  rewrite Hb. reflexivity.
Qed.

(** *** Registers *)

Section SameRegs.
Variable at_missing : option Z.

Ltac same_regs :=
  unfold invariant; intros; unfold setOpLID;
  try match goal with |- context [decide ?P] => destruct (decide P) end;
  first [ reflexivity
        | match goal with H : regOps _ = _ |- _ => exact H end ].

Lemma regOps_requireSort ty s :
  regOps (snd (requireSort at_missing ty s)) = regOps s.
Proof.
  apply (kept_requireSort at_missing (fun s' => regOps s' = regOps s));
    same_regs.
Qed.

Lemma regOps_genState op w n s :
  regOps (snd (genState at_missing op w n s)) = regOps s.
Proof.
  apply (kept_genState at_missing (fun s' => regOps s' = regOps s));
    same_regs.
Qed.

Lemma regOps_visit_other o s :
  isFirRegOp o = false -> regOps (snd (visit at_missing o s)) = regOps s.
Proof.
  intros Hk. unfold isFirRegOp in Hk.
  assert (H : invariant (fun s' => regOps s' = regOps s) (visit at_missing o)).
  { unfold visit. destruct (kind o); try discriminate Hk.
    all: repeat first
      [ apply kept_ret
      | apply kept_requireSort | apply kept_genSort | apply kept_genConst
      | apply kept_genBinOp | apply kept_genSlice | apply kept_genIte_Value
      | apply kept_genImplies | apply kept_genUnaryOp | apply kept_genBad
      | apply kept_genConstraint
      | apply kept_bind; [| intros ?]
      | match goal with
        | |- invariant _ (match ?x with _ => _ end) => destruct x
        end
      | progress same_regs ]. }
  apply H. reflexivity.
Qed.

Lemma regOps_visit_reg o s :
  isFirRegOp o = true ->
  regOps (snd (visit at_missing o s)) =
    regOps s ++ match fst (visit at_missing o s) with
                | Done _ => [o]
                | Aborted => []
                end.
Proof.
  intros Hk. unfold isFirRegOp in Hk. unfold visit.
  destruct (kind o) as [| | | | | | | | |ty name next|]; try discriminate Hk.
  pose proof (regOps_requireSort ty s) as H1. unfold bind.
  destruct (requireSort at_missing ty s) as [[w|] s1]; cbn [fst snd] in *;
    [|rewrite app_nil_r; exact H1].
  pose proof (regOps_genState (addr o) w name s1) as H2.
  destruct (genState at_missing (addr o) w name s1) as [[[]|] s2];
    cbn [fst snd] in *; [|rewrite app_nil_r; congruence].
  cbn. congruence.
Qed.

Lemma regOps_forM ops s :
  fst (forM_ ops (visit at_missing) s) = Done tt ->
  regOps (snd (forM_ ops (visit at_missing) s)) =
    regOps s ++ filter isFirRegOp ops.
Proof.
  revert s. induction ops as [|o ops IH]; intros s.
  - intros _. cbn. rewrite app_nil_r. reflexivity.
  - cbn [forM_]. unfold bind.
    pose proof (regOps_visit_other o s) as Ho.
    pose proof (regOps_visit_reg o s) as Hr.
    destruct (visit at_missing o s) as [[[]|] s1]; cbn [fst snd] in *;
      [|discriminate].
    intros Hd. rewrite (IH s1 Hd). rewrite filter_cons.
    destruct (isFirRegOp o) eqn:E.
    + rewrite decide_True by exact I.
      rewrite (Hr eq_refl), <- app_assoc. reflexivity.
    + rewrite decide_False by (intros []).
      rewrite (Ho eq_refl). reflexivity.
Qed.

End SameRegs.


(** *** DenseMap::at that asserts *)

Lemma genSort_asserting ty w s :
  sortToLIDMap s !! w = None -> genSort None ty w s = (Aborted, s).
Proof. intros H. unfold genSort, bind, gets, at_. rewrite H. reflexivity. Qed.

Lemma requireSort_asserting ty s :
  sortToLIDMap s = ∅ -> requireSort None ty s = (Aborted, s).
Proof.
  intros Hs. unfold requireSort.
  destruct (bool_decide (getBitWidth ty <> noWidth)); [|reflexivity].
  rewrite (bind_done (assert_ true) _ s tt s eq_refl).
  unfold bind at 1.
  rewrite genSort_asserting by (rewrite Hs; apply lookup_empty).
  reflexivity.
Qed.

Lemma visit_port_asserting p s :
  sortToLIDMap s = ∅ ->
  visit_port None p s =
    (if isDataInput p then Aborted else Done tt, s).
Proof.
  intros Hs. unfold visit_port, isDataInput.
  destruct (port_isInput p && negb (isClockType (port_type p)));
    [|reflexivity].
  unfold bind at 1. rewrite (requireSort_asserting _ _ Hs). reflexivity.
Qed.

(** X14: if [DenseMap::at] aborts on a missing key: when no sort is recorded
    yet, a module with an input port that is not a clock aborts the pass
    at this port, before anything is printed or recorded. *)
Theorem asserting_at_aborts_at_first_port (m : HWModuleOp) (s : PassState) :
  sortToLIDMap s = ∅ ->
  (exists p, p ∈ getPortList m /\ isDataInput p = true) ->
  portsPhase None m s = (Aborted, s) /\
  runOnModule None m s = (Aborted, s) /\
  forall ms, runOnOperation None (m :: ms) s = (Aborted, s).
Proof.
  intros Hs (p & Hp & Hd).
  assert (Hports : portsPhase None m s = (Aborted, s)).
  { unfold portsPhase. induction (getPortList m) as [|q ps IH];
      [inversion Hp|].
    cbn [forM_]. unfold bind. rewrite (visit_port_asserting q s Hs).
    destruct (isDataInput q) eqn:Eq; [reflexivity|].
    apply IH. apply elem_of_cons in Hp. destruct Hp as [->|Hp]; [|exact Hp].
    congruence. }
  assert (Hm : runOnModule None m s = (Aborted, s))
    by (unfold runOnModule, bind; rewrite Hports; reflexivity).
  split; [exact Hports|]. split; [exact Hm|].
  intros ms. unfold runOnOperation. cbn [forM_]. unfold bind.
  rewrite Hm. reflexivity.
Qed.

(** *** Register transitions *)

Lemma genZero_tables at_missing w s :
  let s' := snd (genZero at_missing w s) in
  opLIDMap s' = opLIDMap s /\ opAliasMap s' = opAliasMap s /\
  resetLID s' = resetLID s /\ sortToLIDMap s' = sortToLIDMap s.
Proof.
  cbv zeta.
  destruct (genZero_cases at_missing w s) as [->|[_ [sid ->]]]; auto.
Qed.

Lemma genSort_tables at_missing ty w s :
  let s' := snd (genSort at_missing ty w s) in
  opLIDMap s' = opLIDMap s /\ opAliasMap s' = opAliasMap s /\
  resetLID s' = resetLID s.
Proof.
  cbv zeta.
  destruct (genSort_cases at_missing ty w s) as [->|[_ ->]]; auto.
Qed.

Lemma genIte_done at_missing srcop c t f w s :
  fst (genIte at_missing srcop c t f w s) = Done tt ->
  let s2 := snd (setOpLID srcop s) in
  exists sid,
    sortLID at_missing (to_size_t w) s2 = (Done sid, s2) /\
    genIte at_missing srcop c t f w s =
      emit [FStr wsStr; FStr iteStr; FStr wsStr; FNum sid; FStr wsStr;
            FNum c; FStr wsStr; FNum t; FStr wsStr; FNum f; FStr nlStr] s2.
Proof.
  intros Hd s2. revert Hd. unfold genIte.
  rewrite !(bind_done _ _ _ _ _ (setOpLID_eq srcop s)). fold s2.
  destruct (readsOnly_sortLID at_missing (to_size_t w) s2) as [[sid|] E];
    [|unfold bind; rewrite E; discriminate].
  rewrite !(bind_done _ _ _ _ _ E).
  intros _. exists sid. split; [exact E|reflexivity].
Qed.

Lemma genNext_done at_missing next reg w s :
  fst (genNext at_missing next reg w s) = Done tt ->
  exists sid,
    sortLID at_missing (to_size_t w) s = (Done sid, s) /\
    genNext at_missing next reg w s =
      emit [FStr wsStr; FStr nextStr; FStr wsStr; FNum sid; FStr wsStr;
            FNum (default noLID
                    (opLIDMap s !! default reg (opAliasMap s !! reg)));
            FStr wsStr;
            FNum (default noLID
                    (opLIDMap s !! default next (opAliasMap s !! next)));
            FStr nlStr] s.
Proof.
  unfold genNext.
  destruct (readsOnly_sortLID at_missing (to_size_t w) s) as [[sid|] E];
    [|unfold bind; rewrite E; discriminate].
  rewrite !(bind_done _ _ _ _ _ E).
  rewrite !(bind_done _ _ _ _ _ (getOpLID_eq reg s)).
  rewrite !(bind_done _ _ _ _ _ (getOpLID_eq next s)).
  intros _. exists sid. split; [exact E|reflexivity].
Qed.

Lemma to_size_t_int64 z : to_size_t (to_int64 z) = to_size_t z.
Proof.
  unfold to_int64, to_size_t. cbv zeta.
  destruct (z mod size_t_mod <? 2 ^ 63).
  - apply Z.mod_mod. unfold size_t_mod. lia.
  - rewrite Zminus_mod, Z_mod_same_full, Z.sub_0_r, !Z.mod_mod;
      unfold size_t_mod; lia.
Qed.


(** ** Sorts are declared before they are used *)

Lemma sortDeclared_app ls new v :
  sortDeclared ls v -> sortDeclared (ls ++ new) v.
Proof.
  intros (ty & w & H). exists ty, w. apply elem_of_app. left. exact H.
Qed.

Section KeepsSorts.
Variable at_missing : option Z.
Hypothesis at_policy : forall v, at_missing = Some v -> v = noLID.

Lemma ks_ret {A} vs (a : A) Q :
  (forall v, v ∈ Q a -> v ∈ vs) -> keepsSorts vs (ret a) Q.
Proof.
  intros HQ s Hi Hv. cbn. split; [exact Hi|].
  split; [exists []; rewrite app_nil_r; reflexivity|].
  intros a' [= <-]. apply Forall_forall. intros v Hin.
  rewrite Forall_forall in Hv. auto.
Qed.

Lemma ks_reads {A} vs (m : M A) :
  readsOnly m -> keepsSorts vs m (fun _ => []).
Proof.
  intros Hm s Hi Hv. destruct (Hm s) as [r ->]. cbn.
  split; [exact Hi|]. split; [exists []; rewrite app_nil_r; reflexivity|].
  intros; constructor.
Qed.

Lemma ks_bind {A B} vs (m : M A) (k : A -> M B) Q1 Q :
  keepsSorts vs m Q1 -> (forall a, keepsSorts (Q1 a ++ vs) (k a) Q) ->
  keepsSorts vs (bind m k) Q.
Proof.
  intros Hm Hk s Hi Hv. unfold bind.
  destruct (Hm s Hi Hv) as (Hi1 & (n1 & Ho1) & HQ).
  destruct (m s) as [[a|] s1]; cbn in *.
  - assert (Hv1 : Forall (sortDeclared (outs s1)) (Q1 a ++ vs)).
    { apply Forall_app. split; [apply HQ; reflexivity|].
      eapply Forall_impl; [exact Hv|]. intros v Hd. rewrite Ho1.
      apply sortDeclared_app, Hd. }
    destruct (Hk a s1 Hi1 Hv1) as (Hi2 & (n2 & Ho2) & HQ2).
    split; [exact Hi2|]. split; [|exact HQ2].
    exists (n1 ++ n2). rewrite Ho2, Ho1, app_assoc. reflexivity.
  - split; [exact Hi1|]. split; [exists n1; exact Ho1|]. discriminate.
Qed.

Lemma ks_forM {A} vs (l : list A) (f : A -> M unit) :
  (forall x, keepsSorts vs (f x) (fun _ => [])) ->
  keepsSorts vs (forM_ l f) (fun _ => []).
Proof.
  intros Hf. induction l as [|x l IH]; cbn [forM_].
  - apply ks_ret. intros v Hv. inversion Hv.
  - eapply ks_bind; [apply Hf|]. intros []. exact IH.
Qed.

(** State updates that leave the stream and the sort table alone. *)
Lemma ks_modify vs (f : PassState -> PassState) :
  (forall s, outs (f s) = outs s /\ sortToLIDMap (f s) = sortToLIDMap s) ->
  keepsSorts vs (modify f) (fun _ => []).
Proof.
  intros Hf s [Ht Hc] Hv. cbn. destruct (Hf s) as [Ho Hs].
  split; [|split; [exists []; rewrite Ho, app_nil_r; reflexivity
                  | intros; constructor]].
  split; [|rewrite Ho; exact Hc].
  intros w v. rewrite Hs, Ho. apply Ht.
Qed.

Lemma ks_setOpLID vs op : keepsSorts vs (setOpLID op) (fun _ => []).
Proof.
  unfold setOpLID. destruct (decide _);
    [apply ks_modify; intros; split; reflexivity
    |apply ks_ret; intros v Hv; inversion Hv].
Qed.

Lemma sortOperand_lead n n' rest :
  sortOperand (FNum n :: rest) = sortOperand (FNum n' :: rest).
Proof. reflexivity. Qed.

Lemma sortsDeclared_snoc ls l :
  sortsDeclared ls ->
  (forall sid, sortOperand l = Some sid -> sortDeclared ls sid) ->
  sortsDeclared (ls ++ [l]).
Proof.
  intros Hc Hl i l' v Hi Hv.
  destruct (decide (i < length ls)%nat) as [Hlt|Hge].
  - rewrite lookup_app_l in Hi by exact Hlt.
    rewrite take_app_le by lia. eapply Hc; eassumption.
  - rewrite lookup_app_r in Hi by lia.
    destruct (i - length ls)%nat as [|j] eqn:E; cbn in Hi; [|discriminate].
    injection Hi as <-. assert (i = length ls) as -> by lia.
    rewrite take_app_length. auto.
Qed.

Lemma ks_emit vs rest :
  (forall sid, sortOperand (FNum 0 :: rest) = Some sid -> sid ∈ vs) ->
  keepsSorts vs (emit rest) (fun _ => []).
Proof.
  intros Hops s [Ht Hc] Hv. cbn.
  split; [|split; [eexists; reflexivity | intros; constructor]].
  split.
  - intros w v Hw Hn. apply sortDeclared_app. exact (Ht w v Hw Hn).
  - apply sortsDeclared_snoc; [exact Hc|].
    intros sid Hs. rewrite (sortOperand_lead _ 0) in Hs.
    apply Hops in Hs. rewrite Forall_forall in Hv. auto.
Qed.

Lemma ks_print vs l :
  sortOperand l = None -> keepsSorts vs (print l) (fun _ => []).
Proof.
  intros Hl s [Ht Hc] Hv. cbn.
  split; [|split; [eexists; reflexivity | intros; constructor]].
  split.
  - intros w v Hw Hn. apply sortDeclared_app. exact (Ht w v Hw Hn).
  - apply sortsDeclared_snoc; [exact Hc|]. rewrite Hl. discriminate.
Qed.

Lemma ks_genSort vs ty w :
  keepsSorts vs (genSort at_missing ty w) (fun _ => []).
Proof.
  intros s [Ht Hc] Hv.
  destruct (genSort_cases at_missing ty w s) as [->|[_ ->]].
  - split; [split; assumption|].
    split; [exists []; rewrite app_nil_r; reflexivity | intros; constructor].
  - split; [|split; [eexists; reflexivity | intros; constructor]].
    split.
    + intros w' v Hw Hn. cbn in Hw |- *.
      apply lookup_insert_Some in Hw. destruct Hw as [[<- <-]|[_ Hw]].
      * exists ty, w. apply elem_of_app. right. apply list_elem_of_here.
      * apply sortDeclared_app. exact (Ht w' v Hw Hn).
    + cbn. apply sortsDeclared_snoc; [exact Hc|]. discriminate.
Qed.

Lemma ks_sortLID vs w : keepsSorts vs (sortLID at_missing w) (fun sid => [sid]).
Proof.
  intros s [Ht Hc] Hv. rewrite sortLID_state.
  split; [split; assumption|].
  split; [exists []; rewrite app_nil_r; reflexivity|].
  intros sid. unfold sortLID, bind, gets, at_, assert_. cbn.
  destruct (sortToLIDMap s !! w) as [v|] eqn:E; cbn.
  - destruct (bool_decide (v <> noLID)) eqn:Eb; cbn; [|discriminate].
    intros [= <-]. constructor; [|constructor].
    apply bool_decide_eq_true_1 in Eb. exact (Ht w v E Eb).
  - destruct at_missing as [v|] eqn:Ea; cbn; [|discriminate].
    rewrite (at_policy v eq_refl).
    rewrite bool_decide_eq_false_2 by (intros Hn; exact (Hn eq_refl)).
    discriminate.
Qed.

Lemma sortOperand_head n a kw rest sid :
  sortOperand (FNum n :: FStr a :: FStr kw :: rest) = Some sid ->
  head (numbersOf rest) = Some sid.
Proof.
  cbn [sortOperand]. repeat destruct (decide _); try discriminate. auto.
Qed.

Ltac sops :=
  let sid := fresh "sid" in let H := fresh "H" in
  intros sid H;
  first [ solve [ vm_compute in H;
                  first [ discriminate H
                        | injection H as <-; cbn;
                          repeat (first [ apply list_elem_of_here
                                        | apply list_elem_of_further ]) ] ]
        | solve [ apply sortOperand_head in H; cbn in H;
                  injection H as <-; cbn;
                  repeat (first [ apply list_elem_of_here
                                | apply list_elem_of_further ]) ] ].

Ltac ks_known := fail.

Ltac ks :=
  repeat first
    [ ks_known
    | apply ks_genSort | apply ks_sortLID | apply ks_setOpLID
    | apply ks_reads;
      first [ apply readsOnly_getOpLID | apply readsOnly_getOpLID_Value
            | apply readsOnly_gets | apply readsOnly_at
            | apply readsOnly_assert | apply readsOnly_ret ]
    | apply ks_modify; intros; split; reflexivity
    | apply ks_emit; sops
    | apply ks_ret; let v := fresh in let H := fresh in
                    intros v H; inversion H
    | eapply ks_bind; [| intros ?]
    | match goal with
      | |- keepsSorts _ (if ?x then _ else _) _ => destruct x
      | |- keepsSorts _ (match ?x with _ => _ end) _ => destruct x
      end ].

Lemma ks_abort {A} vs Q : keepsSorts vs (@abort A) Q.
Proof.
  intros s Hi Hv. cbn. split; [exact Hi|].
  split; [exists []; rewrite app_nil_r; reflexivity|]. discriminate.
Qed.

Lemma ks_genZero vs w : keepsSorts vs (genZero at_missing w) (fun _ => []).
Proof. unfold genZero. ks. Qed.

Lemma ks_genInput vs w n :
  keepsSorts vs (genInput at_missing w n) (fun _ => []).
Proof. unfold genInput. ks. Qed.

Lemma ks_genConst vs v w o :
  keepsSorts vs (genConst at_missing v w o) (fun _ => []).
Proof. unfold genConst. ks. Qed.

Lemma ks_genBinOp vs i o a b w :
  keepsSorts vs (genBinOp at_missing i o a b w) (fun _ => []).
Proof. unfold genBinOp. ks. Qed.

Lemma ks_genSlice vs o v l w :
  keepsSorts vs (genSlice at_missing o v l w) (fun _ => []).
Proof. unfold genSlice. ks. Qed.

Lemma ks_genUnaryOp vs o o0 i w :
  keepsSorts vs (genUnaryOp at_missing o o0 i w) (fun _ => []).
Proof. unfold genUnaryOp. ks. Qed.

Lemma ks_genBad vs o : keepsSorts vs (genBad o) (fun _ => []).
Proof. unfold genBad. ks. Qed.

Lemma ks_genConstraint vs e : keepsSorts vs (genConstraint e) (fun _ => []).
Proof. unfold genConstraint. ks. Qed.

Lemma ks_genIte_Value vs o c t f w :
  keepsSorts vs (genIte_Value at_missing o c t f w) (fun _ => []).
Proof. unfold genIte_Value. ks. Qed.

Lemma ks_genIte vs o c t f w :
  keepsSorts vs (genIte at_missing o c t f w) (fun _ => []).
Proof. unfold genIte. ks. Qed.

Lemma ks_genImplies vs o l r :
  keepsSorts vs (genImplies at_missing o l r) (fun _ => []).
Proof. unfold genImplies. ks. Qed.

Lemma ks_genState vs o w n :
  keepsSorts vs (genState at_missing o w n) (fun _ => []).
Proof. unfold genState. ks. Qed.

Lemma ks_genNext vs n r w :
  keepsSorts vs (genNext at_missing n r w) (fun _ => []).
Proof. unfold genNext. ks. Qed.

Lemma ks_requireSort vs t :
  keepsSorts vs (requireSort at_missing t) (fun _ => []).
Proof. unfold requireSort. ks. Qed.

Ltac ks_known ::=
  first [ apply ks_genZero
        | apply ks_genInput | apply ks_genConst | apply ks_genBinOp
        | apply ks_genSlice | apply ks_genUnaryOp | apply ks_genBad
        | apply ks_genConstraint | apply ks_genIte_Value | apply ks_genIte
        | apply ks_genImplies | apply ks_genState | apply ks_genNext
        | apply ks_requireSort ].

Lemma ks_visit_port vs p :
  keepsSorts vs (visit_port at_missing p) (fun _ => []).
Proof. unfold visit_port. ks. Qed.

Lemma ks_visit vs o : keepsSorts vs (visit at_missing o) (fun _ => []).
Proof. unfold visit, genUnaryOp_Value. ks. Qed.

Lemma ks_genRegTransition vs r :
  keepsSorts vs (genRegTransition at_missing r) (fun _ => []).
Proof. unfold genRegTransition. ks. Qed.

Lemma ks_runOnModule vs m :
  keepsSorts vs (runOnModule at_missing m) (fun _ => []).
Proof.
  unfold runOnModule, portsPhase, bodyPhase, registerTransitionPhase.
  eapply ks_bind; [apply ks_forM, ks_visit_port | intros ?].
  eapply ks_bind; [apply ks_forM, ks_visit | intros ?].
  eapply ks_bind.
  { intros s Hi Hv. unfold bind, gets.
    apply (ks_forM _ (regOps s) _ (ks_genRegTransition _) s Hi Hv). }
  intros ?. apply ks_print. reflexivity.
Qed.

Lemma ks_runOnOperation vs ms :
  keepsSorts vs (runOnOperation at_missing ms) (fun _ => []).
Proof. apply ks_forM, ks_runOnModule. Qed.

End KeepsSorts.

(** X2: every sort a printed line names is the identifier of a sort line
    printed before it. *)
Theorem sorts_declared_before_use (at_missing : option Z)
    (ms : list HWModuleOp) :
  (forall v, at_missing = Some v -> v = noLID) ->
  sortsDeclared (outs (snd (runOnOperation at_missing ms initState))).
Proof.
  intros Hp.
  destruct (ks_runOnOperation at_missing Hp [] ms initState) as ([_ H] & _).
  - split.
    + intros w v Hw. cbn in Hw. apply lookup_empty_Some in Hw. contradiction.
    + intros i l sid Hi. cbn in Hi. destruct i; discriminate Hi.
  - constructor.
  - exact H.
Qed.

(** ** Instances *)

Lemma references_resolved_witness :
  (forall v, Some noLID = Some v -> v = noLID) /\
  refsClosed (outs (snd (runOnOperation (Some noLID) [wireChain] initState))).
Proof.
  assert (H : forall v, Some noLID = Some v -> v = noLID)
    by (intros v [= <-]; reflexivity).
  split; [exact H|]. exact (references_resolved (Some noLID) [wireChain] H).
Defined.

Lemma sorts_declared_before_use_witness :
  (forall v, Some noLID = Some v -> v = noLID) /\
  sortsDeclared (outs (snd (runOnOperation (Some noLID) [counter8] initState))).
Proof.
  assert (H : forall v, Some noLID = Some v -> v = noLID)
    by (intros v [= <-]; reflexivity).
  split; [exact H|].
  exact (sorts_declared_before_use (Some noLID) [counter8] H).
Defined.

Lemma sort_lines_unique_witness :
  Z.of_nat (length (outs (snd (runOnOperation (Some noLID)
                                 [counter8; counter8'] initState)))) < noLID /\
  NoDup (sortWidths (outs (snd (runOnOperation (Some noLID)
                                  [counter8; counter8'] initState)))).
Proof.
  assert (H : Z.of_nat (length (outs (snd (runOnOperation (Some noLID)
                [counter8; counter8'] initState)))) < noLID)
    by (vm_compute; reflexivity).
  split; [exact H|].
  exact (proj1 (sort_lines_unique (Some noLID) [counter8; counter8'] H)).
Defined.

Lemma null_never_recorded_witness :
  (forall m, m ∈ [singleAnd] -> wellAddressed m) /\
  nullFree initState /\
  nullFree (snd (runOnOperation (Some noLID) [singleAnd] initState)).
Proof.
  assert (Hm : forall m, m ∈ [singleAnd] -> wellAddressed m).
  { intros m Hm o Ho. apply list_elem_of_singleton in Hm. subst m.
    cbn [singleAnd walk] in Ho.
    repeat (apply elem_of_cons in Ho; destruct Ho as [->|Ho]);
      [discriminate|discriminate|inversion Ho]. }
  assert (H0 : nullFree initState) by (split; reflexivity).
  split; [exact Hm|]. split; [exact H0|].
  exact (null_never_recorded (Some noLID) [singleAnd] initState Hm H0).
Defined.



Lemma wire_of_port_unresolved_witness :
  nullFree afterPorts /\
  inputLIDs afterPorts !! 0 = Some 2 /\
  getOpLID_Value (OpResult 7%N)
    (snd (visit (Some noLID)
            {| addr := 7%N; kind := WireOp (BlockArgument 0) |} afterPorts)) =
    (Done noLID,
     snd (visit (Some noLID)
            {| addr := 7%N; kind := WireOp (BlockArgument 0) |} afterPorts)).
Proof.
  assert (H : nullFree afterPorts) by (split; vm_compute; reflexivity).
  split; [exact H|]. split; [vm_compute; reflexivity|].
  exact (proj1 (proj2 (proj2 (proj2
           (wire_of_port_unresolved (Some noLID) 7%N 0 afterPorts H))))).
Defined.






Lemma widthless_type_aborts_witness :
  walk widthlessModule = [] ++ widthlessConst :: [] /\
  requiredType (kind widthlessConst) = Some OtherType /\
  getBitWidth OtherType = noWidth /\
  visit (Some noLID) widthlessConst initState = (Aborted, initState) /\
  bodyPhase (Some noLID) widthlessModule initState =
    (Aborted, snd (forM_ [] (visit (Some noLID)) initState)) /\
  runOnModule (Some noLID) widthlessModule initState =
    (Aborted,
     snd ((portsPhase (Some noLID) widthlessModule ;;;
           forM_ [] (visit (Some noLID))) initState)).
Proof.
  split; [reflexivity|]. split; [reflexivity|]. split; [reflexivity|].
  exact (widthless_type_aborts (Some noLID) widthlessModule [] []
           widthlessConst OtherType initState eq_refl eq_refl eq_refl).
Defined.

Lemma asserting_at_aborts_at_first_port_witness :
  sortToLIDMap initState = ∅ /\
  (exists p, p ∈ getPortList singleAnd /\ isDataInput p = true) /\
  portsPhase None singleAnd initState = (Aborted, initState) /\
  runOnModule None singleAnd initState = (Aborted, initState) /\
  forall ms, runOnOperation None (singleAnd :: ms) initState =
             (Aborted, initState).
Proof.
  assert (H1 : sortToLIDMap initState = ∅) by reflexivity.
  assert (H2 : exists p, p ∈ getPortList singleAnd /\ isDataInput p = true).
  { eexists. split; [apply list_elem_of_here|reflexivity]. }
  split; [exact H1|]. split; [exact H2|].
  exact (asserting_at_aborts_at_first_port singleAnd initState H1 H2).
Defined.

(** *** Assumptions and extractions *)





(** ** The pass over the asserting [DenseMap::at] *)

Lemma portsPhase_asserting m s :
  sortToLIDMap s = ∅ -> snd (portsPhase None m s) = s.
Proof.
  intros Hs. unfold portsPhase.
  induction (getPortList m) as [|p ps IH]; [reflexivity|].
  cbn [forM_]. unfold bind. rewrite (visit_port_asserting p s Hs).
  destruct (isDataInput p); [reflexivity | exact IH].
Qed.

Lemma requireSort_aborts_bind {A} ty (k : Z -> M A) s :
  sortToLIDMap s = ∅ ->
  (w <- requireSort None ty ;; k w) s = (Aborted, s).
Proof.
  intros Hs. unfold bind at 1. rewrite (requireSort_asserting ty s Hs).
  reflexivity.
Qed.

Lemma genSort_aborts_bind {A} ty w (k : unit -> M A) s :
  sortToLIDMap s = ∅ ->
  (x <- genSort None ty w ;; k x) s = (Aborted, s).
Proof.
  intros Hs. unfold bind at 1.
  rewrite genSort_asserting by (rewrite Hs; apply lookup_empty).
  reflexivity.
Qed.

Lemma lookup_nothing v s :
  opLIDMap s = ∅ -> inputLIDs s = ∅ ->
  getOpLID_Value v s = (Done noLID, s).
Proof.
  intros Ho Hi. unfold getOpLID_Value, bind. rewrite getOpAlias_eq.
  unfold gets. rewrite Ho, lookup_empty.
  destruct v; [reflexivity|]. rewrite Hi, lookup_empty. reflexivity.
Qed.

Lemma visit_nothingRecorded o s :
  nothingRecorded s -> nothingRecorded (snd (visit None o s)).
Proof.
  intros H. pose proof H as (Hs & Hc & Ho & Hi & Hr & Hd & Hl).
  unfold visit. destruct (kind o);
    rewrite ?(requireSort_aborts_bind _ _ _ Hs),
            ?(genSort_aborts_bind _ _ _ _ Hs); try exact H.
  unfold genConstraint.
  rewrite (bind_done _ _ _ _ _ (lookup_nothing _ _ Ho Hi)).
  repeat split;
    try first [exact Hs | exact Hc | exact Ho | exact Hi | exact Hr
              | exact Hd].
  intros l Hin. cbn in Hin. apply elem_of_app in Hin.
  destruct Hin as [Hin|Hin]; [exact (Hl l Hin)|].
  apply list_elem_of_singleton in Hin. right. exists (lid s). exact Hin.
Qed.

Lemma bodyPhase_nothingRecorded m s :
  nothingRecorded s -> nothingRecorded (snd (bodyPhase None m s)).
Proof.
  unfold bodyPhase. revert s.
  induction (walk m) as [|o os IH]; intros s H; [exact H|].
  cbn [forM_]. unfold bind.
  pose proof (visit_nothingRecorded o s H) as Hv.
  destruct (visit None o s) as [[[]|] s1]; cbn [snd] in *;
    [apply IH; exact Hv | exact Hv].
Qed.

Lemma runOnModule_nothingRecorded m s :
  nothingRecorded s -> nothingRecorded (snd (runOnModule None m s)).
Proof.
  intros H. unfold runOnModule, bind.
  pose proof (portsPhase_asserting m s (proj1 H)) as Hp.
  destruct (portsPhase None m s) as [[[]|] s1]; cbn [snd] in Hp; subst s1;
    [|exact H].
  pose proof (bodyPhase_nothingRecorded m s H) as Hb.
  destruct (bodyPhase None m s) as [[[]|] s2]; cbn [snd] in Hb; [|exact Hb].
  destruct Hb as (Hs & Hc & Ho & Hi & Hr & Hd & Hl).
  unfold registerTransitionPhase, bind, gets. rewrite Hr. cbn.
  repeat split;
    try first [exact Hs | exact Hc | exact Ho | exact Hi | exact Hr
              | exact Hd].
  intros l Hin. apply elem_of_app in Hin.
  destruct Hin as [Hin|Hin]; [exact (Hl l Hin)|].
  apply list_elem_of_singleton in Hin. left. exact Hin.
Qed.

Lemma runOnOperation_nothingRecorded ms s :
  nothingRecorded s -> nothingRecorded (snd (runOnOperation None ms s)).
Proof.
  unfold runOnOperation. revert s.
  induction ms as [|m ms IH]; intros s H; [exact H|].
  cbn [forM_]. unfold bind.
  pose proof (runOnModule_nothingRecorded m s H) as Hm.
  destruct (runOnModule None m s) as [[[]|] s1]; cbn [snd] in *;
    [apply IH; exact Hm | exact Hm].
Qed.

Lemma nothingRecorded_init : nothingRecorded initState.
Proof.
  repeat split; try reflexivity. intros l Hl. cbn in Hl.
  apply elem_of_nil in Hl. contradiction.
Qed.

(** X22: with [DenseMap::at] as the library has it (it aborts on a missing
    key), a run of the pass from its initial state records nothing: the
    sort, constant, op-LID and input-LID tables stay empty, no register
    is recorded, the reset line stays the sentinel, and all that is
    printed are banners and [constraint] lines on the sentinel. *)
Theorem asserting_at_records_nothing (ms : list HWModuleOp) :
  nothingRecorded (snd (runOnOperation None ms initState)).
Proof.
  exact (runOnOperation_nothingRecorded ms initState
           nothingRecorded_init).
Qed.

(** ** The reset sentinel over a run *)

Lemma sameReset_runOnModule at_missing m s :
  noResetPort m -> sameReset s (snd (runOnModule at_missing m s)).
Proof.
  intros Hm.
  assert (Hsb : sameReset s
            (snd ((portsPhase at_missing m ;;; bodyPhase at_missing m) s))).
  { unfold bind.
    pose proof (sameReset_portsPhase at_missing m s Hm) as Hp.
    destruct (portsPhase at_missing m s) as [[[]|] s1]; cbn [snd] in Hp |- *;
      [|exact Hp].
    eapply sameReset_trans; [exact Hp | apply sameReset_bodyPhase]. }
  destruct (runOnModule_after_body at_missing m s) as [Hr _].
  unfold sameReset in *. congruence.
Qed.

Lemma sameReset_runOnOperation at_missing ms s :
  Forall noResetPort ms ->
  sameReset s (snd (runOnOperation at_missing ms s)).
Proof.
  unfold runOnOperation. intros Hms. revert s.
  induction Hms as [|m ms Hm _ IH]; intros s; [reflexivity|].
  cbn [forM_]. unfold bind.
  pose proof (sameReset_runOnModule at_missing m s Hm) as H1.
  destruct (runOnModule at_missing m s) as [[[]|] s1]; cbn [snd] in *;
    [|exact H1].
  eapply sameReset_trans; [exact H1 | apply IH].
Qed.

(** From the initial state, a stream of fewer than [2^64 - 1] lines has
    no line that carries the sentinel as its identifier. *)
Lemma no_sentinel_line at_missing ms m :
  let s' := snd (runOnModule at_missing m
                   (snd (runOnOperation at_missing ms initState))) in
  Z.of_nat (length (outs s')) < noLID ->
  forall l, l ∈ outs s' -> leading l <> Some noLID.
Proof.
  intros s' Hlen l Hl Hlead.
  assert (H0 : lid_ok initState)
    by (unfold lid_ok; cbn; split; [lia|reflexivity]).
  destruct (numbered_trans _ _ _
              (numbered_runOnOperation at_missing ms initState)
              (numbered_runOnModule at_missing m _) H0)
    as (_ & added & Ha & Hids & _).
  fold s' in Ha. cbn in Ha. rewrite Ha in Hl, Hlen.
  pose proof (leading_elem _ _ _ Hl Hlead) as Hin. rewrite Hids in Hin.
  pose proof (leading_lids_length added) as Hle.
  assert (noLID < noLID); [|lia].
  eapply lids_from_below; [| |exact Hin]; cbn; lia.
Qed.

Lemma sentinelReset_from at_missing ms m :
  resetLID (snd (runOnOperation at_missing ms initState)) = noLID ->
  noResetPort m ->
  sentinelReset at_missing (snd (runOnOperation at_missing ms initState)) m.
Proof.
  intros Hs Hm.
  destruct (reset_sentinel_from_state at_missing m _ Hs Hm)
    as (H1 & H2 & H3 & _).
  split; [exact Hs|]. split; [exact H1|]. split; [exact H2|].
  split; [exact H3|]. apply no_sentinel_line.
Qed.



(** ** No table is cleared *)

Lemma is_Some_insert `{Countable K} {A} (m : gmap K A) k j x :
  is_Some (m !! k) -> is_Some (<[j := x]> m !! k).
Proof.
  intros Hk. destruct (decide (j = k)) as [->|Hne].
  - rewrite lookup_insert_eq. eexists. reflexivity.
  - rewrite lookup_insert_ne by exact Hne. exact Hk.
Qed.

Lemma tablesGrow_refl s : tablesGrow s s.
Proof. repeat split; auto. Qed.

Lemma tablesGrow_runOnOperation at_missing ms s :
  tablesGrow s (snd (runOnOperation at_missing ms s)).
Proof.
  pose proof (kept_runOnOperation at_missing (tablesGrow s) (fun _ => True))
    as K.
  apply K; [..|apply tablesGrow_refl].
  - intros rest s1 H. exact H.
  - intros l s1 H. exact H.
  - intros op s1 (H1 & H2 & H3 & H4 & H5). unfold setOpLID.
    destruct (decide _); [|repeat split; assumption].
    repeat split; try assumption.
    intros o Ho. cbn. apply is_Some_insert. exact (H3 o Ho).
  - intros a op _ s1 (H1 & H2 & H3 & H4 & H5).
    repeat split; try assumption.
    intros b Hb. cbn. apply is_Some_insert. exact (H4 b Hb).
  - intros w s1 (H1 & H2 & H3 & H4 & H5). repeat split; try assumption.
    intros w' Hw. cbn. apply is_Some_insert. exact (H1 w' Hw).
  - intros c s1 (H1 & H2 & H3 & H4 & H5). repeat split; try assumption.
    intros c' Hc. cbn. apply is_Some_insert. exact (H2 c' Hc).
  - intros i s1 (H1 & H2 & H3 & H4 & H5). repeat split; try assumption.
    intros i' Hi. cbn. apply is_Some_insert. exact (H5 i' Hi).
  - intros s1 H. exact H.
  - intros o s1 H. exact H.
  - intros m o _ _. exact I.
Qed.

Lemma tablesGrow_runOnModule at_missing m s :
  tablesGrow s (snd (runOnModule at_missing m s)).
Proof.
  pose proof (tablesGrow_runOnOperation at_missing [m] s) as H.
  unfold runOnOperation in H. cbn [forM_] in H. unfold bind in H.
  destruct (runOnModule at_missing m s) as [[[]|] s1]; exact H.
Qed.

(** C10: the state of the pass is kept from one module to the next. A run
    over [ms1 ++ ms2] is the run over [ms1] followed, in the state it
    left, by the run over [ms2]. For a module [m] walked in the state [s]
    left by earlier modules: its lines are numbered on from [lid s]; no
    table is cleared: every key of the sort table, the constant table,
    the op-LID map, the alias map and the input-LID map in [s] is still a
    key after [m], and after any further modules; a sort or zero recorded
    in [s] keeps its line, no sort line is printed again for such a
    width, and [genSort] and [genZero] do nothing for it; the list of
    registers is only extended, and the transition loop of [m] runs over
    the registers recorded in [s] followed by those of [m]. For the two
    modules [counter8], [counter8'] the second banner is preceded by the
    [ite]/[next] pair of the first module's register (state line 4) and
    then that of the second (state line 11). *)
Theorem C10_state_kept_across_modules
    (at_missing : option Z) (s : PassState) (m : HWModuleOp) :
  let s' := snd (runOnModule at_missing m s) in
  (forall ms1 ms2 s0,
     runOnOperation at_missing (ms1 ++ ms2) s0 =
     (runOnOperation at_missing ms1 ;;; runOnOperation at_missing ms2) s0) /\
  numbered s s' /\
  tablesGrow s s' /\
  (forall ms, tablesGrow s (snd (runOnOperation at_missing ms s'))) /\
  persists s s' /\
  (forall ty w, sortRecorded s w ->
                genSort at_missing ty w s = (Done tt, s)) /\
  (forall w, zeroRecorded s w -> genZero at_missing w s = (Done tt, s)) /\
  (exists later,
     runOnModule at_missing m s =
     ((portsPhase at_missing m ;;; bodyPhase at_missing m) ;;;
      forM_ (regOps s ++ later) (genRegTransition at_missing) ;;;
      print [FStr bannerStr]) s) /\
  drop 10 (outs (snd (runOnOperation (Some noLID) [counter8; counter8']
                        initState))) =
    [ [FNum 10; FStr wsStr; FStr inputStr; FStr wsStr; FNum 1; FStr wsStr;
       FStr "reset"; FStr nlStr];
      [FNum 11; FStr wsStr; FStr stateStr; FStr wsStr; FNum 3; FStr wsStr;
       FStr "q"; FStr nlStr];
      [FNum 12; FStr wsStr; FStr constdStr; FStr wsStr; FNum 3; FStr wsStr;
       FNum 1; FStr nlStr];
      [FNum 13; FStr wsStr; FStr addStr; FStr wsStr; FNum 3; FStr wsStr;
       FNum 11; FStr wsStr; FNum 12; FStr nlStr];
      iteLine 14 3 10 7 8; nextLine 15 3 4 14;
      iteLine 16 3 10 7 13; nextLine 17 3 11 16;
      [FStr bannerStr] ].
Proof.
  intros s'.
  destruct (state_kept_by_module at_missing s m)
    as (H1 & H2 & H3 & H4 & H5 & H6 & H7).
  pose proof (tablesGrow_runOnModule at_missing m s) as Hg. fold s' in Hg.
  split; [exact H1|]. split; [exact H2|]. split; [exact Hg|].
  split.
  { intros ms.
    pose proof (tablesGrow_runOnOperation at_missing ms s')
      as (G1 & G2 & G3 & G4 & G5).
    destruct Hg as (F1 & F2 & F3 & F4 & F5).
    repeat split; auto. }
  split; [exact H3|]. split; [exact H4|]. split; [exact H5|].
  split; [exact H6 | exact H7].
Qed.

Lemma C10_state_kept_across_modules_witness :
  let s := snd (runOnOperation (Some noLID) [counter8] initState) in
  let s' := snd (runOnModule (Some noLID) counter8' s) in
  sortRecorded s 8 /\ zeroRecorded s 8 /\
  is_Some (opLIDMap s !! 1%N) /\ is_Some (inputLIDs s !! 1) /\
  sortToLIDMap s' !! 8 = Some 3 /\
  constToLIDMap s' !! (0, 8) = Some 7 /\
  is_Some (opLIDMap s' !! 1%N) /\ is_Some (inputLIDs s' !! 1) /\
  genSort (Some noLID) bitvecStr 8 s = (Done tt, s) /\
  genZero (Some noLID) 8 s = (Done tt, s).
Proof.
  intros s s'.
  assert (Hs : sortRecorded s 8)
    by (exists 3; split; [vm_compute; reflexivity | vm_compute; discriminate]).
  assert (Hz : zeroRecorded s 8)
    by (exists 7; split; [vm_compute; reflexivity | vm_compute; discriminate]).
  assert (Ho : is_Some (opLIDMap s !! 1%N))
    by (eexists; vm_compute; reflexivity).
  assert (Hi : is_Some (inputLIDs s !! 1))
    by (eexists; vm_compute; reflexivity).
  destruct (C10_state_kept_across_modules (Some noLID) s counter8')
    as (_ & _ & (_ & _ & Hop & _ & Hin) & _ & (Hsort & Hzero & _) &
        HgenSort & HgenZero & _).
  split; [exact Hs|]. split; [exact Hz|]. split; [exact Ho|].
  split; [exact Hi|].
  split; [etransitivity; [apply (Hsort 8 Hs)|vm_compute; reflexivity]|].
  split; [etransitivity; [apply (Hzero 8 Hz)|vm_compute; reflexivity]|].
  split; [exact (Hop _ Ho)|]. split; [exact (Hin _ Hi)|].
  split; [apply (HgenSort bitvecStr 8 Hs) | apply (HgenZero 8 Hz)].
Defined.

(** ** The transition of a register fed by a port *)



End BTOR2Props.

(** * Further properties of the LTL-to-Core lowering *)

Module LTLToCoreProps.
Import LTLToCore LTLToCoreFacts.

(** ** The non-overlapping implication over clock cycles *)

Section NOIRun.

Variables (edge : ClockEdge) (a b d clk : Value) (n : Z).
Hypothesis a_bool : getType a = i1.
Hypothesis d_bool : getType d = i1.
Variables (label : option string) (base : N).
Variables (rp : list (N * Value)) (er : list N).
Hypothesis n_pos : 1 <= n.

Let m := Z.to_nat (n - 1).
Let W := IntegerType (Z.log2 n + 1).
Let v := fun (k : nat) (ty : Type_) => OpResult (base + N.of_nat k) ty.
Let rw := mk base (noiCircuit edge a b d clk n label base m) rp er.

Variables (T : nat) (tr : nat -> Value -> Z) (A B D : nat -> bool).
Hypothesis run : isRun rw T tr.
Hypothesis signals :
  forall t, (t <= T)%nat ->
    tr t a = Z.b2z (A t) /\ tr t b = Z.b2z (B t) /\ tr t d = Z.b2z (D t).

Lemma d_not_null : bool_decide (d = NullValue) = false.
Proof.
  apply bool_decide_eq_false_2. intros Heq. rewrite Heq in d_bool.
  discriminate d_bool.
Qed.

Lemma n_fits : n < 2 ^ (Z.log2 n + 1).
Proof.
  replace (Z.log2 n + 1) with (Z.succ (Z.log2 n)) by lia.
  apply Z.log2_spec. lia.
Qed.

Lemma counter_op :
  created rw !! 8%nat =
    Some (CompReg (v 6%nat W) (v 7%nat ClockType) d (v 0%nat W) "delay_"
            (v 0%nat W)).
Proof.
  cbn [rw created]. rewrite noiCircuit_prefix by lia. reflexivity.
Qed.

Lemma stage0_op :
  created rw !! 10%nat =
    Some (CompReg a (v 7%nat ClockType) d (v 9%nat i1) "antecedent_0"
            (v 9%nat i1)).
Proof.
  cbn [rw created]. rewrite noiCircuit_prefix by lia. reflexivity.
Qed.

Lemma stage_op j :
  (j < m)%nat ->
  created rw !! (11 + j)%nat =
    Some (CompReg (v (10 + j)%nat i1) (v 7%nat ClockType) d (v 9%nat i1)
            ("antecedent_" +:+ pretty (Z.of_nat (S j))) (v 9%nat i1)).
Proof. intros Hj. cbn [rw created]. apply noiCircuit_regs. exact Hj. Qed.

Local Abbreviation noiState := (noiRegisters base n tr A D).

Lemma noi_at t :
  (t <= T)%nat -> noiState t ->
  let k := cyclesSince D t in
  tr t (v 0%nat W) = 0 /\
  tr t (v 9%nat i1) = 0 /\
  tr t (v 6%nat W) = Z.min (Z.of_nat (S k)) n /\
  tr t (v (17 + m)%nat i1) =
    Z.b2z (D t || (k <? Z.to_nat n)%nat ||
           (negb (A (t - Z.to_nat n)%nat) || B t)).
Proof.
  intros Ht [Hcnt Hst] k. fold m in Hst. destruct run as (Hc & _ & _).
  destruct (signals t Ht) as (_ & Hb & Hd).
  destruct (noi_semantics edge a b d clk n d_bool label base m rp er (tr t)
              _ _ _ _ n_pos (Hc t Ht) Hcnt (Hst m (le_n _)) Hb Hd)
    as (H0 & H9 & H6 & _ & H17).
  fold k in H6, H17. cbv delta [v W] beta in H0, H9, H6, H17 |- *.
  split; [exact H0|]. split; [exact H9|].
  pose proof n_fits as Hfit.
  split.
  - rewrite H6. destruct (Z.min (Z.of_nat k) n =? n) eqn:E.
    + apply Z.eqb_eq in E. lia.
    + apply Z.eqb_neq in E. rewrite Z.mod_small by lia. lia.
  - rewrite H17. f_equal.
    assert (Hk : (Z.min (Z.of_nat k) n <? n) = (k <? Z.to_nat n)%nat).
    { destruct (Nat.ltb_spec k (Z.to_nat n)); [apply Z.ltb_lt|apply Z.ltb_ge];
        lia. }
    rewrite Hk. destruct (Nat.ltb_spec k (Z.to_nat n)) as [Hlt|Hge].
    + destruct (D t); reflexivity.
    + rewrite bool_decide_eq_true_2 by (unfold m; lia).
      replace (t - 1 - m)%nat with (t - Z.to_nat n)%nat by (unfold m; lia).
      destruct (A (t - Z.to_nat n)%nat), (B t), (D t); reflexivity.
Qed.

Ltac plain := cbv delta [v W] beta.
Ltac plain_in H := cbv delta [v W] beta in H.

Lemma noiState_0 : noiState 0%nat.
Proof.
  destruct run as (Hc & Hinit & _).
  pose proof (Hc 0%nat (Nat.le_0_l _)) as Hc0.
  assert (H0 : tr 0%nat (v 0%nat W) = 0).
  { apply (Hc0 0%nat (Constant W 0) 0); [|reflexivity].
    cbn [rw created]. rewrite noiCircuit_prefix by lia. reflexivity. }
  assert (H9 : tr 0%nat (v 9%nat i1) = 0).
  { apply (Hc0 9%nat (Constant i1 0) 0); [|reflexivity].
    cbn [rw created]. rewrite noiCircuit_prefix by lia. reflexivity. }
  plain_in H0. plain_in H9.
  split; cbn [cyclesSince]; fold m; plain.
  - pose proof (Hinit _ _ _ _ _ _ _ counter_op) as H.
    cbn [rw firstId] in H. plain_in H. cbn [getType] in H.
    rewrite H, H0. lia.
  - intros i Hi. rewrite bool_decide_eq_false_2 by lia. cbn [andb Z.b2z].
    destruct i as [|j].
    + pose proof (Hinit _ _ _ _ _ _ _ stage0_op) as H.
      cbn [rw firstId] in H. plain_in H. rewrite a_bool in H.
      cbn [Nat.add]. rewrite H. exact H9.
    + pose proof (Hinit _ _ _ _ _ _ _ (stage_op j ltac:(lia))) as H.
      cbn [rw firstId] in H. plain_in H. cbn [getType] in H.
      replace (10 + S j)%nat with (11 + j)%nat by lia.
      rewrite H. exact H9.
Qed.

Lemma noiState_S t : (t < T)%nat -> noiState t -> noiState (S t).
Proof.
  intros Ht Hs. pose proof Hs as [Hcnt Hst]. fold m in Hst.
  destruct (noi_at t ltac:(lia) Hs) as (H0 & H9 & H6 & _).
  plain_in H0. plain_in H9. plain_in H6. plain_in Hst.
  destruct run as (_ & _ & Hstep).
  destruct (signals t ltac:(lia)) as (Ha & _ & Hd).
  assert (Hrst : (tr t d =? 1) = D t)
    by (rewrite Hd; destruct (D t); reflexivity).
  split; cbn [cyclesSince]; fold m; plain.
  - pose proof (Hstep t _ _ _ Ht counter_op eq_refl) as H.
    cbn [rw firstId resultType] in H. plain_in H. cbn [getType] in H.
    rewrite d_not_null, Hrst in H. cbn [negb andb] in H. rewrite H.
    destruct (D t); [rewrite H0; lia | rewrite H6; reflexivity].
  - intros i Hi. destruct i as [|j].
    + pose proof (Hstep t _ _ _ Ht stage0_op eq_refl) as H.
      cbn [rw firstId resultType] in H. plain_in H.
      rewrite a_bool, d_not_null, Hrst in H. cbn [negb andb] in H.
      cbn [Nat.add]. rewrite H. destruct (D t); [rewrite H9; reflexivity|].
      rewrite Ha. rewrite bool_decide_eq_true_2 by lia.
      replace (S t - 1 - 0)%nat with t by lia. reflexivity.
    + pose proof (Hstep t _ _ _ Ht (stage_op j ltac:(lia)) eq_refl) as H.
      cbn [rw firstId resultType] in H. plain_in H. cbn [getType] in H.
      rewrite d_not_null, Hrst in H. cbn [negb andb] in H.
      replace (10 + S j)%nat with (11 + j)%nat by lia. rewrite H.
      destruct (D t); [rewrite H9; reflexivity|].
      rewrite (Hst j ltac:(lia)).
      replace (S t - 1 - S j)%nat with (t - 1 - j)%nat by lia.
      f_equal. f_equal. apply bool_decide_ext. lia.
Qed.

Lemma noiState_all t : (t <= T)%nat -> noiState t.
Proof.
  induction t as [|t IH]; intros Ht; [apply noiState_0|].
  apply noiState_S; [lia | apply IH; lia].
Qed.

End NOIRun.

Section NOISemantics.

Variable ir : gmap N Operation.
Variables (clockId disableId implId concatId delayId constId : N).
Variables (edge : ClockEdge) (a b d clk : Value).
Variables (tyC tyD tyI tyS tyL tyO : Type_) (n : Z) (len : option Z).

Hypothesis clock_shape :
  ir !! clockId =
    Some {| kind := ClockOp edge;
            operands := [OpResult disableId tyD; clk] |}.
Hypothesis disable_shape :
  ir !! disableId =
    Some {| kind := DisableOp; operands := [OpResult implId tyI; d] |}.
Hypothesis impl_shape :
  ir !! implId =
    Some {| kind := ImplicationOp;
            operands := [OpResult concatId tyS; b] |}.
Hypothesis concat_shape :
  ir !! concatId =
    Some {| kind := ConcatOp; operands := [a; OpResult delayId tyL] |}.
Hypothesis delay_shape :
  ir !! delayId =
    Some {| kind := DelayOp n len; operands := [OpResult constId tyO] |}.
Hypothesis const_shape : isConstantOne ir constId = true.
Hypothesis a_bool : getType a = i1.
Hypothesis b_bool : getType b = i1.
Hypothesis d_bool : getType d = i1.
Hypothesis clk_bool : getType clk = i1.

(** X15: the circuit built for [a ##n true |-> b] checks the delayed
    implication: over any run, with the signals [a], [b], [d] given cycle
    by cycle, the counter holds the number of cycles since the last
    disable, saturated at [n]; stage [i] of the pipeline holds the
    antecedent of [i + 1] cycles before when no disable came since; and the
    asserted value is 1 exactly when the disable is high, or fewer than
    [n] cycles have passed since the last disable, or the antecedent of
    [n] cycles before implies the consequent of this cycle. *)
Theorem noi_checks_delayed_implication
    (op : N) (label : option string) (base : N) :
  len = Some 0 -> 1 <= n < 2 ^ 64 ->
  inputValue base a -> inputValue base b -> inputValue base d ->
  inputValue base clk ->
  let res := Assert_matchAndRewrite ir op (OpResult clockId tyC) label
               (newRewriter base) in
  let m := Z.to_nat (n - 1) in
  let v := fun (k : nat) (ty : Type_) => OpResult (base + N.of_nat k) ty in
  forall (T : nat) (tr : nat -> Value -> Z) (A B D : nat -> bool),
    isRun (snd res) T tr ->
    (forall t, (t <= T)%nat ->
       tr t a = Z.b2z (A t) /\ tr t b = Z.b2z (B t) /\
       tr t d = Z.b2z (D t)) ->
    created (snd res) !! (19 + m)%nat =
      Some (SVAssert (v (17 + m)%nat i1) label
              (base + N.of_nat (18 + m))%N) /\
    forall t, (t <= T)%nat ->
      let k := cyclesSince D t in
      tr t (v 8%nat (IntegerType (Z.log2 n + 1))) = Z.min (Z.of_nat k) n /\
      (forall i, (i <= m)%nat ->
         tr t (v (10 + i)%nat i1) =
           Z.b2z (bool_decide (i < k)%nat && A (t - 1 - i)%nat)) /\
      tr t (v (17 + m)%nat i1) =
        Z.b2z (D t || (k <? Z.to_nat n)%nat ||
               (negb (A (t - Z.to_nat n)%nat) || B t)).
Proof.
  intros Hlen Hn Ha Hb Hd Hclk res m v T tr A B D. unfold res.
  rewrite (matchAndRewrite_NOI ir clockId disableId implId concatId delayId
             constId edge a b d clk tyC tyD tyI tyS tyL tyO n len
             clock_shape disable_shape impl_shape concat_shape delay_shape
             const_shape a_bool b_bool d_bool clk_bool op label base
             Hlen Hn Ha Hb Hd Hclk).
  cbn [snd]. fold m. intros Hrun Hsig.
  split.
  { cbn [created]. replace (19 + m)%nat with (11 + m + 8)%nat by lia.
    rewrite noiCircuit_suffix. reflexivity. }
  intros t Ht. cbv zeta.
  pose proof (noiState_all edge a b d clk n a_bool d_bool label base _ _
                ltac:(lia) T tr A B D Hrun Hsig t Ht) as Hs.
  destruct (noi_at edge a b d clk n d_bool label base _ _ ltac:(lia)
              T tr A B D Hrun Hsig t Ht Hs) as (_ & _ & _ & H17).
  destruct Hs as [Hc Hst].
  split; [exact Hc|]. split; [exact Hst | exact H17].
Qed.

End NOISemantics.

Ltac each_op k Hk tac :=
  do 22 (destruct k as [|k]; [vm_compute in Hk; tac|]);
  vm_compute in Hk; discriminate Hk.

Lemma noi_checks_delayed_implication_witness :
  let res := Assert_matchAndRewrite (irNOI 3 (Some 0)) 7
               (OpResult 6 PropertyType) None (newRewriter 100) in
  let tr := traceOf (snd res) pulseEnvs in
  isRun (snd res) 4 tr /\
  tr 2%nat (OpResult (100 + N.of_nat 8) (IntegerType (Z.log2 3 + 1))) = 2 /\
  tr 3%nat (OpResult (100 + N.of_nat (17 + Z.to_nat (3 - 1))) i1) = 0 /\
  tr 4%nat (OpResult (100 + N.of_nat (17 + Z.to_nat (3 - 1))) i1) = 1.
Proof.
  intros res tr.
  assert (Hin : forall v, getDefiningOp v = None -> inputValue 100 v)
    by (intros v Hv id Hid; congruence).
  assert (Hrun : isRun (snd res) 4 tr).
  { split; [|split].
    - intros t Ht k op z Hk Hz.
      do 5 (destruct t as [|t];
            [each_op k Hk ltac:(injection Hk as <-; vm_compute in Hz;
               lazymatch type of Hz with
               | None = _ => discriminate Hz
               | Some _ = _ => injection Hz as <-; vm_compute; reflexivity
               end)|]).
      lia.
    - intros k i c r rv nm iv Hk.
      each_op k Hk ltac:(first [discriminate Hk
                               | injection Hk as <- <- <- <- <- <-;
                                 vm_compute; reflexivity]).
    - intros t k op z Ht Hk Hz.
      do 4 (destruct t as [|t];
            [each_op k Hk ltac:(injection Hk as <-; vm_compute in Hz;
               lazymatch type of Hz with
               | None = _ => discriminate Hz
               | Some _ = _ => injection Hz as <-; vm_compute; reflexivity
               end)|]).
      lia. }
  split; [exact Hrun|].
  assert (H6 : irNOI 3 (Some 0) !! 6%N =
               Some {| kind := ClockOp Pos;
                       operands := [OpResult 5 PropertyType; sig_clk] |})
    by (vm_compute; reflexivity).
  assert (H5 : irNOI 3 (Some 0) !! 5%N =
               Some {| kind := DisableOp;
                       operands := [OpResult 4 PropertyType; sig_d] |})
    by (vm_compute; reflexivity).
  assert (H4 : irNOI 3 (Some 0) !! 4%N =
               Some {| kind := ImplicationOp;
                       operands := [OpResult 3 SequenceType; sig_b] |})
    by (vm_compute; reflexivity).
  assert (H3 : irNOI 3 (Some 0) !! 3%N =
               Some {| kind := ConcatOp;
                       operands := [sig_a; OpResult 2 SequenceType] |})
    by (vm_compute; reflexivity).
  assert (H2 : irNOI 3 (Some 0) !! 2%N =
               Some {| kind := DelayOp 3 (Some 0);
                       operands := [OpResult 1 i1] |})
    by (vm_compute; reflexivity).
  assert (H1 : isConstantOne (irNOI 3 (Some 0)) 1 = true)
    by (vm_compute; reflexivity).
  assert (Hsig : forall t, (t <= 4)%nat ->
            tr t sig_a = Z.b2z (Nat.eqb t 0) /\
            tr t sig_b = Z.b2z false /\ tr t sig_d = Z.b2z false).
  { intros t Ht. do 5 (destruct t as [|t]; [vm_compute; auto|]). lia. }
  pose proof (noi_checks_delayed_implication (irNOI 3 (Some 0)) 6 5 4 3 2 1
                Pos sig_a sig_b sig_d sig_clk
                PropertyType PropertyType PropertyType SequenceType
                SequenceType i1 3 (Some 0)
                H6 H5 H4 H3 H2 H1 eq_refl eq_refl eq_refl eq_refl
                7 None 100 eq_refl ltac:(lia)
                (Hin sig_a eq_refl) (Hin sig_b eq_refl) (Hin sig_d eq_refl)
                (Hin sig_clk eq_refl) 4%nat tr
                (fun t => Nat.eqb t 0) (fun _ => false) (fun _ => false)
                Hrun Hsig) as [_ Hthm].
  pose proof (Hthm 2%nat ltac:(lia)) as (Hc2 & _ & _).
  pose proof (Hthm 3%nat ltac:(lia)) as (_ & _ & Ha3).
  pose proof (Hthm 4%nat ltac:(lia)) as (_ & _ & Ha4).
  cbv zeta in Hc2, Ha3, Ha4.
  split; [exact Hc2|]. split; [exact Ha3 | exact Ha4].
Defined.

(** ** [has_been_reset] over clock cycles *)

(** X16: over any run of the circuit of [has_been_reset], the register holds
    whether the reset was high at some earlier cycle, and the output is 1
    exactly when it was and the reset is low now. *)
Theorem hbr_output_over_runs (op base : N) (clock reset : Value) :
  getType reset = i1 ->
  inputValue base reset ->
  inputValue base clock ->
  let res := HasBeenReset_matchAndRewrite op clock reset (newRewriter base) in
  forall (T : nat) (tr : nat -> Value -> Z) (R : nat -> bool),
    isRun (snd res) T tr ->
    (forall t, (t <= T)%nat -> tr t reset = Z.b2z (R t)) ->
    replaced (snd res) = [(op, new base 7 i1)] /\
    forall t, (t <= T)%nat ->
      tr t (new base 5 i1) = Z.b2z (existsb R (seq 0 t)) /\
      tr t (new base 7 i1) = Z.b2z (existsb R (seq 0 t) && negb (R t)).
Proof.
  intros Ht Hr Hc res T tr R. unfold res.
  rewrite (matchAndRewrite_hbr op base clock reset Ht Hr Hc).
  cbn [snd replaced]. intros (Hcons & Hinit & Hstep) Hsig.
  split; [reflexivity|].
  assert (Hreg : forall t, (t <= T)%nat ->
            tr t (new base 5 i1) = Z.b2z (existsb R (seq 0 t))).
  { induction t as [|t IH]; intros Hle.
    - pose proof (Hinit 5%nat _ _ _ _ _ _ eq_refl) as H.
      pose proof (Hcons 0%nat Hle 0%nat _ _ eq_refl eq_refl) as H0.
      unfold new in *. cbn [firstId getType resultType] in H, H0.
      change (N.of_nat 5) with 5%N in H. change (N.of_nat 0) with 0%N in H0.
      rewrite H, H0. reflexivity.
    - pose proof (Hstep t 5%nat _ _ ltac:(lia) eq_refl eq_refl) as H.
      pose proof (Hcons t ltac:(lia) 3%nat _ _ eq_refl eq_refl) as H3.
      unfold new in *. cbn [firstId getType resultType opSem] in H, H3.
      change (N.of_nat 5) with 5%N in H. change (N.of_nat 3) with 3%N in H3.
      rewrite Ht in H3. rewrite H, H3, (IH ltac:(lia)), (Hsig t ltac:(lia)).
      rewrite seq_S, existsb_app. cbn [existsb Nat.add].
      destruct (R t), (existsb R (seq 0 t)); reflexivity. }
  intros t Hle. split; [apply Hreg; exact Hle|].
  pose proof (Hcons t Hle 1%nat _ _ eq_refl eq_refl) as H1.
  pose proof (Hcons t Hle 6%nat _ _ eq_refl eq_refl) as H6.
  pose proof (Hcons t Hle 7%nat _ _ eq_refl eq_refl) as H7.
  pose proof (Hreg t Hle) as H5.
  unfold new in *. cbn [firstId getType resultType opSem] in H1, H6, H7.
  change (N.of_nat 1) with 1%N in H1. change (N.of_nat 6) with 6%N in H6.
  change (N.of_nat 7) with 7%N in H7.
  rewrite Ht in H6. rewrite H7, H6, H5, H1, (Hsig t Hle).
  destruct (R t), (existsb R (seq 0 t)); reflexivity.
Qed.

Lemma hbr_output_over_runs_witness :
  let res := HasBeenReset_matchAndRewrite 9 sig_a sig_b (newRewriter 100) in
  let tr := traceOf (snd res) resetEnvs in
  getType sig_b = i1 /\ inputValue 100 sig_b /\ inputValue 100 sig_a /\
  isRun (snd res) 5 tr /\
  map (fun t => tr t (new 100 7 i1)) (seq 0 6) = [0; 0; 1; 1; 0; 1].
Proof.
  intros res tr.
  assert (Hb : inputValue 100 sig_b) by (intros id H; discriminate H).
  assert (Ha : inputValue 100 sig_a) by (intros id H; discriminate H).
  assert (Hrun : isRun (snd res) 5 tr).
  { split; [|split].
    - intros t Ht k op z Hk Hz.
      do 6 (destruct t as [|t];
            [do 8 (destruct k as [|k];
                   [vm_compute in Hk; injection Hk as <-; vm_compute in Hz;
                    lazymatch type of Hz with
                    | None = _ => discriminate Hz
                    | Some _ = _ => injection Hz as <-; vm_compute; reflexivity
                    end|]);
             vm_compute in Hk; discriminate Hk|]).
      lia.
    - intros k i c r rv nm iv Hk.
      do 8 (destruct k as [|k];
            [vm_compute in Hk;
             first [discriminate Hk
                   | injection Hk as <- <- <- <- <- <-;
                     vm_compute; reflexivity]|]).
      vm_compute in Hk. discriminate Hk.
    - intros t k op z Ht Hk Hz.
      do 5 (destruct t as [|t];
            [do 8 (destruct k as [|k];
                   [vm_compute in Hk; injection Hk as <-; vm_compute in Hz;
                    lazymatch type of Hz with
                    | None = _ => discriminate Hz
                    | Some _ = _ => injection Hz as <-; vm_compute; reflexivity
                    end|]);
             vm_compute in Hk; discriminate Hk|]).
      lia. }
  assert (Hsig : forall t, (t <= 5)%nat ->
            tr t sig_b = Z.b2z (Nat.eqb t 0 || Nat.eqb t 1 || Nat.eqb t 4)).
  { intros t Ht. do 6 (destruct t as [|t]; [vm_compute; auto|]). lia. }
  destruct (hbr_output_over_runs 9 100 sig_a sig_b eq_refl Hb Ha 5%nat tr
              _ Hrun Hsig) as [_ Hout].
  split; [reflexivity|]. split; [exact Hb|]. split; [exact Ha|].
  split; [exact Hrun|].
  cbn [map seq].
  rewrite (proj2 (Hout 0%nat ltac:(lia))), (proj2 (Hout 1%nat ltac:(lia))),
    (proj2 (Hout 2%nat ltac:(lia))), (proj2 (Hout 3%nat ltac:(lia))),
    (proj2 (Hout 4%nat ltac:(lia))), (proj2 (Hout 5%nat ltac:(lia))).
  reflexivity.
Defined.

(** ** Outcomes of the assertion rewrite *)

Lemma match_unrooted ir property m1 m2 b :
  rootedInClock ir property = false ->
  matchPattern ir property (m_OpWithBind isa_ClockOp set_clockOp [m1; m2]) b =
    (false, b).
Proof.
  unfold rootedInClock, matchPattern. intros H. cbn [matchValue].
  destruct (getDefiningOp property) as [id|]; [|reflexivity].
  destruct (ir !! id) as [o|]; [|reflexivity].
  cbn [length]. rewrite H. reflexivity.
Qed.

(** X18: a property that is not the result of a clock operation (a block
    argument, the result of another operation, of an operation that is
    not in the IR) is rejected, and nothing is changed. *)
Theorem unclocked_property_rejected (ir : gmap N Operation) (op : N)
    (property : Value) (label : option string) (rw : Rewriter) :
  rootedInClock ir property = false ->
  Assert_matchAndRewrite ir op property label rw =
    (failure (Some op) "AssertProperty format is invalid!", rw).
Proof.
  intros H. unfold Assert_matchAndRewrite, patternNOI, patternOI,
    patternAssertProperty.
  rewrite (match_unrooted ir property _ _ _ H). cbv beta iota.
  cbn [andb].
  rewrite (match_unrooted ir property _ _ _ H). cbv beta iota.
  rewrite (match_unrooted ir property _ _ _ H). reflexivity.
Qed.

(** *** Which outcomes the rewrite has *)

Lemma bind_fst {A B} (m : R A) (k : A -> R B) rw :
  fst (bind m k rw) = fst (k (fst (m rw)) (snd (m rw))).
Proof. unfold bind. destruct (m rw). reflexivity. Qed.

Lemma makeNOI_ok ir an co dl cl dc rw :
  fst (fst (makeNonOverlappingImplication ir an co dl cl dc rw)) = true.
Proof.
  unfold makeNonOverlappingImplication.
  repeat (rewrite bind_fst; cbv beta). reflexivity.
Qed.

Lemma emitAssert_success ir op label b rw :
  disableOp b <> None -> clockOp b <> None ->
  fst (emitAssert ir op label b rw) = success.
Proof.
  intros Hd Hc. unfold emitAssert.
  destruct (disableOp b); [|contradiction].
  destruct (clockOp b); [|contradiction].
  repeat (rewrite bind_fst; cbv beta). reflexivity.
Qed.

Lemma matchValue_two ir isa opBind m1 m2 v b :
  matchValue ir (m_OpWithBind isa opBind [m1; m2]) v b =
  match getDefiningOp v with
  | Some id =>
      match ir !! id with
      | Some o =>
          match operands o with
          | [v1; v2] =>
              if isa (kind o) then
                let '(r1, b1) := matchValue ir m1 v1 b in
                let '(r2, b2) := matchValue ir m2 v2 b1 in
                if r1 && r2 then (true, opBind id b2) else (false, b2)
              else (false, b)
          | _ => (false, b)
          end
      | None => (false, b)
      end
  | None => (false, b)
  end.
Proof.
  cbn [matchValue].
  destruct (getDefiningOp v) as [id|]; [|reflexivity].
  destruct (ir !! id) as [o|]; [|reflexivity].
  destruct (operands o) as [|v1 [|v2 [|v3 vs]]]; cbn [length Nat.eqb];
    rewrite ?andb_false_r; try reflexivity.
  destruct (isa (kind o)); [|reflexivity]. cbn [andb].
  destruct (matchValue ir m1 v1 b) as [r1 b1].
  destruct (matchValue ir m2 v2 b1) as [r2 b2].
  rewrite andb_true_r. reflexivity.
Qed.

Lemma disable_bound ir ms v b b' :
  matchValue ir (m_OpWithBind isa_DisableOp set_disableOp ms) v b =
    (true, b') ->
  disableOp b' <> None.
Proof.
  cbn [matchValue].
  destruct (getDefiningOp v) as [id|]; [|discriminate].
  destruct (ir !! id) as [o|]; [|discriminate].
  destruct (isa_DisableOp (kind o) && _); [|discriminate].
  match goal with
  | |- context [let '(res, b') := ?x in _] => destruct x as [r1 b1]
  end.
  destruct r1; intros [= <-]. discriminate.
Qed.

Lemma clocked_disabled_bound ir ms v b b' :
  matchPattern ir v
    (m_OpWithBind isa_ClockOp set_clockOp
       [m_OpWithBind isa_DisableOp set_disableOp ms; m_Bool set_ltlClock])
    b = (true, b') ->
  clockOp b' <> None /\ disableOp b' <> None.
Proof.
  unfold matchPattern. rewrite matchValue_two.
  destruct (getDefiningOp v) as [id|]; [|discriminate].
  destruct (ir !! id) as [o|]; [|discriminate].
  destruct (operands o) as [|v1 [|v2 [|v3 vs]]]; try discriminate.
  destruct (isa_ClockOp (kind o)); [|discriminate].
  destruct (matchValue ir (m_OpWithBind isa_DisableOp set_disableOp ms) v1 b)
    as [r1 b1] eqn:E1.
  cbn [matchValue].
  destruct (isSignlessInteger 1 (getType v2)); destruct r1; cbn [andb];
    intros [= <-].
  split; [discriminate|]. exact (disable_bound _ _ _ _ _ E1).
Qed.

(** X19: the rewrite of an assertion succeeds or reports one of two match
    failures: a delay whose length is not 0, or a format that is not
    recognised. Its other three diagnostics are never produced. *)
Theorem assert_rewrite_outcomes (ir : gmap N Operation) (op : N)
    (property : Value) (label : option string) (rw : Rewriter) :
  let r := fst (Assert_matchAndRewrite ir op property label rw) in
  r = success \/
  (exists o, r = failure o " Delay must have a length of 0!") \/
  r = failure (Some op) "AssertProperty format is invalid!".
Proof.
  cbv zeta. unfold Assert_matchAndRewrite.
  destruct (matchPattern ir property patternNOI noBindings) as [m1 b1] eqn:E1.
  destruct m1; cbn [andb].
  - destruct (bool_decide _); cbn [negb].
    + left. rewrite bind_fst.
      pose proof (makeNOI_ok ir (antecedent b1) (consequent b1) (delayOp b1)
                    (clockOp b1) (disableCond b1) rw) as Hok.
      destruct (makeNonOverlappingImplication ir _ _ _ _ _ rw)
        as [[ok res] rw1]. cbn [fst snd] in *. subst ok. cbn [negb].
      destruct (clocked_disabled_bound _ _ _ _ _ E1) as [Hc Hd].
      apply emitAssert_success; assumption.
    + right. left. eexists. reflexivity.
  - destruct (matchPattern ir property patternOI b1) as [m2 b2] eqn:E2.
    destruct m2.
    + left. rewrite bind_fst.
      destruct (clocked_disabled_bound _ _ _ _ _ E2) as [Hc Hd].
      apply emitAssert_success; assumption.
    + destruct (matchPattern ir property patternAssertProperty b2)
        as [m3 b3] eqn:E3.
      destruct m3; cbn [negb].
      * left. destruct (clocked_disabled_bound _ _ _ _ _ E3) as [Hc Hd].
        apply emitAssert_success; assumption.
      * right. right. reflexivity.
Qed.

(** *** The plain clocked and disabled property *)

Section PlainProperty.

Variable ir : gmap N Operation.
Variables (clockId disableId : N) (edge : ClockEdge) (p d clk : Value).
Variables (tyC tyD : Type_).

(** [clock(disable(p, d), clk)] with 1-bit [p], [d], [clk]. *)
Hypothesis clock_shape :
  ir !! clockId =
    Some {| kind := ClockOp edge;
            operands := [OpResult disableId tyD; clk] |}.
Hypothesis disable_shape :
  ir !! disableId = Some {| kind := DisableOp; operands := [p; d] |}.
Hypothesis p_bool : getType p = i1.
Hypothesis d_bool : getType d = i1.
Hypothesis clk_bool : getType clk = i1.

Lemma matchPlain_shape b0 :
  matchPattern ir (OpResult clockId tyC) patternAssertProperty b0 =
    (true,
     set_clockOp clockId
       (set_ltlClock clk
          (set_disableOp disableId
             (set_disableCond d (set_disableInput p b0))))).
Proof.
  unfold matchPattern, patternAssertProperty. cbn [matchValue getDefiningOp].
  rewrite clock_shape. cbn [kind operands isa_ClockOp length Nat.eqb andb].
  cbn [matchValue getDefiningOp].
  rewrite disable_shape.
  cbn [kind operands isa_DisableOp length Nat.eqb andb].
  cbn [matchValue]. rewrite p_bool, d_bool, clk_bool.
  reflexivity.
Qed.

(** X17: for [assert(clock(disable(p, d), clk))] that neither implication
    pattern matches, the rewrite succeeds: it creates [d OR p], the
    [always] on the clock and, in it, the immediate assertion of the
    [OR]; the [OR] replaces the [disable], the assertion replaces the
    [verif.assert], and the [clock] is erased. In every valuation that
    agrees with the circuit the asserted value is [d || p]. *)
Theorem plain_property_lowering
    (op : N) (label : option string) (base : N) :
  fst (matchPattern ir (OpResult clockId tyC) patternNOI noBindings) = false ->
  fst (matchPattern ir (OpResult clockId tyC) patternOI
         (snd (matchPattern ir (OpResult clockId tyC) patternNOI
                 noBindings))) = false ->
  let res := Assert_matchAndRewrite ir op (OpResult clockId tyC) label
               (newRewriter base) in
  let cond := new base 0 i1 in
  fst res = success /\
  created (snd res) =
    [ Or d p;
      Always (ltlToSVEventControl edge) clk;
      SVAssert cond label (base + 1) ] /\
  replaced (snd res) = [(disableId, cond); (op, new base 2 OtherType)] /\
  (exists stale, erased (snd res) = clockId :: stale) /\
  (forall (val : Value -> Z) (x z : bool),
     consistent (snd res) val ->
     val p = Z.b2z x -> val d = Z.b2z z ->
     val cond = Z.b2z (z || x)).
Proof.
  intros Hnoi Hoi res cond.
  assert (Hp : p <> NullValue).
  { intros Heq. rewrite Heq in p_bool. discriminate p_bool. }
  assert (Hres : exists stale,
            res = (success,
                   mk base
                     [ Or d p; Always (ltlToSVEventControl edge) clk;
                       SVAssert cond label (base + 1) ]
                     [(disableId, cond); (op, new base 2 OtherType)]
                     (clockId :: stale))).
  { unfold res, Assert_matchAndRewrite.
    destruct (matchPattern ir (OpResult clockId tyC) patternNOI noBindings)
      as [m1 b1] eqn:E1. cbn [fst snd] in Hnoi, Hoi. subst m1.
    cbv beta iota. cbn [andb].
    destruct (matchPattern ir (OpResult clockId tyC) patternOI b1)
      as [m2 b2] eqn:E2. cbn [fst] in Hoi. subst m2. cbv beta iota.
    rewrite matchPlain_shape. cbv beta iota. cbn [negb].
    unfold emitAssert, visit_DisableOp, replaceOpWithNewOp,
      bind, create, replaceOp, ret, eraseOp_if, eraseOp, nextId, newRewriter.
    cbn. rewrite disable_shape, clock_shape. cbn.
    rewrite decide_False by exact Hp. rewrite d_bool.
    exists (optList (implOp b2) ++ optList (concatOp b2) ++
            optList (delayOp b2)).
    destruct (implOp b2), (concatOp b2), (delayOp b2); reflexivity. }
  destruct Hres as [stale Hres]. rewrite Hres.
  cbn [fst snd created replaced erased].
  split; [reflexivity|]. split; [reflexivity|]. split; [reflexivity|].
  split; [exists stale; reflexivity|].
  intros val x z Hc Hx Hz.
  pose proof (Hc 0%nat _ _ eq_refl eq_refl) as H0.
  unfold cond, new. cbn [firstId resultType getType opSem] in H0.
  change (N.of_nat 0) with 0%N in H0. rewrite d_bool in H0.
  rewrite H0, Hx, Hz. destruct x, z; reflexivity.
Qed.

End PlainProperty.

Lemma unclocked_property_rejected_witness :
  rootedInClock irOI sig_a = false /\
  Assert_matchAndRewrite irOI 4 sig_a (Some "lbl") rw0 =
    (failure (Some 4%N) "AssertProperty format is invalid!", rw0).
Proof.
  split; [reflexivity|].
  exact (unclocked_property_rejected irOI 4 sig_a (Some "lbl") rw0 eq_refl).
Defined.

Lemma plain_property_lowering_witness :
  let res := Assert_matchAndRewrite irPlain 3 (OpResult 2 PropertyType)
               (Some "lbl") (newRewriter 100) in
  let val := evalV (snd res) (fun v => if decide (v = sig_d) then 1 else 0)
               6 (fun _ => 0) in
  fst (matchPattern irPlain (OpResult 2 PropertyType) patternNOI noBindings)
    = false /\
  fst (matchPattern irPlain (OpResult 2 PropertyType) patternOI
         (snd (matchPattern irPlain (OpResult 2 PropertyType) patternNOI
                 noBindings))) = false /\
  fst res = success /\
  created (snd res) =
    [ Or sig_d sig_a; Always (ltlToSVEventControl Pos) sig_clk;
      SVAssert (new 100 0 i1) (Some "lbl") (100 + 1) ] /\
  replaced (snd res) =
    [(1%N, new 100 0 i1); (3%N, new 100 2 OtherType)] /\
  (exists stale, erased (snd res) = 2%N :: stale) /\
  consistent (snd res) val /\
  val sig_a = 0 /\ val sig_d = 1 /\
  val (new 100 0 i1) = 1.
Proof.
  intros res val.
  assert (H1 : fst (matchPattern irPlain (OpResult 2 PropertyType) patternNOI
                      noBindings) = false) by (vm_compute; reflexivity).
  assert (H2 : fst (matchPattern irPlain (OpResult 2 PropertyType) patternOI
                      (snd (matchPattern irPlain (OpResult 2 PropertyType)
                              patternNOI noBindings))) = false)
    by (vm_compute; reflexivity).
  destruct (plain_property_lowering irPlain 2 1 Pos sig_a sig_d sig_clk
              PropertyType PropertyType eq_refl eq_refl eq_refl eq_refl
              eq_refl 3 (Some "lbl") 100 H1 H2)
    as (Hs & Hcr & Hre & Her & Hv).
  assert (Hc : consistent (snd res) val).
  { intros k op z Hk Hz.
    do 3 (destruct k as [|k];
          [vm_compute in Hk; injection Hk as <-; cbn [opSem] in Hz;
           first [ discriminate Hz
                 | injection Hz as <-; vm_compute; reflexivity ]|]).
    vm_compute in Hk. discriminate Hk. }
  split; [exact H1|]. split; [exact H2|].
  split; [exact Hs|]. split; [exact Hcr|]. split; [exact Hre|].
  split; [exact Her|]. split; [exact Hc|].
  split; [reflexivity|]. split; [reflexivity|].
  exact (Hv val false true Hc eq_refl eq_refl).
Defined.

End LTLToCoreProps.
